(** * changelog-digest: the log parser, the date-range reducer, the
      summary-reply parser and the audience lookup, embedded from
      [src/git.ts] and [src/summarize.ts].

    A JavaScript string is a finite sequence of UTF-16 code units; the
    functions of the standard library that the program calls ([split],
    [trim], [join], [Date.parse], [toISOString], [JSON.parse], the one
    regular expression) are modelled after ECMA-262.  Exceptions are made
    explicit: a computation returns [Ok v] or [Throw e]. *)

From Stdlib Require Import Strings.Ascii Strings.String.
From Stdlib Require Import List NArith ZArith Bool Arith Lia.
From Stdlib Require Import Sorting.Permutation.
From Stdlib Require Import DecimalString.
Import ListNotations.

Local Open Scope nat_scope.
Set Warnings "-register-all".

(** ** Strings *)

Definition code_unit := N.
Definition jsstring := list code_unit.

(** An ASCII literal as its code units. *)
Definition lit (s : string) : jsstring :=
  map N_of_ascii (list_ascii_of_string s).

Definition cu_eqb (a b : code_unit) : bool := N.eqb a b.
Arguments cu_eqb (a b)%_N.

Fixpoint jsstring_eqb (a b : jsstring) : bool :=
  match a, b with
  | [], [] => true
  | x :: a', y :: b' => cu_eqb x y && jsstring_eqb a' b'
  | _, _ => false
  end.

(** WhiteSpace and LineTerminator code units, the set [trim] strips. *)
Definition is_ws (c : code_unit) : bool :=
  (((9 <=? c) && (c <=? 13)) || (c =? 32) || (c =? 160) || (c =? 5760)
   || ((8192 <=? c) && (c <=? 8202)) || (c =? 8232) || (c =? 8233)
   || (c =? 8239) || (c =? 8287) || (c =? 12288) || (c =? 65279))%N.

Fixpoint trimStart (s : jsstring) : jsstring :=
  match s with
  | [] => []
  | c :: r => if is_ws c then trimStart r else s
  end.

Definition trimEnd (s : jsstring) : jsstring := rev (trimStart (rev s)).

Definition trim (s : jsstring) : jsstring := trimEnd (trimStart s).

(** ToBoolean on a string: only the empty string is falsy. *)
Definition truthy_string (s : jsstring) : bool :=
  match s with [] => false | _ :: _ => true end.

Fixpoint starts_with (R S : jsstring) : bool :=
  match R, S with
  | [], _ => true
  | r :: R', c :: S' => cu_eqb r c && starts_with R' S'
  | _ :: _, [] => false
  end.

(** StringIndexOf(S, R, 0): the least index at which [R] occurs in [S]. *)
Fixpoint string_index_of (S R : jsstring) : option nat :=
  if starts_with R S then Some 0
  else match S with
       | [] => None
       | _ :: S' => option_map Datatypes.S (string_index_of S' R)
       end.

Definition includes (S R : jsstring) : bool :=
  match string_index_of S R with Some _ => true | None => false end.

(** Steps 14 to 19 of String.prototype.split for a non-empty separator:
    cut at the first occurrence, continue behind it.  Each round removes
    at least one code unit, so [length S] rounds are enough
    ([split_loop_fuel] below). *)
Fixpoint split_loop (fuel : nat) (R S : jsstring) : list jsstring :=
  match fuel with
  | O => [S]
  | Datatypes.S fuel' =>
      match string_index_of S R with
      | None => [S]
      | Some j => firstn j S :: split_loop fuel' R (skipn (j + length R) S)
      end
  end.

(** String.prototype.split(separator) without a limit. *)
Definition split (S R : jsstring) : list jsstring :=
  match R with
  | [] => map (fun c => [c]) S
  | _ :: _ =>
      match S with
      | [] => [[]]
      | _ :: _ => split_loop (length S) R S
      end
  end.

(** Array.prototype.join on an array of strings. *)
Fixpoint join (parts : list jsstring) (sep : jsstring) : jsstring :=
  match parts with
  | [] => []
  | [p] => p
  | p :: ps => p ++ sep ++ join ps sep
  end.

(** ** Exceptions *)

Inductive js_error :=
| TypeError
| RangeError
| SyntaxError
| Error (message : jsstring).

Inductive result (A : Type) :=
| Ok (a : A)
| Throw (e : js_error).
Arguments Ok {A} a.
Arguments Throw {A} e.

Definition bind {A B} (m : result A) (k : A -> result B) : result B :=
  match m with
  | Ok a => k a
  | Throw e => Throw e
  end.

Notation "x <- m ;; k" := (bind m (fun x => k))
  (at level 61, m at next level, right associativity).

(** ** src/types.ts *)

Record CommitInfo := mkCommitInfo {
  hash : jsstring;
  date : jsstring;
  author : jsstring;
  message : jsstring;
  body : option jsstring
}.

Record DateRange := mkDateRange {
  range_start : jsstring;
  range_end : jsstring
}.

(** ** src/git.ts: parseGitLog *)

(** [x.trim()] where [x] was read from an array: reading past the end
    gives [undefined], on which the method call throws. *)
Definition trim_of (x : option jsstring) : result jsstring :=
  match x with
  | Some s => Ok (trim s)
  | None => Throw TypeError
  end.

(** [body || undefined] *)
Definition or_undefined (s : jsstring) : option jsstring :=
  if truthy_string s then Some s else None.

(** One round of the [for ... of] loop: the array [commits] before the
    round, the chunk, the array after the round. *)
Definition parse_chunk (fieldSeparator : jsstring)
    (commits : list CommitInfo) (rawCommit : jsstring)
  : result (list CommitInfo) :=
  let parts := split rawCommit fieldSeparator in
  if 4 <=? length parts then
    let bodyParts := skipn 4 parts in
    let body := trim (join bodyParts fieldSeparator) in
    h <- trim_of (nth_error parts 0) ;;
    d <- trim_of (nth_error parts 1) ;;
    a <- trim_of (nth_error parts 2) ;;
    m <- trim_of (nth_error parts 3) ;;
    Ok (commits ++ [mkCommitInfo h d a m (or_undefined body)])
  else Ok commits.

Fixpoint for_of {A St} (round : St -> A -> result St) (xs : list A) (st : St)
  : result St :=
  match xs with
  | [] => Ok st
  | x :: xs' => st' <- round st x ;; for_of round xs' st'
  end.

Definition parseGitLog (raw commitSeparator fieldSeparator : jsstring)
  : result (list CommitInfo) :=
  let rawCommits :=
    filter (fun c => truthy_string (trim c)) (split raw commitSeparator) in
  for_of (parse_chunk fieldSeparator) rawCommits [].

(** The two tokens [getCommits] passes. *)
Definition SEPARATOR : jsstring := lit "---COMMIT_SEPARATOR---".
Definition FIELD_SEPARATOR : jsstring := lit "---FIELD---".

(** ** Dates

    A time value is a number of milliseconds since the epoch, or NaN.
    The numbers the program computes with are these and the two
    infinities ([Math.min] and [Math.max] of nothing). *)

Inductive number :=
| NaN
| PosInf
| NegInf
| Finite (z : Z).

Definition num_min (a b : number) : number :=
  match a, b with
  | NaN, _ | _, NaN => NaN
  | NegInf, _ | _, NegInf => NegInf
  | PosInf, x | x, PosInf => x
  | Finite x, Finite y => Finite (Z.min x y)
  end.

Definition num_max (a b : number) : number :=
  match a, b with
  | NaN, _ | _, NaN => NaN
  | PosInf, _ | _, PosInf => PosInf
  | NegInf, x | x, NegInf => x
  | Finite x, Finite y => Finite (Z.max x y)
  end.

(** What [Math.min] and [Math.max] make of the arguments they are given:
    the least and the greatest, the infinities of no argument at all. *)
Definition least (xs : list number) : number := fold_right num_min PosInf xs.
Definition greatest (xs : list number) : number := fold_right num_max NegInf xs.

(** A Date object is its time value; [None] is the invalid date. *)
Definition Date := option Z.

Definition msPerDay : Z := 86400000.
Definition max_time : Z := 8640000000000000.

Definition TimeClip (n : number) : Date :=
  match n with
  | Finite t => if (Z.abs t <=? max_time)%Z then Some t else None
  | _ => None
  end.

Definition getTime (d : Date) : number :=
  match d with
  | Some t => Finite t
  | None => NaN
  end.

(** Days since the epoch of a day of the proleptic Gregorian calendar, and
    back (the calendar of ECMA-262's MakeDay, YearFromTime, MonthFromTime
    and DateFromTime), by the usual arithmetic on 400-year eras with the
    year starting in March.  That the two agree with ECMA-262's own
    definitions is [days_from_civil_spec] and [civil_from_days_spec]. *)
Definition days_from_civil (y m d : Z) : Z :=
  (let y := if m <=? 2 then y - 1 else y in
   let era := y / 400 in
   let yoe := y - era * 400 in
   let doy := (153 * (if 2 <? m then m - 3 else m + 9) + 2) / 5 + d - 1 in
   let doe := yoe * 365 + yoe / 4 - yoe / 100 + doy in
   era * 146097 + doe - 719468)%Z.

Definition civil_from_days (z : Z) : Z * Z * Z :=
  (let z := z + 719468 in
   let era := z / 146097 in
   let doe := z - era * 146097 in
   let yoe := (doe - doe / 1460 + doe / 36524 - doe / 146096) / 365 in
   let y := yoe + era * 400 in
   let doy := doe - (365 * yoe + yoe / 4 - yoe / 100) in
   let mp := (5 * doy + 2) / 153 in
   let d := doy - (153 * mp + 2) / 5 + 1 in
   let m := if mp <? 10 then mp + 3 else mp - 9 in
   (if m <=? 2 then y + 1 else y, m, d))%Z.

Definition is_leap (y : Z) : bool :=
  ((y mod 4 =? 0) && negb (y mod 100 =? 0) || (y mod 400 =? 0))%Z.

Definition days_in_month (y m : Z) : Z :=
  (if m =? 2 then (if is_leap y then 29 else 28)
   else if (m =? 4) || (m =? 6) || (m =? 9) || (m =? 11) then 30 else 31)%Z.

(** ECMA-262's own arithmetic of days: the day number of the first day of
    a year, and the days of a year that lie before a month. *)
Definition DayFromYear (y : Z) : Z :=
  (365 * (y - 1970) + (y - 1969) / 4 - (y - 1901) / 100 + (y - 1601) / 400)%Z.

Definition days_before_month (y m : Z) : Z :=
  (nth (Z.to_nat (m - 1)) [0; 31; 59; 90; 120; 151; 181; 212; 243; 273; 304; 334] 0
   + (if is_leap y && (2 <? m) then 1 else 0))%Z.

Definition valid_date (y m d : Z) : bool :=
  ((1 <=? m) && (m <=? 12) && (1 <=? d) && (d <=? days_in_month y m))%Z.

(** The [n] integers from [lo] on. *)
Fixpoint Zrange (lo : Z) (n : nat) : list Z :=
  match n with
  | O => []
  | S n' => lo :: Zrange (lo + 1) n'
  end.

(** The era arithmetic of [civil_from_days], taken apart: the day of the
    era on which its year [k] starts (years start in March; the era has
    400 of them and 146097 days), and the year of a day of the era. *)
Definition year_start (k : Z) : Z :=
  (if k =? 400 then 146097 else 365 * k + k / 4 - k / 100)%Z.

Definition year_of_era (doe : Z) : Z :=
  ((doe - doe / 1460 + doe / 36524 - doe / 146096) / 365)%Z.

(** One year of the era: the formula finds it from its first and from its
    last day, and it has 366 days only when the year that its February
    belongs to is a leap year. *)
Definition check_year (k : Z) : bool :=
  ((0 <=? year_start k)
   && (year_of_era (year_start k) =? k)
   && (year_of_era (year_start (k + 1) - 1) =? k)
   && (year_start (k + 1) - year_start k
       <=? (if is_leap (k + 1) then 366 else 365)))%Z.

(** One day of a year that starts in March: its month and day exist and
    lead back to it. *)
Definition check_day_of_year (doy : Z) : bool :=
  (let mp := (5 * doy + 2) / 153 in
   let d := doy - (153 * mp + 2) / 5 + 1 in
   let m := if mp <? 10 then mp + 3 else mp - 9 in
   (1 <=? m) && (m <=? 12) && (1 <=? d)
   && (d <=? (if m =? 2 then (if doy =? 365 then 29 else 28)
              else days_in_month 1 m))
   && ((153 * (if 2 <? m then m - 3 else m + 9) + 2) / 5 + d - 1 =? doy))%Z.

(** One month of the years 0 to 399, numbered from January of the year
    0: its first day is where ECMA-262 puts it. *)
Definition check_month (ym : Z) : bool :=
  (let y := ym / 12 in
   let m := ym mod 12 + 1 in
   days_from_civil y m 1 =? DayFromYear y + days_before_month y m)%Z.

(** *** Writing a date: toISOString *)

Definition digit_char (d : Z) : code_unit := (48 + Z.to_N d)%N.

(** The last [width] decimal digits of [n]. *)
Fixpoint pad (width : nat) (n : Z) : jsstring :=
  match width with
  | O => []
  | S w => pad w (n / 10) ++ [digit_char (n mod 10)]
  end.

(** Four digits for the years 0 to 9999, else a sign and six digits. *)
Definition year_string (y : Z) : jsstring :=
  if ((0 <=? y) && (y <=? 9999))%Z then pad 4 y
  else (if (y <? 0)%Z then 45%N else 43%N) :: pad 6 (Z.abs y).

(** The UTC calendar date of an instant, as YYYY-MM-DD. *)
Definition utc_date (t : Z) : jsstring :=
  let '(y, m, d) := civil_from_days (t / msPerDay) in
  year_string y ++ lit "-" ++ pad 2 m ++ lit "-" ++ pad 2 d.

(** The UTC time of day of an instant, as HH:mm:ss.sss. *)
Definition utc_time (t : Z) : jsstring :=
  (let ms := t mod msPerDay in
   pad 2 (ms / 3600000) ++ lit ":" ++ pad 2 (ms / 60000 mod 60) ++ lit ":"
   ++ pad 2 (ms / 1000 mod 60) ++ lit "." ++ pad 3 (ms mod 1000))%Z.

Definition iso_string (t : Z) : jsstring :=
  utc_date t ++ lit "T" ++ utc_time t ++ lit "Z".

(** [d.toISOString()] throws a RangeError on the invalid date. *)
Definition toISOString (d : Date) : result jsstring :=
  match d with
  | Some t => Ok (iso_string t)
  | None => Throw RangeError
  end.

(** *** Reading a date: the Date Time String Format *)

Definition obind {A B} (m : option A) (k : A -> option B) : option B :=
  match m with
  | Some a => k a
  | None => None
  end.

Notation "x <-? m ;; k" := (obind m (fun x => k))
  (at level 61, m at next level, right associativity).
Notation "' p <-? m ;; k" := (obind m (fun x => let p := x in k))
  (at level 61, p pattern, m at next level, right associativity).

Definition digit (c : code_unit) : option Z :=
  if ((48 <=? c) && (c <=? 57))%N then Some (Z.of_N c - 48)%Z else None.

(** Exactly [n] decimal digits. *)
Fixpoint digits (n : nat) (acc : Z) (s : jsstring) : option (Z * jsstring) :=
  match n with
  | O => Some (acc, s)
  | S n' =>
      match s with
      | [] => None
      | c :: r => d <-? digit c ;; digits n' (acc * 10 + d)%Z r
      end
  end.

Definition expect (c : code_unit) (s : jsstring) : option jsstring :=
  match s with
  | [] => None
  | x :: r => if cu_eqb x c then Some r else None
  end.
Arguments expect c%_N s.

(** The offset from UTC in minutes: [Z], [+HH:mm] or [-HH:mm], up to the
    end of the string. *)
Definition parse_offset (s : jsstring) : option Z :=
  match s with
  | [] => None
  | c :: r =>
      if cu_eqb c 90 then
        match r with
        | [] => Some 0%Z
        | _ :: _ => None
        end
      else
        sg <-? (if cu_eqb c 43 then Some 1%Z
                else if cu_eqb c 45 then Some (-1)%Z else None) ;;
        '(h, r) <-? digits 2 0 r ;;
        r <-? expect 58 r ;;
        '(m, r) <-? digits 2 0 r ;;
        match r with
        | [] =>
            if ((h <=? 23) && (m <=? 59))%Z then Some (sg * (h * 60 + m))%Z
            else None
        | _ :: _ => None
        end
  end.

(** The two shapes of the format that carry their own time zone: the date
    alone, [YYYY-MM-DD], which is midnight UTC, and the date and time with
    [Z] or an offset, [YYYY-MM-DDTHH:mm:ss+HH:mm], which is what [git log]
    prints for [%aI].  Fields out of range are not recognised. *)
Definition parse_iso (s : jsstring) : option Z :=
  '(y, r) <-? digits 4 0 s ;;
  r <-? expect 45 r ;;
  '(mo, r) <-? digits 2 0 r ;;
  r <-? expect 45 r ;;
  '(d, r) <-? digits 2 0 r ;;
  if valid_date y mo d then
    match r with
    | [] => Some (days_from_civil y mo d * msPerDay)%Z
    | _ :: _ =>
        r <-? expect 84 r ;;
        '(h, r) <-? digits 2 0 r ;;
        r <-? expect 58 r ;;
        '(mi, r) <-? digits 2 0 r ;;
        r <-? expect 58 r ;;
        '(sec, r) <-? digits 2 0 r ;;
        off <-? parse_offset r ;;
        if ((h <=? 23) && (mi <=? 59) && (sec <=? 59))%Z
        then Some (days_from_civil y mo d * msPerDay
                   + ((h * 60 + mi - off) * 60 + sec) * 1000)%Z
        else None
    end
  else None.

(** ** src/git.ts: getDateRange *)

Section Host.

(** What the engine and the machine decide: the value of [Date.parse] on
    a string outside the two shapes above (other shapes of the format, a
    time without offset, which is local time, and whatever else the engine
    chooses to understand), and the reading of the clock. *)
Variable host_parse : jsstring -> number.
Variable now : Z.

(** The number of arguments that the engine takes in one call.  ECMA-262
    sets no bound; engines do, and a call with more arguments throws a
    RangeError (Node 22 gives up at about 125,000).  The bound is given by
    what it leaves above the two arguments that [Math.min] and [Math.max]
    declare (their [length] is 2). *)
Variable spare_arguments : nat.

Definition max_arguments : nat := 2 + spare_arguments.

(** [Math.min(...xs)] and [Math.max(...xs)]: the spread makes one argument
    of every element. *)
Definition Math_min (xs : list number) : result number :=
  if length xs <=? max_arguments then Ok (least xs) else Throw RangeError.

Definition Math_max (xs : list number) : result number :=
  if length xs <=? max_arguments then Ok (greatest xs) else Throw RangeError.

Definition Date_parse (s : jsstring) : number :=
  match parse_iso s with
  | Some t => Finite t
  | None => host_parse s
  end.

(** [new Date(s)] for a string, [new Date(n)] for a number, [new Date()] *)
Definition Date_of_string (s : jsstring) : Date := TimeClip (Date_parse s).
Definition Date_of_number (n : number) : Date := TimeClip n.
Definition Date_now : Date := Some now.

(** [x.split('T')[0]]: [split] with a non-empty separator returns at
    least one part ([split_not_nil]). *)
Definition before_T (x : jsstring) : jsstring := hd [] (split x (lit "T")).

Definition getDateRange (commits : list CommitInfo) : result DateRange :=
  if length commits =? 0 then
    today <- toISOString Date_now ;;
    let today := before_T today in
    Ok (mkDateRange today today)
  else
    let dates := map (fun c => Date_of_string (date c)) commits in
    oldest <- Math_min (map getTime dates) ;;
    let oldest := Date_of_number oldest in
    newest <- Math_max (map getTime dates) ;;
    let newest := Date_of_number newest in
    s <- toISOString oldest ;;
    e <- toISOString newest ;;
    Ok (mkDateRange (before_T s) (before_T e)).

End Host.

(** ** Values

    The values that [JSON.parse] builds, [undefined], and the built-in
    objects a property read can reach through the prototype chain.  A
    number is kept as the decimal it was written as,
    [(-1)^neg * mantissa * 10^exp10]; the program only ever asks whether it
    is zero as a double. *)

Inductive value :=
| VUndefined
| VNull
| VBool (b : bool)
| VNumber (neg : bool) (mantissa : N) (exp10 : Z)
| VString (s : jsstring)
| VArray (items : list value)
| VObject (members : list (jsstring * value))
| VBuiltin (name : jsstring).

(** A decimal rounds to the double zero when it is at most half the least
    positive double, 2^-1075 (ties go to the even neighbour, zero). *)
Definition rounds_to_zero (mantissa : N) (exp10 : Z) : bool :=
  ((Z.of_N mantissa =? 0)
   || (exp10 <? 0) && (Z.of_N mantissa * 2 ^ 1075 <=? 10 ^ (- exp10)))%Z.

Definition ToBoolean (v : value) : bool :=
  match v with
  | VUndefined | VNull => false
  | VBool b => b
  | VNumber _ m e => negb (rounds_to_zero m e)
  | VString s => truthy_string s
  | VArray _ | VObject _ | VBuiltin _ => true
  end.

(** [a || b] on values already computed. *)
Definition logical_or (a b : value) : value := if ToBoolean a then a else b.

(** The own property [key] of an object. *)
Fixpoint own_property (key : jsstring) (members : list (jsstring * value))
  : option value :=
  match members with
  | [] => None
  | (k, v) :: rest => if jsstring_eqb k key then Some v else own_property key rest
  end.

(** CreateDataProperty: a key already there keeps its place and takes the
    new value. *)
Fixpoint define_property (key : jsstring) (v : value)
    (members : list (jsstring * value)) : list (jsstring * value) :=
  match members with
  | [] => [(key, v)]
  | (k, x) :: rest =>
      if jsstring_eqb k key then (k, v) :: rest
      else (k, x) :: define_property key v rest
  end.

(** The properties of Object.prototype, which every plain object
    inherits: functions, and for [__proto__] the prototype itself. *)
Definition Object_prototype_names : list jsstring :=
  map lit
    [ "constructor"; "hasOwnProperty"; "isPrototypeOf";
      "propertyIsEnumerable"; "toLocaleString"; "toString"; "valueOf";
      "__proto__"; "__defineGetter__"; "__defineSetter__";
      "__lookupGetter__"; "__lookupSetter__" ]%string.

Definition Object_prototype (key : jsstring) : value :=
  if existsb (jsstring_eqb key) Object_prototype_names then VBuiltin key
  else VUndefined.

(** [receiver[key]].  On a plain object: the own property, else the
    inherited one, else [undefined].  On [null] and [undefined] a
    TypeError.  The other receivers never occur in this program
    ([JSON_parse_brace] below); they are given the inherited properties
    only. *)
Definition Get (receiver : value) (key : jsstring) : result value :=
  match receiver with
  | VUndefined | VNull => Throw TypeError
  | VObject members =>
      Ok (match own_property key members with
          | Some v => v
          | None => Object_prototype key
          end)
  | _ => Ok (Object_prototype key)
  end.

(** ** JSON.parse

    The text is cut into tokens, one code unit at a time, and the tokens
    drive a stack machine; neither pass recurses on anything but the rest
    of its input. *)

Inductive token :=
| TLBrace | TRBrace | TLBracket | TRBracket | TColon | TComma
| TString (s : jsstring)
| TNumber (neg : bool) (mantissa : N) (exp10 : Z)
| TTrue | TFalse | TNull.

(** Where the lexer stands: between tokens; in a string, behind a
    backslash, in the four hexadecimal digits of a [\u] escape; in one of
    the words [true], [false], [null]; in a number, by the part reached
    (digits of the fraction counted in [scale]). *)
Inductive lexmode :=
| LIdle
| LString (acc : jsstring)
| LEscape (acc : jsstring)
| LHex (acc : jsstring) (todo : nat) (v : N)
| LWord (rest : jsstring) (t : token)
| LMinus
| LZero (neg : bool)
| LInt (neg : bool) (m : N)
| LPoint (neg : bool) (m : N)
| LFrac (neg : bool) (m : N) (scale : Z)
| LExp (neg : bool) (m : N) (scale : Z)
| LExpSign (neg : bool) (m : N) (scale : Z) (eneg : bool)
| LExpDigits (neg : bool) (m : N) (scale : Z) (eneg : bool) (e : N).

Definition json_ws (c : code_unit) : bool :=
  cu_eqb c 9 || cu_eqb c 10 || cu_eqb c 13 || cu_eqb c 32.

Definition dec_digit (c : code_unit) : option N :=
  if ((48 <=? c) && (c <=? 57))%N then Some (c - 48)%N else None.

Definition hex_digit (c : code_unit) : option N :=
  if ((48 <=? c) && (c <=? 57))%N then Some (c - 48)%N
  else if ((65 <=? c) && (c <=? 70))%N then Some (c - 55)%N
  else if ((97 <=? c) && (c <=? 102))%N then Some (c - 87)%N
  else None.

(** The number a lexer mode has read, when it may end there. *)
Definition number_token (mode : lexmode) : option token :=
  match mode with
  | LZero neg => Some (TNumber neg 0 0)
  | LInt neg m => Some (TNumber neg m 0)
  | LFrac neg m scale => Some (TNumber neg m (- scale))
  | LExpDigits neg m scale eneg e =>
      Some (TNumber neg m
              ((if eneg then - Z.of_N e else Z.of_N e) - scale))
  | _ => None
  end.

Definition lex_idle (c : code_unit) : option (lexmode * list token) :=
  if json_ws c then Some (LIdle, [])
  else if cu_eqb c 123 then Some (LIdle, [TLBrace])
  else if cu_eqb c 125 then Some (LIdle, [TRBrace])
  else if cu_eqb c 91 then Some (LIdle, [TLBracket])
  else if cu_eqb c 93 then Some (LIdle, [TRBracket])
  else if cu_eqb c 58 then Some (LIdle, [TColon])
  else if cu_eqb c 44 then Some (LIdle, [TComma])
  else if cu_eqb c 34 then Some (LString [], [])
  else if cu_eqb c 45 then Some (LMinus, [])
  else if cu_eqb c 48 then Some (LZero false, [])
  else if cu_eqb c 116 then Some (LWord (lit "rue") TTrue, [])
  else if cu_eqb c 102 then Some (LWord (lit "alse") TFalse, [])
  else if cu_eqb c 110 then Some (LWord (lit "ull") TNull, [])
  else match dec_digit c with
       | Some d => Some (LInt false d, [])
       | None => None
       end.

(** The character that follows a backslash. *)
Definition escaped (c : code_unit) : option code_unit :=
  if cu_eqb c 34 || cu_eqb c 92 || cu_eqb c 47 then Some c
  else if cu_eqb c 98 then Some 8%N
  else if cu_eqb c 102 then Some 12%N
  else if cu_eqb c 110 then Some 10%N
  else if cu_eqb c 114 then Some 13%N
  else if cu_eqb c 116 then Some 9%N
  else None.

(** A number ends at the first code unit that cannot continue it; that
    code unit is then read afresh. *)
Definition end_number (mode : lexmode) (c : code_unit)
  : option (lexmode * list token) :=
  t <-? number_token mode ;;
  '(mode', ts) <-? lex_idle c ;;
  Some (mode', t :: ts).

Definition is_e (c : code_unit) : bool := cu_eqb c 101 || cu_eqb c 69.

Definition lex_step (mode : lexmode) (c : code_unit)
  : option (lexmode * list token) :=
  match mode with
  | LIdle => lex_idle c
  | LString acc =>
      if cu_eqb c 34 then Some (LIdle, [TString acc])
      else if cu_eqb c 92 then Some (LEscape acc, [])
      else if (c <? 32)%N then None
      else Some (LString (acc ++ [c]), [])
  | LEscape acc =>
      if cu_eqb c 117 then Some (LHex acc 4 0%N, [])
      else x <-? escaped c ;; Some (LString (acc ++ [x]), [])
  | LHex acc todo v =>
      h <-? hex_digit c ;;
      let v := (v * 16 + h)%N in
      match todo with
      | O => None
      | S O => Some (LString (acc ++ [v]), [])
      | S k => Some (LHex acc k v, [])
      end
  | LWord rest t =>
      match rest with
      | [] => None
      | x :: more =>
          if cu_eqb c x then
            match more with
            | [] => Some (LIdle, [t])
            | _ :: _ => Some (LWord more t, [])
            end
          else None
      end
  | LMinus =>
      if cu_eqb c 48 then Some (LZero true, [])
      else d <-? dec_digit c ;; Some (LInt true d, [])
  | LZero neg =>
      if cu_eqb c 46 then Some (LPoint neg 0%N, [])
      else if is_e c then Some (LExp neg 0%N 0%Z, [])
      else end_number mode c
  | LInt neg m =>
      match dec_digit c with
      | Some d => Some (LInt neg (m * 10 + d)%N, [])
      | None =>
          if cu_eqb c 46 then Some (LPoint neg m, [])
          else if is_e c then Some (LExp neg m 0%Z, [])
          else end_number mode c
      end
  | LPoint neg m =>
      d <-? dec_digit c ;; Some (LFrac neg (m * 10 + d)%N 1%Z, [])
  | LFrac neg m scale =>
      match dec_digit c with
      | Some d => Some (LFrac neg (m * 10 + d)%N (scale + 1)%Z, [])
      | None =>
          if is_e c then Some (LExp neg m scale, [])
          else end_number mode c
      end
  | LExp neg m scale =>
      if cu_eqb c 43 then Some (LExpSign neg m scale false, [])
      else if cu_eqb c 45 then Some (LExpSign neg m scale true, [])
      else d <-? dec_digit c ;; Some (LExpDigits neg m scale false d, [])
  | LExpSign neg m scale eneg =>
      d <-? dec_digit c ;; Some (LExpDigits neg m scale eneg d, [])
  | LExpDigits neg m scale eneg e =>
      match dec_digit c with
      | Some d => Some (LExpDigits neg m scale eneg (e * 10 + d)%N, [])
      | None => end_number mode c
      end
  end.

Definition lex_end (mode : lexmode) : option (list token) :=
  match mode with
  | LIdle => Some []
  | _ => t <-? number_token mode ;; Some [t]
  end.

Fixpoint lex (mode : lexmode) (s : jsstring) : option (list token) :=
  match s with
  | [] => lex_end mode
  | c :: r =>
      '(mode', ts) <-? lex_step mode c ;;
      rest <-? lex mode' r ;;
      Some (ts ++ rest)
  end.

(** The containers left open around the place the parser has reached: an
    array with the items read so far, an object with its members so far
    and the key whose value is being read. *)
Inductive frame :=
| FArray (items : list value)
| FObject (members : list (jsstring * value)) (key : jsstring).

Inductive pstate :=
| PValue (stack : list frame)
| PFirstItem (stack : list frame)
| PNextItem (items : list value) (stack : list frame)
| PFirstKey (stack : list frame)
| PKey (members : list (jsstring * value)) (stack : list frame)
| PColon (members : list (jsstring * value)) (key : jsstring)
    (stack : list frame)
| PNextMember (members : list (jsstring * value)) (stack : list frame)
| PDone (v : value).

(** A value is complete: it goes into the innermost open container, or
    it is the result. *)
Definition complete (v : value) (stack : list frame) : pstate :=
  match stack with
  | [] => PDone v
  | FArray items :: outer => PNextItem (items ++ [v]) outer
  | FObject members key :: outer =>
      PNextMember (define_property key v members) outer
  end.

Definition start_value (t : token) (stack : list frame) : option pstate :=
  match t with
  | TLBrace => Some (PFirstKey stack)
  | TLBracket => Some (PFirstItem stack)
  | TString s => Some (complete (VString s) stack)
  | TNumber neg m e => Some (complete (VNumber neg m e) stack)
  | TTrue => Some (complete (VBool true) stack)
  | TFalse => Some (complete (VBool false) stack)
  | TNull => Some (complete VNull stack)
  | _ => None
  end.

Definition pstep (st : pstate) (t : token) : option pstate :=
  match st with
  | PValue stack => start_value t stack
  | PFirstItem stack =>
      match t with
      | TRBracket => Some (complete (VArray []) stack)
      | _ => start_value t (FArray [] :: stack)
      end
  | PNextItem items stack =>
      match t with
      | TComma => Some (PValue (FArray items :: stack))
      | TRBracket => Some (complete (VArray items) stack)
      | _ => None
      end
  | PFirstKey stack =>
      match t with
      | TRBrace => Some (complete (VObject []) stack)
      | TString k => Some (PColon [] k stack)
      | _ => None
      end
  | PKey members stack =>
      match t with
      | TString k => Some (PColon members k stack)
      | _ => None
      end
  | PColon members k stack =>
      match t with
      | TColon => Some (PValue (FObject members k :: stack))
      | _ => None
      end
  | PNextMember members stack =>
      match t with
      | TComma => Some (PKey members stack)
      | TRBrace => Some (complete (VObject members) stack)
      | _ => None
      end
  | PDone _ => None
  end.

Fixpoint parse_tokens (st : pstate) (ts : list token) : option value :=
  match ts with
  | [] => match st with PDone v => Some v | _ => None end
  | t :: rest => st' <-? pstep st t ;; parse_tokens st' rest
  end.

Definition JSON_parse (text : jsstring) : result value :=
  match (ts <-? lex LIdle text ;; parse_tokens (PValue []) ts) with
  | Some v => Ok v
  | None => Throw SyntaxError
  end.

(** ** The regular expression [/\{[\s\S]*\}/]

    [[\s\S]] matches any code unit and the star is greedy. *)

(** The longest prefix that ends in a closing brace. *)
Fixpoint up_to_last_brace (s : jsstring) : option jsstring :=
  match s with
  | [] => None
  | c :: r =>
      match up_to_last_brace r with
      | Some m => Some (c :: m)
      | None => if cu_eqb c 125 then Some [c] else None
      end
  end.

(** A match that starts at the head of [s]. *)
Definition match_here (s : jsstring) : option jsstring :=
  match s with
  | [] => None
  | c :: r =>
      if cu_eqb c 123 then m <-? up_to_last_brace r ;; Some (c :: m)
      else None
  end.

(** [text.match(re)], element 0: the match at the leftmost position that
    has one. *)
Fixpoint regexp_match (s : jsstring) : option jsstring :=
  match match_here s with
  | Some m => Some m
  | None =>
      match s with
      | [] => None
      | _ :: r => regexp_match r
      end
  end.

(** ** src/summarize.ts *)

Inductive category := features | fixes | improvements | other.

(** [items] is declared [string[]]; at run time it is whatever the reply
    held. *)
Record DigestSection := mkDigestSection {
  section_category : category;
  items : value
}.

Definition unparseable : js_error :=
  Error (lit "Could not parse Claude response as JSON").

Definition parseClaudeResponse (text : jsstring) : result (list DigestSection) :=
  match regexp_match text with
  | None => Throw unparseable
  | Some jsonMatch =>
      data <- JSON_parse jsonMatch ;;
      f <- Get data (lit "features") ;;
      x <- Get data (lit "fixes") ;;
      i <- Get data (lit "improvements") ;;
      o <- Get data (lit "other") ;;
      Ok [ mkDigestSection features (logical_or f (VArray []));
           mkDigestSection fixes (logical_or x (VArray []));
           mkDigestSection improvements (logical_or i (VArray []));
           mkDigestSection other (logical_or o (VArray [])) ]
  end.

Definition AUDIENCE_PROMPTS : value :=
  VObject
    [ (lit "general", VString (lit "Write for a general business audience."));
      (lit "sales", VString (lit
         "Write for a sales team. Emphasize customer-facing features and competitive advantages."));
      (lit "ops", VString (lit
         "Write for an operations team. Emphasize reliability, performance, and process improvements."));
      (lit "cx", VString (lit
         "Write for a customer experience team. Emphasize user-facing changes and support-related fixes.")) ].

(** The framing text [summarizeCommits] puts into the prompt:
    [AUDIENCE_PROMPTS[audience] || AUDIENCE_PROMPTS.general], with
    [audience] defaulting to ['general'] when the argument is absent. *)
Definition audienceGuidance (audience : option jsstring) : result value :=
  let audience :=
    match audience with
    | Some a => a
    | None => lit "general"
    end in
  v <- Get AUDIENCE_PROMPTS audience ;;
  if ToBoolean v then Ok v else Get AUDIENCE_PROMPTS (lit "general").

(** ** Vocabulary of the statements about parseGitLog *)

(** Whitespace only (the empty string included). *)
Definition blank (s : jsstring) : bool := forallb is_ws s.

Definition leading_ws (s : jsstring) : bool :=
  match s with [] => false | c :: _ => is_ws c end.

(** No whitespace at either end. *)
Definition is_trimmed (s : jsstring) : bool :=
  negb (leading_ws s) && negb (leading_ws (rev s)).

(** The text [p] can be followed by the separator [sep] without creating
    an earlier occurrence of it: [sep] starts nowhere inside [p], not even
    with its tail running into what follows. *)
Definition sep_free (sep p : jsstring) : bool :=
  negb (includes (p ++ removelast sep) sep).

(** One commit as the upstream log writes it: four fields and whatever
    fields follow them. *)
Record log_entry := mkEntry {
  e_hash : jsstring;
  e_date : jsstring;
  e_author : jsstring;
  e_subject : jsstring;
  e_rest : list jsstring
}.

Definition entry_fields (e : log_entry) : list jsstring :=
  e_hash e :: e_date e :: e_author e :: e_subject e :: e_rest e.

Definition render_entry (fs : jsstring) (e : log_entry) : jsstring :=
  join (entry_fields e) fs.

(** The blob: entries joined by the commit separator, with or without a
    separator after the last one. *)
Definition render_log (cs fs : jsstring) (es : list log_entry)
    (trailing : bool) : jsstring :=
  join (map (render_entry fs) es) cs ++ (if trailing then cs else []).

(** Well-formed entry: neither separator occurs where it was not written
    (the remainder after the fourth field is free to contain the field
    separator), and the entry is not whitespace only. *)
Definition entry_ok (cs fs : jsstring) (e : log_entry) : bool :=
  sep_free fs (e_hash e) && sep_free fs (e_date e)
  && sep_free fs (e_author e) && sep_free fs (e_subject e)
  && sep_free cs (render_entry fs e)
  && negb (blank (render_entry fs e)).

(** The record the parser is to return for an entry. *)
Definition commit_of_entry (fs : jsstring) (e : log_entry) : CommitInfo :=
  mkCommitInfo (trim (e_hash e)) (trim (e_date e)) (trim (e_author e))
    (trim (e_subject e)) (or_undefined (trim (join (e_rest e) fs))).

(** The body of a record: absent, or a non-empty trimmed string. *)
Definition body_ok (b : option jsstring) : Prop :=
  match b with
  | None => True
  | Some t => t <> [] /\ is_trimmed t = true
  end.

(** What the parser owes an entry: each of the four fields is the
    entry's field without the whitespace around it, so it is trimmed, and
    empty exactly when the entry's field is whitespace only; the body is
    absent or non-empty and trimmed. *)
Definition parsed_from (fs : jsstring) (e : log_entry) (c : CommitInfo)
  : Prop :=
  c = commit_of_entry fs e
  /\ (is_trimmed (hash c) = true /\ is_trimmed (date c) = true
      /\ is_trimmed (author c) = true /\ is_trimmed (message c) = true)
  /\ ((hash c = [] <-> blank (e_hash e) = true)
      /\ (date c = [] <-> blank (e_date e) = true)
      /\ (author c = [] <-> blank (e_author e) = true)
      /\ (message c = [] <-> blank (e_subject e) = true))
  /\ body_ok (body c).

(** The four fields as the specification words them: never empty. *)
Definition fields_nonempty (c : CommitInfo) : Prop :=
  hash c <> [] /\ date c <> [] /\ author c <> [] /\ message c <> [].

(** Sample data for the statements below: what [git log] prints with the
    format of [getCommits], a line feed between the commits. *)
Definition sample_entries : list log_entry :=
  [ mkEntry (lit "a1b2c3d") (lit "2024-01-20T09:15:00+01:00") (lit "Ann Lee")
      (lit "Add CSV export") [lit "Adds an export button." ++ [10%N]];
    mkEntry (10%N :: lit "e4f5a6b") (lit "2024-01-05T23:30:00-05:00")
      (lit "Bo Chen") (lit "Fix login redirect") [[]] ].

(** A commit made with an empty message. *)
Definition empty_subject_entry : log_entry :=
  mkEntry (lit "a1b2c3d") (lit "2024-01-05T10:00:00+00:00") (lit "Ann Lee")
    [] [[]].

(** The section sign, U+00A7. *)
Definition sect : jsstring := [167%N].

(** A record with the given date field. *)
Definition commit_dated (d : string) : CommitInfo :=
  mkCommitInfo (lit "a1b2c3d") (lit d) (lit "Ann Lee") (lit "Add CSV export")
    None.

(** [m] is the least, the greatest, of the instants [ts]. *)
Definition is_min (m : Z) (ts : list Z) : Prop :=
  In m ts /\ forall t, In t ts -> (m <= t)%Z.
Definition is_max (m : Z) (ts : list Z) : Prop :=
  In m ts /\ forall t, In t ts -> (t <= m)%Z.

(** An engine that understands no date string beyond the two shapes of
    [parse_iso]. *)
Definition strict_host : jsstring -> number := fun _ => NaN.

(** An engine that takes 125,000 arguments in a call and no more. *)
Definition node_spare : nat := N.to_nat 124998.

(** ** Vocabulary of the statements about the reply parser *)

(** A JSON text written with apostrophes where the double quotes go. *)
Definition dq (s : string) : jsstring :=
  map (fun c => if cu_eqb c 39 then 34%N else c) (lit s).

Definition category_key (c : category) : jsstring :=
  match c with
  | features => lit "features"
  | fixes => lit "fixes"
  | improvements => lit "improvements"
  | other => lit "other"
  end.

(** The items of a category, from the members of the payload. *)
Definition items_of (members : list (jsstring * value)) (c : category)
  : value :=
  match own_property (category_key c) members with
  | Some v => logical_or v (VArray [])
  | None => VArray []
  end.

Definition is_string (v : value) : bool :=
  match v with VString _ => true | _ => false end.

(** An ordered sequence of strings. *)
Definition is_string_array (v : value) : bool :=
  match v with VArray l => forallb is_string l | _ => false end.

Definition is_object (v : value) : bool :=
  match v with VObject _ => true | _ => false end.

(** The text holds an opening brace with a closing brace after it. *)
Definition has_brace_span (text : jsstring) : Prop :=
  exists a b c, text = a ++ [123%N] ++ b ++ [125%N] ++ c.

(** [span] runs from the first opening brace of [text] to its last
    closing brace. *)
Definition first_to_last_brace (text span : jsstring) : Prop :=
  exists a b c,
    text = a ++ span ++ c /\ span = [123%N] ++ b ++ [125%N]
    /\ ~ In 123%N a /\ ~ In 125%N c.

(** The kind of the outermost open container: of the bottom frame of the
    stack, or [innermost] when the stack is empty. *)
Fixpoint bottom (stack : list frame) (innermost : bool) : bool :=
  match stack with
  | [] => innermost
  | FArray _ :: outer => bottom outer false
  | FObject _ _ :: outer => bottom outer true
  end.

(** The value being parsed is an object. *)
Definition rooted (st : pstate) : bool :=
  match st with
  | PValue stack | PFirstItem stack | PNextItem _ stack => bottom stack false
  | PFirstKey stack | PKey _ stack | PColon _ _ stack
  | PNextMember _ stack => bottom stack true
  | PDone v => is_object v
  end.

(** The reply of the specification's example, and replies that break the
    contract in one place each. *)
Definition reply_example : jsstring :=
  lit "Here you go:" ++ [10%N] ++ dq "{'features':['A'],'fixes':[]}".
Definition reply_not_a_list : jsstring :=
  dq "{'features':'none this week','fixes':['Login works again.']}".
Definition reply_trailing_comma : jsstring :=
  dq "Sure! {'features':['A'],}".

Definition general_guidance : value :=
  VString (lit "Write for a general business audience.").

(** The four selectors of the closed set. *)
Definition audiences : list jsstring :=
  map lit ["general"; "sales"; "ops"; "cx"]%string.

(** ** src/git.ts: the git client, isGitRepository and getCommits *)

(** What the program asks of simple-git: whether the directory is a
    repository, and the output of a git command.  Either request can be
    rejected, and so can the construction of the client itself. *)
Record SimpleGit := mkSimpleGit {
  checkIsRepo : result bool;
  raw : list jsstring -> result jsstring
}.

(** The client is made outside the [try]: only a rejected check is turned
    into [false]. *)
Definition isGitRepository (simpleGit : jsstring -> result SimpleGit)
    (repoPath : jsstring) : result bool :=
  git <- simpleGit repoPath ;;
  match checkIsRepo git with
  | Ok b => Ok b
  | Throw _ => Ok false
  end.

Definition not_a_repository (repoPath : jsstring) : js_error :=
  Error (lit "Not a git repository: " ++ repoPath ++ [10%N]
         ++ lit "Please run this command from within a git repository or specify a valid repo path with --repo.").

(** The arguments of [git.raw]. *)
Definition log_args (since : jsstring) : list jsstring :=
  [ lit "log";
    lit "--since=" ++ since;
    lit "--pretty=format:%h" ++ FIELD_SEPARATOR ++ lit "%aI" ++ FIELD_SEPARATOR
    ++ lit "%an" ++ FIELD_SEPARATOR ++ lit "%s" ++ FIELD_SEPARATOR ++ lit "%b"
    ++ SEPARATOR ].

Definition getCommits (simpleGit : jsstring -> result SimpleGit)
    (repoPath since : jsstring) : result (list CommitInfo) :=
  git <- simpleGit repoPath ;;
  isRepo <- checkIsRepo git ;;
  if negb isRepo then Throw (not_a_repository repoPath)
  else
    log <- raw git (log_args since) ;;
    if negb (truthy_string (trim log)) then Ok []
    else parseGitLog log SEPARATOR FIELD_SEPARATOR.

(** ** Vocabulary of the further statements about the log *)

(** What [git log] prints for the format of [log_args]: each commit
    ends with the commit separator, and a line feed stands between two
    commits. *)
Definition git_chunk (e : log_entry) : jsstring :=
  render_entry FIELD_SEPARATOR e ++ SEPARATOR.

Definition git_log (es : list log_entry) : jsstring :=
  join (map git_chunk es) [10%N].

(** The entry with a line feed in front. *)
Definition after_newline (e : log_entry) : log_entry :=
  mkEntry (10%N :: e_hash e) (e_date e) (e_author e) (e_subject e) (e_rest e).

(** What every record of the parser satisfies. *)
Definition record_ok (c : CommitInfo) : Prop :=
  is_trimmed (hash c) = true /\ is_trimmed (date c) = true
  /\ is_trimmed (author c) = true /\ is_trimmed (message c) = true
  /\ body_ok (body c).

Definition record_okb (c : CommitInfo) : bool :=
  is_trimmed (hash c) && is_trimmed (date c) && is_trimmed (author c)
  && is_trimmed (message c)
  && match body c with
     | None => true
     | Some b => truthy_string b && is_trimmed b
     end.

(** A record written back as a log entry: its four fields, and its body
    when it has one. *)
Definition entry_of_commit (c : CommitInfo) : log_entry :=
  mkEntry (hash c) (date c) (author c) (message c)
    match body c with
    | Some b => [b]
    | None => []
    end.

(** A repository whose log is [log], and a directory that is none. *)
Definition repo_with_log (log : jsstring) : jsstring -> result SimpleGit :=
  fun _ => Ok (mkSimpleGit (Ok true) (fun _ => Ok log)).

Definition sample_commits : list CommitInfo :=
  [ mkCommitInfo (lit "a1b2c3d") (lit "2024-01-20T09:15:00+01:00")
      (lit "Ann Lee") (lit "Add CSV export")
      (Some (lit "Adds an export button."));
    mkCommitInfo (lit "e4f5a6b") (lit "2024-01-05T23:30:00-05:00")
      (lit "Bo Chen") (lit "Fix login redirect") None ].

(** Two commits as entries of the five fields of [log_args], the second
    with an empty body. *)
Definition git_entries : list log_entry :=
  [ mkEntry (lit "a1b2c3d") (lit "2024-01-20T09:15:00+01:00") (lit "Ann Lee")
      (lit "Add CSV export") [lit "Adds an export button." ++ [10%N]];
    mkEntry (lit "e4f5a6b") (lit "2024-01-05T23:30:00-05:00") (lit "Bo Chen")
      (lit "Fix login redirect") [[]] ].

(** ** JSON.stringify

    QuoteJSONString: the short escapes, [\u] and four hexadecimal digits
    for the other control characters and for a surrogate that is not half
    of a pair, every other code unit as it is. *)

Definition is_lead (c : code_unit) : bool :=
  ((55296 <=? c) && (c <=? 56319))%N.

Definition is_trail (c : code_unit) : bool :=
  ((56320 <=? c) && (c <=? 57343))%N.

Definition hex_char (d : N) : code_unit :=
  (if d <? 10 then 48 + d else 87 + d)%N.

Definition unicode_escape (c : code_unit) : jsstring :=
  [92; 117; hex_char (c / 4096 mod 16); hex_char (c / 256 mod 16);
   hex_char (c / 16 mod 16); hex_char (c mod 16)]%N.

Definition quote_unit (c : code_unit) : jsstring :=
  if cu_eqb c 8 then [92; 98]%N
  else if cu_eqb c 9 then [92; 116]%N
  else if cu_eqb c 10 then [92; 110]%N
  else if cu_eqb c 12 then [92; 102]%N
  else if cu_eqb c 13 then [92; 114]%N
  else if cu_eqb c 34 then [92; 34]%N
  else if cu_eqb c 92 then [92; 92]%N
  else if (c <? 32)%N then unicode_escape c
  else [c].

Fixpoint quote_units (s : jsstring) : jsstring :=
  match s with
  | [] => []
  | c :: r =>
      if is_lead c then
        match r with
        | d :: r' =>
            if is_trail d then c :: d :: quote_units r'
            else unicode_escape c ++ quote_units r
        | [] => unicode_escape c
        end
      else if is_trail c then unicode_escape c ++ quote_units r
      else quote_unit c ++ quote_units r
  end.

Definition QuoteJSONString (s : jsstring) : jsstring :=
  [34%N] ++ quote_units s ++ [34%N].

(** The properties of a commit that [JSON.stringify] writes: the four
    strings, and the body unless it is [undefined]. *)
Definition commit_members (c : CommitInfo) : list (jsstring * jsstring) :=
  [ (lit "hash", hash c); (lit "date", date c); (lit "author", author c);
    (lit "message", message c) ]
  ++ match body c with
     | Some b => [(lit "body", b)]
     | None => []
     end.

(** A line feed and [n] spaces. *)
Definition newline_indent (n : nat) : jsstring := 10%N :: repeat 32%N n.

(** [JSON.stringify(commits, null, 2)]: one property a line, indented by
    two spaces a level, a colon and a space after the key. *)
Definition stringify_member (kv : jsstring * jsstring) : jsstring :=
  QuoteJSONString (fst kv) ++ lit ": " ++ QuoteJSONString (snd kv).

Definition stringify_commit (c : CommitInfo) : jsstring :=
  lit "{" ++ newline_indent 4
  ++ join (map stringify_member (commit_members c)) (lit "," ++ newline_indent 4)
  ++ newline_indent 2 ++ lit "}".

Definition JSON_stringify_commits (commits : list CommitInfo) : jsstring :=
  match commits with
  | [] => lit "[]"
  | _ :: _ =>
      lit "[" ++ newline_indent 2
      ++ join (map stringify_commit commits) (lit "," ++ newline_indent 2)
      ++ newline_indent 0 ++ lit "]"
  end.

(** The commit as the value that its text denotes. *)
Definition commit_value (c : CommitInfo) : value :=
  VObject (map (fun kv => (fst kv, VString (snd kv))) (commit_members c)).

(** ** Vocabulary of the statements about texts and tokens *)

(** Read between tokens, the text [seg] gives the tokens [toks] and
    leaves the lexer between tokens. *)
Definition lexes (seg : jsstring) (toks : list token) : Prop :=
  forall rest,
    lex LIdle (seg ++ rest) = (ts <-? lex LIdle rest ;; Some (toks ++ ts)).

Definition member_tokens (kv : jsstring * jsstring) : list token :=
  [TString (fst kv); TColon; TString (snd kv)].

(** Token lists with a comma between two of them. *)
Fixpoint comma_separated (groups : list (list token)) : list token :=
  match groups with
  | [] => []
  | [g] => g
  | g :: more => g ++ TComma :: comma_separated more
  end.

Definition commit_tokens (c : CommitInfo) : list token :=
  TLBrace :: comma_separated (map member_tokens (commit_members c))
  ++ [TRBrace].

Definition commits_tokens (commits : list CommitInfo) : list token :=
  TLBracket :: comma_separated (map commit_tokens commits) ++ [TRBracket].

(** A reply in the format the prompt asks for: the four keys, each
    with its items on one line. *)
Definition string_array_text (strings : list jsstring) : jsstring :=
  lit "[" ++ join (map QuoteJSONString strings) (lit ", ") ++ lit "]".

Definition reply_line (c : category) (strings : list jsstring) : jsstring :=
  newline_indent 2 ++ QuoteJSONString (category_key c) ++ lit ": "
  ++ string_array_text strings.

Definition reply_text (f x i o : list jsstring) : jsstring :=
  lit "{"
  ++ (reply_line features f ++ lit "," ++ reply_line fixes x ++ lit ","
      ++ reply_line improvements i ++ lit "," ++ reply_line other o
      ++ newline_indent 0)
  ++ lit "}".

Definition string_array_tokens (strings : list jsstring) : list token :=
  TLBracket :: comma_separated (map (fun s => [TString s]) strings)
  ++ [TRBracket].

Definition reply_line_tokens (c : category) (strings : list jsstring)
  : list token :=
  TString (category_key c) :: TColon :: string_array_tokens strings.

Definition reply_tokens (f x i o : list jsstring) : list token :=
  TLBrace
  :: (reply_line_tokens features f ++ TComma :: reply_line_tokens fixes x
      ++ TComma :: reply_line_tokens improvements i
      ++ TComma :: reply_line_tokens other o)
  ++ [TRBrace].

(** ** src/summarize.ts: summarizeCommits *)

(** What can be thrown at run time: an error of the language or one made
    with [new Error] (above); an error of one of the classes of the
    Anthropic SDK, the two that the program names or another one; or a
    value that is no [Error] at all. *)
Inductive thrown :=
| Plain (e : js_error)
| RateLimitError (message : jsstring)
| AuthenticationError (message : jsstring)
| APIError (message : jsstring)
| NotAnError (v : value).

(** A promise that has settled. *)
Inductive settled (A : Type) :=
| Fulfilled (a : A)
| Rejected (t : thrown).
Arguments Fulfilled {A} a.
Arguments Rejected {A} t.

Definition settle {A} (r : result A) : settled A :=
  match r with
  | Ok a => Fulfilled a
  | Throw e => Rejected (Plain e)
  end.

(** The content blocks of a reply: a text block, or a block of another
    type of the union, which has no [text]. *)
Inductive ContentBlock :=
| TextBlock (text : jsstring)
| OtherBlock (type : jsstring).

Definition block_type (b : ContentBlock) : jsstring :=
  match b with
  | TextBlock _ => lit "text"
  | OtherBlock type => type
  end.

Record MessageParam := mkMessageParam {
  role : jsstring;
  content : jsstring
}.

Record MessageCreateParams := mkMessageCreateParams {
  model : jsstring;
  max_tokens : Z;
  messages : list MessageParam
}.

Definition missing_key : js_error :=
  Error (lit "Missing ANTHROPIC_API_KEY environment variable." ++ [10%N]
         ++ lit "Please set it in your .env file or export it in your shell:"
         ++ [10%N]
         ++ lit "  export ANTHROPIC_API_KEY=your-api-key-here").

Definition unexpected_type : js_error :=
  Error (lit "Unexpected response type from Claude API").

Definition rate_limited : js_error :=
  Error (lit "Claude API rate limit exceeded. Please wait a moment and try again.").

Definition invalid_key : js_error :=
  Error (lit "Invalid ANTHROPIC_API_KEY. Please check your API key and try again.").

(** [!process.env.ANTHROPIC_API_KEY]: the variable is unset or empty. *)
Definition key_missing (key : option jsstring) : bool :=
  match key with
  | None => true
  | Some k => negb (truthy_string k)
  end.

(** The lines of the template literal, with the two interpolated
    strings. *)
Definition prompt_text (audienceGuidance stringified : jsstring) : jsstring :=
  join
    [ lit "You are a technical writer who translates git commits into plain English for non-technical teams.";
      [];
      lit "Given these git commits, create a summary with these sections:";
      lit "- features: New Features (things users can now do)";
      lit "- fixes: Bug Fixes (problems that were solved)";
      lit "- improvements: Improvements (things that work better)";
      lit "- other: Other Changes (internal/technical updates)";
      [];
      lit "Rules:";
      lit "- Write for someone who doesn't code";
      lit "- Focus on user/business impact, not technical details";
      lit "- Keep each item to 1-2 sentences";
      lit "- Skip merge commits and version bumps";
      lit "- If a commit is unclear, summarize what you can infer";
      lit "- " ++ audienceGuidance;
      [];
      lit "Respond ONLY with valid JSON in this exact format:";
      lit "{";
      dq "  'features': ['item 1', 'item 2'],";
      dq "  'fixes': ['item 1'],";
      dq "  'improvements': ['item 1'],";
      dq "  'other': ['item 1']";
      lit "}";
      [];
      lit "If a category has no items, use an empty array.";
      [];
      lit "Commits:";
      stringified ]
    [10%N].

(** The [catch] of [summarizeCommits]: the two classes it names are
    replaced by an [Error] with a message of its own, anything else is
    thrown again as it is. *)
Definition translate {A} (p : settled A) : settled A :=
  match p with
  | Rejected (RateLimitError _) => Rejected (Plain rate_limited)
  | Rejected (AuthenticationError _) => Rejected (Plain invalid_key)
  | _ => p
  end.

Section Service.

(** The environment variable; the service, asked with the key the client
    was made with; and the string that the engine makes of a value that
    is no string (a built-in function, the prototype object). *)
Variable apiKey : option jsstring.
Variable create : jsstring -> MessageCreateParams -> settled (list ContentBlock).
Variable host_text : value -> jsstring.

(** A value in a template literal. *)
Definition ToString (v : value) : jsstring :=
  match v with
  | VString s => s
  | _ => host_text v
  end.

Definition prompt (commits : list CommitInfo) (guidance : value) : jsstring :=
  prompt_text (ToString guidance) (JSON_stringify_commits commits).

Definition request (commits : list CommitInfo) (guidance : value)
  : MessageCreateParams :=
  mkMessageCreateParams (lit "claude-sonnet-4-20250514") 2048
    [mkMessageParam (lit "user") (prompt commits guidance)].

(** The body of the [try]: [content] is [undefined] when the reply has no
    block, and reading [content.type] is then a TypeError; a block that
    calls itself text without a [text] makes [text.match] one. *)
Definition read_reply (blocks : list ContentBlock)
  : settled (list DigestSection) :=
  match blocks with
  | [] => Rejected (Plain TypeError)
  | content :: _ =>
      if negb (jsstring_eqb (block_type content) (lit "text")) then
        Rejected (Plain unexpected_type)
      else
        match content with
        | TextBlock text => settle (parseClaudeResponse text)
        | OtherBlock _ => Rejected (Plain TypeError)
        end
  end.

Definition summarizeCommits (commits : list CommitInfo)
    (audience : option jsstring) : settled (list DigestSection) :=
  match apiKey with
  | None => Rejected (Plain missing_key)
  | Some key =>
      if negb (truthy_string key) then Rejected (Plain missing_key)
      else
        match audienceGuidance audience with
        | Throw e => Rejected (Plain e)
        | Ok guidance =>
            translate
              match create key (request commits guidance) with
              | Rejected t => Rejected t
              | Fulfilled blocks => read_reply blocks
              end
        end
  end.

End Service.

(** ** src/index.ts: run and the action of the command *)

Record CLIOptions := mkCLIOptions {
  since : jsstring;
  repo : jsstring;
  format : jsstring;
  output : option jsstring;
  audience : jsstring
}.

Inductive style := red | dim | yellow | green.

(** What the program does that can be seen from outside, in order. *)
Inductive event :=
| console_error (args : list jsstring)
| console_log (args : list jsstring)
| ora_start (text : jsstring)
| ora_succeed (text : jsstring)
| ora_fail (text : jsstring)
| writeFileSync (file data : jsstring).

(** How [run] ends: it returns, it ends the process, or it throws. *)
Inductive completion :=
| Returns
| Exits (code : Z)
| Throws (t : thrown).

(** [String(n)] for a length. *)
Definition Number_toString (n : nat) : jsstring :=
  lit (NilZero.string_of_uint (Nat.to_uint n)).

(** [error instanceof Error] *)
Definition instanceof_Error (t : thrown) : bool :=
  match t with
  | NotAnError _ => false
  | _ => true
  end.

Section Program.

(** The machine and the libraries: [path.resolve], the styles of chalk,
    the environment variable, simple-git, the engine's [Date.parse], the
    clock and the engine's bound on the arguments of a call, the service,
    the engine's strings of values and messages of the errors it raises
    itself, the two formatters of [src/formatter.ts], and the file system,
    which refuses a write with an error or accepts it. *)
Variable path_resolve : jsstring -> jsstring.
Variable chalk : style -> jsstring -> jsstring.
Variable apiKey : option jsstring.
Variable simpleGit : jsstring -> result SimpleGit.
Variable host_parse : jsstring -> number.
Variable now : Z.
Variable spare_arguments : nat.
Variable create : jsstring -> MessageCreateParams -> settled (list ContentBlock).
Variable host_text : value -> jsstring.
Variable host_message : js_error -> jsstring.
Variable formatMarkdown formatHTML :
  list DigestSection -> DateRange -> settled jsstring.
Variable write_refused : jsstring -> jsstring -> option thrown.

Definition error_message (t : thrown) : jsstring :=
  match t with
  | Plain (Error message) => message
  | Plain e => host_message e
  | RateLimitError message => message
  | AuthenticationError message => message
  | APIError message => message
  | NotAnError _ => []
  end.

Definition fetching (outcome : event) : list event :=
  [ora_start (lit "Fetching commits..."); outcome].

Definition summarizing (outcome : event) : list event :=
  [ora_start (lit "Summarizing with Claude AI..."); outcome].

Definition period (dateRange : DateRange) : event :=
  console_log
    [chalk dim (lit "Period: " ++ range_start dateRange ++ [32%N; 8594%N; 32%N]
                ++ range_end dateRange)].

Definition run (options : CLIOptions) : list event * completion :=
  let repoPath := path_resolve (repo options) in
  if key_missing apiKey then
    ([ console_error [chalk red (lit "Error:"); lit "Missing ANTHROPIC_API_KEY"];
       console_error [chalk dim (lit "Set it in your .env file or export it:")];
       console_error
         [chalk dim (lit "  export ANTHROPIC_API_KEY=your-api-key-here")] ],
     Exits 1)
  else
    match getCommits simpleGit repoPath (since options) with
    | Throw e => (fetching (ora_fail (lit "Failed to fetch commits")),
                  Throws (Plain e))
    | Ok commits =>
        let fetched :=
          fetching (ora_succeed (lit "Found " ++ Number_toString (length commits)
                                 ++ lit " commits")) in
        if length commits =? 0 then
          (fetched
           ++ [ console_log [chalk yellow (lit "No commits found in this period.")];
                console_log
                  [chalk dim (dq "Try a longer range: --since '1 month ago'")] ],
           Returns)
        else
          match getDateRange host_parse now spare_arguments commits with
          | Throw e => (fetched, Throws (Plain e))
          | Ok dateRange =>
              match summarizeCommits apiKey create host_text commits
                      (Some (audience options)) with
              | Rejected t =>
                  (fetched ++ period dateRange
                   :: summarizing (ora_fail (lit "Failed to generate summary")),
                   Throws t)
              | Fulfilled sections =>
                  let summarized :=
                    fetched ++ period dateRange
                    :: summarizing (ora_succeed (lit "Summary generated")) in
                  match (if jsstring_eqb (format options) (lit "html")
                         then formatHTML sections dateRange
                         else formatMarkdown sections dateRange) with
                  | Rejected t => (summarized, Throws t)
                  | Fulfilled text =>
                      match output options with
                      | Some ((_ :: _) as file) =>
                          let outputPath := path_resolve file in
                          match write_refused outputPath text with
                          | Some t => (summarized, Throws t)
                          | None =>
                              (summarized
                               ++ [ writeFileSync outputPath text;
                                    console_log
                                      [chalk green [10003%N];
                                       lit "Saved to " ++ outputPath] ],
                               Returns)
                          end
                      | _ =>
                          (summarized ++ [console_log [[]]; console_log [text]],
                           Returns)
                      end
                  end
              end
          end
    end.

(** How the process ends: on its own, with status 0, or by
    [process.exit]. *)
Inductive ending :=
| Finished
| Exited (code : Z).

(** The action of the command: [run], and whatever it throws reported
    on the error stream before the process exits with status 1. *)
Definition action (options : CLIOptions) : list event * ending :=
  match run options with
  | (events, Returns) => (events, Finished)
  | (events, Exits code) => (events, Exited code)
  | (events, Throws t) =>
      (events
       ++ [ if instanceof_Error t then
              console_error [chalk red (lit "Error:"); error_message t]
            else console_error [chalk red (lit "An unexpected error occurred")] ],
       Exited 1)
  end.

End Program.

(** ** Vocabulary of the statements about the program *)

(** The four sections with lists of strings for items. *)
Definition reply_sections (f x i o : list jsstring) : list DigestSection :=
  [ mkDigestSection features (VArray (map VString f));
    mkDigestSection fixes (VArray (map VString x));
    mkDigestSection improvements (VArray (map VString i));
    mkDigestSection other (VArray (map VString o)) ].

(** A machine for the examples: a terminal without colours, a key, a
    service with a fixed answer, a formatter that writes a title and the
    period, a file system that accepts every write. *)
Definition plain : style -> jsstring -> jsstring := fun _ s => s.

Definition sample_key : option jsstring := Some (lit "sk-ant-test").

Definition answering (blocks : list ContentBlock)
  : jsstring -> MessageCreateParams -> settled (list ContentBlock) :=
  fun _ _ => Fulfilled blocks.

Definition rejecting (t : thrown)
  : jsstring -> MessageCreateParams -> settled (list ContentBlock) :=
  fun _ _ => Rejected t.

Definition sample_reply : jsstring :=
  (lit "Here is the summary:" ++ [10%N])
  ++ reply_text [lit "You can now export to CSV."] [lit "Login works again."]
       [] []
  ++ [10%N] ++ lit "Let me know if you need changes.".

Definition sample_options : CLIOptions :=
  mkCLIOptions (lit "7 days ago") (lit ".") (lit "markdown") None
    (lit "general").

Definition titled (title : string)
  : list DigestSection -> DateRange -> settled jsstring :=
  fun _ r =>
    Fulfilled (lit title ++ range_start r ++ lit " to " ++ range_end r).

Definition every_write_accepted : jsstring -> jsstring -> option thrown :=
  fun _ _ => None.

(** The program on the sample machine, with the service left open. *)
Definition sample_action
    (create : jsstring -> MessageCreateParams -> settled (list ContentBlock))
    (options : CLIOptions) : list event * ending :=
  action (fun p => p) plain sample_key (repo_with_log (git_log git_entries))
    strict_host 0 node_spare create (fun _ => []) (fun _ => [])
    (titled "# Changes ") (titled "<h1>Changes</h1> ") every_write_accepted
    options.

(** ** Vocabulary of the statements about dates written and read *)

(** A date as [git log] writes it for [%aI]: strict ISO 8601 with the
    author's offset from UTC. *)
Definition git_date (y mo d h mi s : Z) (west : bool) (oh om : Z) : jsstring :=
  pad 4 y ++ lit "-" ++ pad 2 mo ++ lit "-" ++ pad 2 d ++ lit "T"
  ++ pad 2 h ++ lit ":" ++ pad 2 mi ++ lit ":" ++ pad 2 s
  ++ (if west then lit "-" else lit "+") ++ pad 2 oh ++ lit ":" ++ pad 2 om.

Definition git_date_ok (y mo d h mi s oh om : Z) : bool :=
  ((0 <=? y) && (y <=? 9999) && valid_date y mo d
   && (0 <=? h) && (h <=? 23) && (0 <=? mi) && (mi <=? 59)
   && (0 <=? s) && (s <=? 59)
   && (0 <=? oh) && (oh <=? 23) && (0 <=? om) && (om <=? 59))%Z.

(** The instant it denotes. *)
Definition git_instant (y mo d h mi s : Z) (west : bool) (oh om : Z) : Z :=
  (days_from_civil y mo d * msPerDay
   + ((h * 60 + mi - (if west then -1 else 1) * (oh * 60 + om)) * 60 + s)
     * 1000)%Z.

(** The commit carries a date that git wrote. *)
Definition git_dated (c : CommitInfo) : Prop :=
  exists y mo d h mi s west oh om,
    git_date_ok y mo d h mi s oh om = true
    /\ date c = git_date y mo d h mi s west oh om.

(** * Properties *)

(** ** Facts about the string primitives *)

Example split_commas :
  split (lit "a,b,,c,") (lit ",") = [lit "a"; lit "b"; []; lit "c"; []].
Proof. reflexivity. Qed.

Example split_overlapping :
  split (lit "aaa") (lit "aa") = [[]; lit "a"].
Proof. reflexivity. Qed.

Example split_empty_subject : split [] (lit ",") = [[]].
Proof. reflexivity. Qed.

Example split_empty_separator :
  split (lit "abc") [] = [lit "a"; lit "b"; lit "c"].
Proof. reflexivity. Qed.

Example trim_both_ends :
  trim ([10; 32] ++ lit "Fix login  redirect" ++ [9; 160; 13])%N
  = lit "Fix login  redirect".
Proof. reflexivity. Qed.

Section StringFacts.

Lemma cu_eqb_eq a b : cu_eqb a b = true <-> a = b.
Proof. apply N.eqb_eq. Qed.

Lemma cu_eqb_sym_false a b : negb (cu_eqb a b) = true -> cu_eqb b a = false.
Proof.
  unfold cu_eqb. rewrite negb_true_iff, !N.eqb_neq. congruence.
Qed.

Lemma jsstring_eqb_eq a b : jsstring_eqb a b = true <-> a = b.
Proof.
  revert b. induction a as [|x a IH]; intros [|y b]; cbn;
    try (split; [discriminate|congruence]); [tauto|].
  rewrite andb_true_iff, cu_eqb_eq, IH. split; [intros [-> ->]|intros [= -> ->]]; auto.
Qed.

Lemma jsstring_eqb_sym a b : jsstring_eqb a b = jsstring_eqb b a.
Proof.
  revert b. induction a as [|x a IH]; intros [|y b]; cbn; try reflexivity.
  rewrite IH. unfold cu_eqb. now rewrite N.eqb_sym.
Qed.

Lemma starts_with_app R q : starts_with R (R ++ q) = true.
Proof.
  induction R as [|r R IH]; simpl; [reflexivity|].
  unfold cu_eqb. now rewrite N.eqb_refl.
Qed.

Lemma starts_with_inv R S :
  starts_with R S = true -> exists q, S = R ++ q.
Proof.
  revert S. induction R as [|r R IH]; intros S H; simpl in *.
  - now exists S.
  - destruct S as [|c S]; [discriminate|].
    apply andb_prop in H. destruct H as [Hc HS].
    apply cu_eqb_eq in Hc. subst c.
    destruct (IH _ HS) as [q ->]. now exists q.
Qed.

(** Only the first [length R] code units of the subject matter. *)
Lemma starts_with_long R A B :
  length R <= length A -> starts_with R (A ++ B) = starts_with R A.
Proof.
  revert A. induction R as [|r R IH]; intros A H; simpl; [reflexivity|].
  destruct A as [|a A]; simpl in *; [lia|].
  rewrite IH by lia. reflexivity.
Qed.

Lemma string_index_of_eq S R :
  string_index_of S R =
  if starts_with R S then Some 0
  else match S with
       | [] => None
       | _ :: S' => option_map Datatypes.S (string_index_of S' R)
       end.
Proof. destruct S; reflexivity. Qed.

Lemma string_index_of_nil R :
  R <> [] -> string_index_of [] R = None.
Proof. destruct R; [congruence|reflexivity]. Qed.

Lemma string_index_of_Some S R j :
  string_index_of S R = Some j ->
  S = firstn j S ++ R ++ skipn (j + length R) S.
Proof.
  revert j. induction S as [|c S IH]; intros j H.
  - simpl in H. destruct (starts_with R []) eqn:E; [|discriminate].
    injection H as <-. destruct R; [reflexivity|discriminate].
  - simpl in H. destruct (starts_with R (c :: S)) eqn:E.
    + injection H as <-. apply starts_with_inv in E. destruct E as [q E].
      simpl firstn. simpl "+". rewrite E at 2.
      rewrite skipn_app, Nat.sub_diag, skipn_all. simpl. exact E.
    + destruct (string_index_of S R) as [k|] eqn:K; [|discriminate].
      injection H as <-. simpl. f_equal. now apply IH.
Qed.

Lemma string_index_of_bound S R j :
  string_index_of S R = Some j -> j + length R <= length S.
Proof.
  revert j. induction S as [|c S IH]; intros j H; simpl in H.
  - destruct R; [|discriminate]. injection H as <-. simpl. lia.
  - destruct (starts_with R (c :: S)) eqn:E.
    + injection H as <-. apply starts_with_inv in E. destruct E as [q E].
      rewrite E, length_app. simpl. lia.
    + destruct (string_index_of S R) as [k|]; [|discriminate].
      injection H as <-. specialize (IH k eq_refl). simpl. lia.
Qed.

(** [includes] is the substring relation. *)
Lemma includes_true S R :
  includes S R = true <-> exists p q, S = p ++ R ++ q.
Proof.
  unfold includes. split.
  - destruct (string_index_of S R) as [j|] eqn:E; [|discriminate].
    intros _. apply string_index_of_Some in E. eauto.
  - intros (p & q & ->). induction p as [|c p IH]; simpl.
    + now rewrite string_index_of_eq, starts_with_app.
    + destruct (starts_with R (c :: p ++ R ++ q)); [reflexivity|].
      destruct (string_index_of (p ++ R ++ q) R); [reflexivity|discriminate].
Qed.

Lemma includes_false_index S R :
  includes S R = false -> string_index_of S R = None.
Proof. unfold includes. now destruct (string_index_of S R). Qed.

(** When the separator starts nowhere inside [p], not even straddling the
    end of [p], the first occurrence in [p ++ R ++ q] is the one written. *)
Lemma string_index_of_first p R q :
  R <> [] ->
  includes (p ++ removelast R) R = false ->
  string_index_of (p ++ R ++ q) R = Some (length p).
Proof.
  intros HR. induction p as [|c p IH]; intros H.
  - simpl app. now rewrite string_index_of_eq, starts_with_app.
  - apply includes_false_index in H. simpl app in H. simpl in H.
    destruct (starts_with R (c :: p ++ removelast R)) eqn:E; [discriminate|].
    destruct (string_index_of (p ++ removelast R) R) eqn:K; [discriminate|].
    simpl app. simpl.
    replace (c :: p ++ R ++ q)
      with ((c :: p ++ removelast R) ++ [last R 0%N] ++ q).
    2:{ simpl. f_equal. rewrite <- app_assoc. f_equal.
        rewrite (app_removelast_last 0%N HR) at 3.
        now rewrite <- app_assoc. }
    rewrite starts_with_long, E.
    2:{ simpl. rewrite length_app.
        assert (length R = length (removelast R) + 1).
        { rewrite (app_removelast_last 0%N HR) at 1.
          now rewrite length_app. }
        lia. }
    replace ((c :: p ++ removelast R) ++ [last R 0%N] ++ q)
      with (c :: p ++ R ++ q).
    2:{ simpl. f_equal. rewrite <- app_assoc. f_equal.
        rewrite (app_removelast_last 0%N HR) at 1.
        now rewrite <- app_assoc. }
    rewrite IH; [reflexivity|]. unfold includes. now rewrite K.
Qed.

(** The loop of [split] never runs short of rounds. *)
Lemma split_loop_fuel R : R <> [] ->
  forall fuel fuel' S, length S <= fuel -> length S <= fuel' ->
  split_loop fuel R S = split_loop fuel' R S.
Proof.
  intros HR. induction fuel as [|fuel IH]; intros fuel' S H H'.
  - destruct S; [|simpl in H; lia].
    destruct fuel'; cbn [split_loop]; [reflexivity|].
    now rewrite string_index_of_nil.
  - destruct fuel' as [|fuel'].
    + destruct S; [|simpl in H'; lia].
      cbn [split_loop]. now rewrite string_index_of_nil.
    + cbn [split_loop].
      destruct (string_index_of S R) as [j|] eqn:E; [|reflexivity].
      f_equal. pose proof (string_index_of_bound _ _ _ E) as B.
      assert (0 < length R) by (destruct R; [congruence|simpl; lia]).
      apply IH; rewrite length_skipn; lia.
Qed.

Lemma split_as_loop S R fuel :
  R <> [] -> length S <= fuel -> split S R = split_loop fuel R S.
Proof.
  intros HR H. destruct R as [|r R]; [congruence|].
  destruct S as [|c S].
  - destruct fuel; cbn [split split_loop]; [reflexivity|].
    now rewrite string_index_of_nil.
  - unfold split. now apply split_loop_fuel.
Qed.

Lemma split_unfold S R : R <> [] ->
  split S R =
  match string_index_of S R with
  | None => [S]
  | Some j => firstn j S :: split (skipn (j + length R) S) R
  end.
Proof.
  intros HR.
  rewrite (split_as_loop S R (Datatypes.S (length S))) by (auto || lia).
  cbn [split_loop].
  destruct (string_index_of S R) as [j|] eqn:E; [|reflexivity].
  f_equal. symmetry. apply split_as_loop; [exact HR|].
  rewrite length_skipn. lia.
Qed.

Lemma split_no_separator S R :
  R <> [] -> includes S R = false -> split S R = [S].
Proof.
  intros HR H. rewrite split_unfold by exact HR.
  now rewrite includes_false_index.
Qed.

Lemma split_first p R q :
  R <> [] -> includes (p ++ removelast R) R = false ->
  split (p ++ R ++ q) R = p :: split q R.
Proof.
  intros HR H. rewrite split_unfold by exact HR.
  rewrite string_index_of_first by assumption.
  rewrite firstn_app, Nat.sub_diag, firstn_all. simpl firstn.
  rewrite app_nil_r. f_equal. f_equal.
  rewrite app_assoc, skipn_app, length_app, Nat.sub_diag.
  rewrite skipn_all2 by (rewrite length_app; lia). reflexivity.
Qed.

Lemma split_not_nil S R : R <> [] -> split S R <> [].
Proof.
  intros HR. rewrite split_unfold by exact HR.
  now destruct (string_index_of S R).
Qed.

Lemma join_cons p ps sep :
  ps <> [] -> join (p :: ps) sep = p ++ sep ++ join ps sep.
Proof. destruct ps; [congruence|reflexivity]. Qed.

Lemma join_split_loop R : R <> [] ->
  forall fuel S, join (split_loop fuel R S) R = S.
Proof.
  intros HR. induction fuel as [|fuel IH]; intros S; [reflexivity|].
  cbn [split_loop]. destruct (string_index_of S R) as [j|] eqn:E;
    [|reflexivity].
  rewrite join_cons; [rewrite IH|].
  - symmetry. now apply string_index_of_Some.
  - destruct fuel; cbn [split_loop]; [easy|].
    destruct (string_index_of (skipn (j + length R) S) R); easy.
Qed.

(** Joining what [split] returned, with the same separator, gives the
    subject back: no code unit is lost, whatever the separator. *)
Lemma join_split S R : join (split S R) R = S.
Proof.
  destruct R as [|r R].
  - unfold split. induction S as [|c S IH]; [reflexivity|].
    cbn [map]. destruct S as [|c' S]; [reflexivity|].
    rewrite join_cons by easy. rewrite IH. reflexivity.
  - destruct S as [|c S]; [reflexivity|].
    unfold split. now apply join_split_loop.
Qed.

(** *** trim *)

Lemma trimStart_nil s : trimStart s = [] <-> blank s = true.
Proof.
  induction s as [|c s IH]; simpl; [tauto|].
  destruct (is_ws c); simpl; [exact IH|]. split; discriminate.
Qed.

Lemma trimStart_leading s : leading_ws (trimStart s) = false.
Proof.
  induction s as [|c s IH]; simpl; [reflexivity|].
  destruct (is_ws c) eqn:E; [exact IH|]. simpl. exact E.
Qed.

(** [trimStart] removes a whitespace prefix and nothing else. *)
Lemma trimStart_split s :
  exists w, s = w ++ trimStart s /\ blank w = true.
Proof.
  induction s as [|c s (w & Hs & Hw)]; simpl.
  - now exists [].
  - destruct (is_ws c) eqn:E.
    + exists (c :: w). simpl. rewrite E, Hw. split; [now f_equal|reflexivity].
    + now exists [].
Qed.

Lemma blank_rev s : blank (rev s) = blank s.
Proof.
  unfold blank. induction s as [|c s IH]; simpl; [reflexivity|].
  rewrite forallb_app, IH. simpl. rewrite andb_true_r. apply andb_comm.
Qed.

Lemma blank_app a b : blank (a ++ b) = blank a && blank b.
Proof. apply forallb_app. Qed.

(** [trim] removes whitespace at both ends and nothing else. *)
Lemma trim_split s :
  exists w1 w2, s = w1 ++ trim s ++ w2 /\ blank w1 = true /\ blank w2 = true.
Proof.
  destruct (trimStart_split s) as (w1 & H1 & B1).
  destruct (trimStart_split (rev (trimStart s))) as (w2 & H2 & B2).
  exists w1, (rev w2). rewrite blank_rev. repeat split; try assumption.
  rewrite H1 at 1. f_equal. unfold trim, trimEnd.
  rewrite <- rev_app_distr, <- H2. now rewrite rev_involutive.
Qed.

Lemma trim_nil s : trim s = [] <-> blank s = true.
Proof.
  split.
  - intros H. destruct (trim_split s) as (w1 & w2 & Hs & B1 & B2).
    rewrite Hs, H, !blank_app, B1, B2. reflexivity.
  - intros H. apply trimStart_nil in H. unfold trim, trimEnd.
    now rewrite H.
Qed.

Lemma truthy_trim s : truthy_string (trim s) = negb (blank s).
Proof.
  destruct (blank s) eqn:B.
  - apply trim_nil in B. now rewrite B.
  - destruct (trim s) eqn:T; [|reflexivity].
    apply trim_nil in T. congruence.
Qed.

Lemma trim_is_trimmed s : is_trimmed (trim s) = true.
Proof.
  unfold is_trimmed. apply andb_true_intro. split; apply negb_true_iff.
  - destruct (trimStart_split (rev (trimStart s))) as (w & H & B).
    unfold trim, trimEnd.
    destruct (trimStart (rev (trimStart s))) as [|c t] eqn:T; [reflexivity|].
    apply (f_equal (@rev _)) in H. rewrite rev_involutive in H.
    rewrite rev_app_distr in H.
    pose proof (trimStart_leading s) as L. rewrite H in L.
    destruct (rev (c :: t)) eqn:R; [|exact L].
    apply (f_equal (@length _)) in R. rewrite length_rev in R. discriminate.
  - unfold trim, trimEnd. rewrite rev_involutive. apply trimStart_leading.
Qed.

Lemma or_undefined_trim_ok s : body_ok (or_undefined (trim s)).
Proof.
  unfold or_undefined. destruct (trim s) eqn:T; simpl; [exact I|].
  split; [discriminate|]. rewrite <- T. apply trim_is_trimmed.
Qed.

End StringFacts.

(** ** parseGitLog *)

Section ParseGitLog.

Variable fs : jsstring.
Hypothesis fs_not_empty : fs <> [].

Lemma includes_prefix a b R : includes (a ++ b) R = false -> includes a R = false.
Proof.
  intros H. destruct (includes a R) eqn:E; [|reflexivity].
  apply includes_true in E. destruct E as (p & q & ->).
  assert (includes ((p ++ R ++ q) ++ b) R = true) as E.
  { apply includes_true. exists p, (q ++ b). now rewrite <- !app_assoc. }
  congruence.
Qed.

Lemma sep_free_first sep p q :
  sep <> [] -> sep_free sep p = true ->
  split (p ++ sep ++ q) sep = p :: split q sep.
Proof.
  intros Hs H. apply split_first; [exact Hs|].
  now apply negb_true_iff.
Qed.

Lemma sep_free_alone sep p :
  sep <> [] -> sep_free sep p = true -> split p sep = [p].
Proof.
  intros Hs H. apply split_no_separator; [exact Hs|].
  apply negb_true_iff in H. now apply includes_prefix in H.
Qed.

(** The parts of a well-formed entry: its four fields, then parts that
    join back into the remainder. *)
Lemma split_entry e :
  sep_free fs (e_hash e) = true -> sep_free fs (e_date e) = true ->
  sep_free fs (e_author e) = true -> sep_free fs (e_subject e) = true ->
  exists bodyParts,
    split (render_entry fs e) fs
    = e_hash e :: e_date e :: e_author e :: e_subject e :: bodyParts
    /\ join bodyParts fs = join (e_rest e) fs.
Proof.
  intros Hh Hd Ha Hm. unfold render_entry, entry_fields.
  rewrite !join_cons by easy.
  rewrite !sep_free_first by assumption.
  destruct (e_rest e) as [|b rest].
  - exists []. cbn [join]. now rewrite sep_free_alone.
  - exists (split (join (b :: rest) fs) fs).
    rewrite join_cons by easy. rewrite sep_free_first by assumption.
    split; [reflexivity|apply join_split].
Qed.

Lemma parse_chunk_entry commits e :
  sep_free fs (e_hash e) = true -> sep_free fs (e_date e) = true ->
  sep_free fs (e_author e) = true -> sep_free fs (e_subject e) = true ->
  parse_chunk fs commits (render_entry fs e)
  = Ok (commits ++ [commit_of_entry fs e]).
Proof.
  intros Hh Hd Ha Hm.
  destruct (split_entry e Hh Hd Ha Hm) as (bodyParts & Hs & Hj).
  unfold parse_chunk. rewrite Hs. cbn. rewrite Hj. reflexivity.
Qed.

(** What one round of the loop does, whatever the chunk. *)
Lemma parse_chunk_cases commits c :
  (length (split c fs) < 4 /\ parse_chunk fs commits c = Ok commits)
  \/ (4 <= length (split c fs)
      /\ exists r, parse_chunk fs commits c = Ok (commits ++ [r])).
Proof.
  unfold parse_chunk.
  destruct (split c fs) as [|h [|d [|a [|m bodyParts]]]] eqn:E; cbn;
    try (left; split; [lia|reflexivity]).
  right. split; [lia|]. eexists. reflexivity.
Qed.

Lemma for_of_app {A St} (round : St -> A -> result St) xs ys st :
  for_of round (xs ++ ys) st = (st' <- for_of round xs st ;; for_of round ys st').
Proof.
  revert st. induction xs as [|x xs IH]; intros st; cbn; [reflexivity|].
  destruct (round st x); cbn; [apply IH|reflexivity].
Qed.

(** The loop never throws, and it appends one record for each chunk of
    four parts or more. *)
Lemma for_of_parse_chunk chunks commits :
  exists added,
    for_of (parse_chunk fs) chunks commits = Ok (commits ++ added)
    /\ length added
       = length (filter (fun c => 4 <=? length (split c fs)) chunks).
Proof.
  revert commits. induction chunks as [|c chunks IH]; intros commits.
  - exists []. cbn. now rewrite app_nil_r.
  - cbn [for_of filter].
    destruct (parse_chunk_cases commits c) as [[L ->]|[L [r ->]]]; cbn [bind].
    + destruct (IH commits) as (added & -> & Hl). exists added.
      split; [reflexivity|].
      destruct (Nat.leb_spec 4 (length (split c fs))); [lia|exact Hl].
    + destruct (IH (commits ++ [r])) as (added & -> & Hl).
      exists (r :: added). rewrite <- app_assoc. split; [reflexivity|].
      destruct (Nat.leb_spec 4 (length (split c fs))); [|lia].
      cbn. now rewrite Hl.
Qed.

Lemma for_of_entries cs es commits :
  forallb (entry_ok cs fs) es = true ->
  for_of (parse_chunk fs) (map (render_entry fs) es) commits
  = Ok (commits ++ map (commit_of_entry fs) es).
Proof.
  revert commits. induction es as [|e es IH]; intros commits H;
    cbn [map for_of].
  - now rewrite app_nil_r.
  - cbn [forallb] in H. apply andb_prop in H. destruct H as [He Hes].
    unfold entry_ok in He. repeat (apply andb_prop in He; destruct He as [He ?]).
    rewrite parse_chunk_entry by assumption. cbn [bind].
    rewrite IH by assumption. now rewrite <- app_assoc.
Qed.

End ParseGitLog.

(** *** The blob as a whole *)

Section Blob.

Variables cs fs : jsstring.
Hypothesis cs_not_empty : cs <> [].
Hypothesis fs_not_empty : fs <> [].

Lemma includes_short S R : length S < length R -> includes S R = false.
Proof.
  intros H. destruct (includes S R) eqn:E; [|reflexivity].
  apply includes_true in E. destruct E as (p & q & ->).
  rewrite !length_app in H. lia.
Qed.

Lemma sep_free_nil : sep_free cs [] = true.
Proof.
  unfold sep_free. apply negb_true_iff, includes_short. cbn [app].
  assert (length cs = length (removelast cs) + 1) as E.
  { rewrite (app_removelast_last 0%N cs_not_empty) at 1.
    now rewrite length_app. }
  lia.
Qed.

Lemma split_nil : split [] cs = [[]].
Proof. destruct cs; [congruence|reflexivity]. Qed.

Lemma split_join_chunks chunks :
  chunks <> [] -> forallb (sep_free cs) chunks = true ->
  split (join chunks cs) cs = chunks.
Proof.
  induction chunks as [|c chunks IH]; [congruence|]. intros _ H.
  cbn [forallb] in H. apply andb_prop in H. destruct H as [Hc H].
  destruct chunks as [|c' chunks].
  - now apply sep_free_alone.
  - rewrite join_cons by easy. rewrite sep_free_first by assumption.
    f_equal. now apply IH.
Qed.

Lemma split_separator_alone : split cs cs = [[]; []].
Proof.
  rewrite <- (app_nil_r cs) at 1. change (cs ++ []) with ([] ++ cs ++ []).
  rewrite sep_free_first by (auto using sep_free_nil).
  now rewrite split_nil.
Qed.

Lemma split_join_chunks_trailing chunks :
  chunks <> [] -> forallb (sep_free cs) chunks = true ->
  split (join chunks cs ++ cs) cs = chunks ++ [[]].
Proof.
  induction chunks as [|c chunks IH]; [congruence|]. intros _ H.
  cbn [forallb] in H. apply andb_prop in H. destruct H as [Hc H].
  destruct chunks as [|c' chunks].
  - cbn [join app]. rewrite <- (app_nil_r cs) at 1.
    rewrite sep_free_first by assumption. now rewrite split_nil.
  - rewrite join_cons by easy. rewrite <- !app_assoc.
    rewrite sep_free_first by assumption.
    cbn [app]. f_equal. now apply IH.
Qed.

Lemma filter_kept (chunks : list jsstring) :
  forallb (fun c => negb (blank c)) chunks = true ->
  filter (fun c => truthy_string (trim c)) chunks = chunks.
Proof.
  induction chunks as [|c chunks IH]; intros H; cbn; [reflexivity|].
  cbn in H. apply andb_prop in H. destruct H as [Hc H].
  rewrite truthy_trim, Hc. f_equal. now apply IH.
Qed.

Lemma entry_ok_chunks es :
  forallb (entry_ok cs fs) es = true ->
  forallb (sep_free cs) (map (render_entry fs) es) = true
  /\ forallb (fun c => negb (blank c)) (map (render_entry fs) es) = true.
Proof.
  induction es as [|e es IH]; intros H; [auto|].
  cbn [map forallb] in *. apply andb_prop in H. destruct H as [He H].
  destruct (IH H) as [Hs Hb]. unfold entry_ok in He.
  apply andb_prop in He. destruct He as [He Hnb].
  apply andb_prop in He. destruct He as [_ Hsf].
  rewrite Hs, Hb, Hnb, Hsf. auto.
Qed.

(** The chunks that survive the whitespace filter are the entries, with
    or without the separator at the end. *)
Lemma kept_chunks es trailing :
  forallb (entry_ok cs fs) es = true ->
  filter (fun c => truthy_string (trim c))
    (split (render_log cs fs es trailing) cs)
  = map (render_entry fs) es.
Proof.
  intros H. destruct (entry_ok_chunks es H) as [Hs Hb].
  unfold render_log. destruct es as [|e es].
  - cbn [map join app]. destruct trailing.
    + now rewrite split_separator_alone.
    + now rewrite split_nil.
  - destruct trailing.
    + rewrite split_join_chunks_trailing by (easy || exact Hs).
      rewrite filter_app, filter_kept by exact Hb.
      cbn [filter trim trimEnd trimStart rev truthy_string]. apply app_nil_r.
    + rewrite app_nil_r, split_join_chunks by (easy || exact Hs).
      now apply filter_kept.
Qed.

Lemma parseGitLog_render es trailing :
  forallb (entry_ok cs fs) es = true ->
  parseGitLog (render_log cs fs es trailing) cs fs
  = Ok (map (commit_of_entry fs) es).
Proof.
  intros H. unfold parseGitLog. rewrite kept_chunks by exact H.
  now rewrite (for_of_entries fs fs_not_empty cs).
Qed.

Lemma commit_of_entry_parsed e : parsed_from fs e (commit_of_entry fs e).
Proof.
  unfold parsed_from, commit_of_entry. cbn.
  repeat split; try apply trim_is_trimmed; try apply trim_nil;
    try apply or_undefined_trim_ok.
Qed.

End Blob.

(** *** The claims about parseGitLog *)

Lemma trimStart_id s : leading_ws s = false -> trimStart s = s.
Proof. destruct s as [|c s]; cbn; [reflexivity|]. now intros ->. Qed.

Lemma trim_trimmed s : is_trimmed s = true -> trim s = s.
Proof.
  unfold is_trimmed. intros H. apply andb_prop in H. destruct H as [H1 H2].
  apply negb_true_iff in H1, H2. unfold trim, trimEnd.
  rewrite (trimStart_id s H1), (trimStart_id _ H2). apply rev_involutive.
Qed.

Lemma parseGitLog_one_chunk cs fs chunk :
  cs <> [] -> includes chunk cs = false -> blank chunk = false ->
  parseGitLog chunk cs fs = parse_chunk fs [] chunk.
Proof.
  intros Hcs Hi Hb. unfold parseGitLog.
  rewrite split_no_separator by assumption.
  cbn [filter]. rewrite truthy_trim, Hb. cbn [negb for_of].
  now destruct (parse_chunk fs [] chunk).
Qed.

(** C1, as amended.  For every blob made of N entries of four fields or
    more, joined by the separators and well formed (no separator where
    none was written, no entry that is whitespace only), with or without a
    commit separator at the end, parseGitLog returns N records in the order
    of the entries; each record's hash, date, author and message is the
    entry's field trimmed, hence empty exactly when that field is whitespace
    only; the body is absent or a non-empty trimmed string. *)
Theorem parseGitLog_well_formed cs fs es trailing :
  cs <> [] -> fs <> [] -> forallb (entry_ok cs fs) es = true ->
  exists commits,
    parseGitLog (render_log cs fs es trailing) cs fs = Ok commits
    /\ length commits = length es
    /\ Forall2 (parsed_from fs) es commits.
Proof.
  intros Hcs Hfs H. exists (map (commit_of_entry fs) es).
  split; [now apply parseGitLog_render|]. split; [apply length_map|].
  clear H. induction es as [|e es IH]; cbn [map]; constructor;
    [apply commit_of_entry_parsed|exact IH].
Qed.

Lemma parseGitLog_well_formed_witness :
  exists commits,
    parseGitLog (render_log SEPARATOR FIELD_SEPARATOR sample_entries true)
      SEPARATOR FIELD_SEPARATOR = Ok commits
    /\ length commits = length sample_entries
    /\ Forall2 (parsed_from FIELD_SEPARATOR) sample_entries commits.
Proof.
  apply (parseGitLog_well_formed SEPARATOR FIELD_SEPARATOR sample_entries true).
  - discriminate.
  - discriminate.
  - vm_compute. reflexivity.
Defined.

(** C1 as the specification words it fails on a commit whose message is
    empty: the entry has its four fields and is well formed, one record
    comes back, and its message is the empty string. *)
Lemma parseGitLog_empty_message :
  forallb (entry_ok SEPARATOR FIELD_SEPARATOR) [empty_subject_entry] = true
  /\ exists c,
      parseGitLog
        (render_log SEPARATOR FIELD_SEPARATOR [empty_subject_entry] true)
        SEPARATOR FIELD_SEPARATOR = Ok [c]
      /\ message c = []
      /\ ~ fields_nonempty c.
Proof.
  split; [vm_compute; reflexivity|].
  eexists. split; [vm_compute; reflexivity|]. split; [reflexivity|].
  unfold fields_nonempty. cbn. tauto.
Qed.

(** C4.  A chunk of five fields whose fifth, the body, may contain the
    field separator: the parts from the fifth on, joined with the field
    separator, are the body text again, and the record carries it (trimmed;
    unchanged when it had no whitespace around it). *)
Theorem body_rejoined cs fs h d a m b :
  cs <> [] -> fs <> [] ->
  sep_free fs h = true -> sep_free fs d = true ->
  sep_free fs a = true -> sep_free fs m = true ->
  includes (join [h; d; a; m; b] fs) cs = false ->
  blank (join [h; d; a; m; b] fs) = false ->
  parseGitLog (join [h; d; a; m; b] fs) cs fs
  = Ok [mkCommitInfo (trim h) (trim d) (trim a) (trim m)
          (or_undefined (trim b))]
  /\ join (skipn 4 (split (join [h; d; a; m; b] fs) fs)) fs = b
  /\ (b <> [] -> is_trimmed b = true -> or_undefined (trim b) = Some b).
Proof.
  intros Hcs Hfs Hh Hd Ha Hm Hi Hb.
  pose (e := mkEntry h d a m [b]).
  split; [|split].
  - rewrite parseGitLog_one_chunk by assumption.
    apply (parse_chunk_entry fs Hfs [] e); assumption.
  - destruct (split_entry fs Hfs e Hh Hd Ha Hm) as (bodyParts & Hs & Hj).
    unfold render_entry, entry_fields in Hs. cbn [e_hash e_date e_author
      e_subject e_rest e] in Hs. rewrite Hs. exact Hj.
  - intros Hne Ht. rewrite trim_trimmed by exact Ht.
    destruct b; [congruence|reflexivity].
Qed.

Lemma body_rejoined_witness :
  parseGitLog
    (join [lit "h1"; lit "d1"; lit "a1"; lit "msg1";
           lit "line-one" ++ sect ++ lit "line-two"] sect) SEPARATOR sect
  = Ok [mkCommitInfo (lit "h1") (lit "d1") (lit "a1") (lit "msg1")
          (Some (lit "line-one" ++ sect ++ lit "line-two"))].
Proof.
  apply (body_rejoined SEPARATOR sect (lit "h1") (lit "d1") (lit "a1")
           (lit "msg1") (lit "line-one" ++ sect ++ lit "line-two"));
    solve [discriminate | vm_compute; reflexivity].
Defined.

(** C6.  A chunk that splits into fewer than four parts is passed over:
    its round of the loop leaves the array as it is, the records are those
    of the other chunks, one for each of them that has four parts or more,
    and nothing is thrown. *)
Theorem short_chunk_discarded raw cs fs pre c post :
  filter (fun c => truthy_string (trim c)) (split raw cs) = pre ++ c :: post ->
  length (split c fs) < 4 ->
  (forall commits, parse_chunk fs commits c = Ok commits)
  /\ exists commits,
      parseGitLog raw cs fs = Ok commits
      /\ for_of (parse_chunk fs) (pre ++ post) [] = Ok commits
      /\ length commits
         = length (filter (fun c => 4 <=? length (split c fs)) (pre ++ post)).
Proof.
  intros Hk Hc.
  assert (Hround : forall commits, parse_chunk fs commits c = Ok commits).
  { intros commits.
    destruct (parse_chunk_cases fs commits c) as [[_ E]|[L _]]; [exact E|lia]. }
  split; [exact Hround|].
  destruct (for_of_parse_chunk fs (pre ++ post) []) as (added & E & Hl).
  exists added. repeat split; try assumption.
  unfold parseGitLog. rewrite Hk.
  rewrite for_of_app in *.
  destruct (for_of (parse_chunk fs) pre []) as [mid|]; cbn [bind] in *;
    [|discriminate].
  cbn [for_of]. rewrite Hround. exact E.
Qed.

Lemma short_chunk_discarded_witness :
  exists commits,
    parseGitLog
      (lit "h1|d1|a1|m1;h2|d2;h3|d3|a3|m3|b3;h4|d4|a4|m4;") (lit ";") (lit "|")
    = Ok commits
    /\ length commits = 3.
Proof.
  destruct (short_chunk_discarded
              (lit "h1|d1|a1|m1;h2|d2;h3|d3|a3|m3|b3;h4|d4|a4|m4;")
              (lit ";") (lit "|")
              [lit "h1|d1|a1|m1"] (lit "h2|d2")
              [lit "h3|d3|a3|m3|b3"; lit "h4|d4|a4|m4"])
    as [_ (commits & E & _ & L)].
  - vm_compute. reflexivity.
  - vm_compute. lia.
  - exists commits. split; [exact E|exact L].
Defined.

(** C9.  parseGitLog returns an array for every blob and every pair of
    separators, the empty ones included: nothing in it throws, and the loop
    inside [split] always reaches its end within the rounds it is given. *)
Theorem parseGitLog_total raw cs fs :
  (exists commits, parseGitLog raw cs fs = Ok commits)
  /\ parseGitLog [] cs fs = Ok []
  /\ parseGitLog cs cs fs = Ok []
  /\ (forall fuel, cs <> [] -> length raw <= fuel ->
      split_loop fuel cs raw = split raw cs).
Proof.
  split; [|split; [|split]].
  - unfold parseGitLog.
    destruct (for_of_parse_chunk fs
                (filter (fun c => truthy_string (trim c)) (split raw cs)) [])
      as (added & E & _).
    now exists added.
  - destruct cs; reflexivity.
  - destruct cs as [|c cs0]; [reflexivity|].
    unfold parseGitLog. now rewrite split_separator_alone.
  - intros fuel Hcs Hl. symmetry. now apply split_as_loop.
Qed.

(** ** The calendar *)

Example iso_string_epoch : iso_string 0 = lit "1970-01-01T00:00:00.000Z".
Proof. vm_compute. reflexivity. Qed.

Example iso_string_before_epoch :
  iso_string (-1) = lit "1969-12-31T23:59:59.999Z".
Proof. vm_compute. reflexivity. Qed.

Example iso_string_leap_day :
  iso_string 1709210096789 = lit "2024-02-29T12:34:56.789Z".
Proof. vm_compute. reflexivity. Qed.

Example iso_string_last_instant :
  iso_string max_time = lit "+275760-09-13T00:00:00.000Z".
Proof. vm_compute. reflexivity. Qed.

Example parse_iso_offset :
  parse_iso (lit "2024-01-05T23:30:00-05:00") = Some 1704515400000%Z
  /\ parse_iso (lit "2024-01-06T04:30:00Z") = Some 1704515400000%Z
  /\ parse_iso (lit "2023-02-29") = None.
Proof. repeat split; vm_compute; reflexivity. Qed.

Section CalendarFacts.

Local Open Scope Z_scope.

Lemma forallb_Zrange f lo len z :
  forallb f (Zrange lo (Z.to_nat len)) = true -> lo <= z < lo + len ->
  f z = true.
Proof.
  intros H B. assert (B' : lo <= z < lo + Z.of_nat (Z.to_nat len)) by lia.
  clear B. revert lo H B'.
  induction (Z.to_nat len) as [|n IH]; intros lo H B; [lia|].
  cbn [Zrange forallb] in H. apply andb_prop in H. destruct H as [H0 H].
  destruct (Z.eq_dec z lo) as [->|N]; [exact H0|].
  apply (IH (lo + 1) H). lia.
Qed.

Lemma is_leap_shift y k : is_leap (y + 400 * k) = is_leap y.
Proof.
  unfold is_leap.
  replace (y + 400 * k) with (y + (100 * k) * 4) at 1 by lia.
  replace (y + 400 * k) with (y + (4 * k) * 100) at 1 by lia.
  replace (y + 400 * k) with (y + k * 400) by lia.
  now rewrite !Z_mod_plus_full.
Qed.

Lemma days_from_civil_shift y k m d :
  days_from_civil (y + 400 * k) m d = days_from_civil y m d + 146097 * k.
Proof.
  assert (H : forall y0,
    (let era := (y0 + k * 400) / 400 in
     let yoe := y0 + k * 400 - era * 400 in
     let doy := (153 * (if 2 <? m then m - 3 else m + 9) + 2) / 5 + d - 1 in
     let doe := yoe * 365 + yoe / 4 - yoe / 100 + doy in
     era * 146097 + doe - 719468)
    = (let era := y0 / 400 in
       let yoe := y0 - era * 400 in
       let doy := (153 * (if 2 <? m then m - 3 else m + 9) + 2) / 5 + d - 1 in
       let doe := yoe * 365 + yoe / 4 - yoe / 100 + doy in
       era * 146097 + doe - 719468) + 146097 * k).
  { intros y0. cbv zeta. rewrite Z.div_add by lia.
    replace (y0 + k * 400 - (y0 / 400 + k) * 400) with (y0 - y0 / 400 * 400)
      by lia.
    lia. }
  unfold days_from_civil. destruct (m <=? 2).
  - replace (y + 400 * k - 1) with (y - 1 + k * 400) by lia. apply H.
  - replace (y + 400 * k) with (y + k * 400) by lia. apply H.
Qed.

Lemma DayFromYear_shift y k : DayFromYear (y + 400 * k) = DayFromYear y + 146097 * k.
Proof.
  unfold DayFromYear.
  replace (y + 400 * k - 1969) with (y - 1969 + (100 * k) * 4) by lia.
  replace (y + 400 * k - 1901) with (y - 1901 + (4 * k) * 100) by lia.
  replace (y + 400 * k - 1601) with (y - 1601 + k * 400) by lia.
  rewrite !Z.div_add by lia. lia.
Qed.

Lemma era_months_checked : forallb check_month (Zrange 0 (Z.to_nat 4800)) = true.
Proof. vm_compute. reflexivity. Qed.

Lemma days_before_month_shift y k m :
  days_before_month (y + 400 * k) m = days_before_month y m.
Proof. unfold days_before_month. now rewrite is_leap_shift. Qed.

(** [days_from_civil] is ECMA-262's MakeDay: the first day of the year,
    the days of the months before, the days of the month before. *)
Lemma days_from_civil_spec y m d :
  1 <= m <= 12 ->
  days_from_civil y m d = DayFromYear y + days_before_month y m + (d - 1).
Proof.
  intros Hm.
  assert (L : days_from_civil y m d = days_from_civil y m 1 + (d - 1))
    by (unfold days_from_civil; cbv zeta; lia).
  rewrite L. f_equal.
  pose proof (Z.div_mod y 400 ltac:(lia)) as E.
  pose proof (Z.mod_pos_bound y 400 ltac:(lia)) as B.
  replace y with (y mod 400 + 400 * (y / 400)) by lia.
  rewrite days_from_civil_shift, DayFromYear_shift, days_before_month_shift.
  set (y0 := y mod 400) in *.
  pose proof (forallb_Zrange check_month 0 4800 (y0 * 12 + (m - 1))
                era_months_checked ltac:(lia)) as C.
  unfold check_month in C. cbv zeta in C.
  assert (Hq : (y0 * 12 + (m - 1)) / 12 = y0)
    by (symmetry; apply (Z.div_unique _ 12 y0 (m - 1)); lia).
  assert (Hr : (y0 * 12 + (m - 1)) mod 12 = m - 1)
    by (symmetry; apply (Z.mod_unique _ 12 y0 (m - 1)); lia).
  rewrite Hq, Hr in C. replace (m - 1 + 1) with m in C by lia.
  apply Z.eqb_eq in C. lia.
Qed.

Lemma era_years_checked : forallb check_year (Zrange 0 (Z.to_nat 400)) = true.
Proof. vm_compute. reflexivity. Qed.

Lemma year_days_checked :
  forallb check_day_of_year (Zrange 0 (Z.to_nat 366)) = true.
Proof. vm_compute. reflexivity. Qed.

(** The year formula never steps back. *)
Lemma year_of_era_mono a b : 0 <= a <= b -> year_of_era a <= year_of_era b.
Proof.
  intros H. unfold year_of_era. apply Z.div_le_mono; [lia|].
  Z.to_euclidean_division_equations; lia.
Qed.

(** Every day of the era lies in one of its years. *)
Lemma year_located doe :
  0 <= doe < 146097 ->
  exists k, 0 <= k < 400 /\ year_start k <= doe < year_start (k + 1).
Proof.
  intros H.
  assert (G : forall n : nat, (n <= 400)%nat -> doe < year_start (Z.of_nat n) ->
            exists k, 0 <= k < Z.of_nat n
                      /\ year_start k <= doe < year_start (k + 1)).
  { induction n as [|n IH]; intros Hn Hd.
    - cbn in Hd. lia.
    - destruct (Z_lt_le_dec doe (year_start (Z.of_nat n))) as [L|L].
      + destruct (IH ltac:(lia) L) as (k & Hk & Hy). exists k. split; [lia|exact Hy].
      + exists (Z.of_nat n). split; [lia|]. split; [exact L|].
        now replace (Z.of_nat n + 1) with (Z.of_nat (S n)) by lia. }
  destruct (G 400%nat (le_n _)) as (k & Hk & Hy); [cbn; lia|].
  exists k. split; [lia|exact Hy].
Qed.

Lemma year_of_era_spec doe :
  0 <= doe < 146097 ->
  exists k, 0 <= k < 400 /\ year_of_era doe = k
            /\ 0 <= doe - (365 * k + k / 4 - k / 100) <= 365
            /\ (doe - (365 * k + k / 4 - k / 100) = 365 ->
                is_leap (k + 1) = true).
Proof.
  intros H. destruct (year_located doe H) as (k & Hk & Hlo & Hhi).
  pose proof (forallb_Zrange check_year 0 400 k era_years_checked
                ltac:(lia)) as C.
  unfold check_year in C.
  apply andb_prop in C. destruct C as [C Clen].
  apply andb_prop in C. destruct C as [C Clast].
  apply andb_prop in C. destruct C as [Cpos Cfirst].
  apply Z.leb_le in Clen, Cpos. apply Z.eqb_eq in Clast, Cfirst.
  assert (Hs : year_start k = 365 * k + k / 4 - k / 100).
  { unfold year_start. destruct (Z.eqb_spec k 400); [lia|reflexivity]. }
  exists k. split; [exact Hk|]. split.
  - apply Z.le_antisymm.
    + rewrite <- Clast. apply year_of_era_mono. lia.
    + rewrite <- Cfirst at 1. apply year_of_era_mono. lia.
  - rewrite <- Hs. destruct (is_leap (k + 1)); split; try lia; reflexivity.
Qed.

(** Every day number is the day number of the date [civil_from_days]
    gives it, and that date exists. *)
Lemma civil_from_days_spec z :
  let '(y, m, d) := civil_from_days z in
  valid_date y m d = true /\ days_from_civil y m d = z.
Proof.
  unfold civil_from_days. cbv zeta.
  set (n := z + 719468). set (era := n / 146097).
  set (doe := n - era * 146097).
  assert (Hdoe : 0 <= doe < 146097).
  { unfold doe, era. pose proof (Z.div_mod n 146097 ltac:(lia)).
    pose proof (Z.mod_pos_bound n 146097 ltac:(lia)). lia. }
  destruct (year_of_era_spec doe Hdoe) as (k & Hk & Hy & Hdoy & Hleap).
  change ((doe - doe / 1460 + doe / 36524 - doe / 146096) / 365)
    with (year_of_era doe). rewrite Hy.
  set (doy := doe - (365 * k + k / 4 - k / 100)) in *.
  pose proof (forallb_Zrange check_day_of_year 0 366 doy year_days_checked
                ltac:(lia)) as C.
  unfold check_day_of_year in C. cbv zeta in C.
  set (mp := (5 * doy + 2) / 153) in *.
  set (d := doy - (153 * mp + 2) / 5 + 1) in *.
  set (m := if mp <? 10 then mp + 3 else mp - 9) in *.
  apply andb_prop in C. destruct C as [C Cback].
  apply andb_prop in C. destruct C as [C Cdmax].
  apply andb_prop in C. destruct C as [C Cdmin].
  apply andb_prop in C. destruct C as [Cmmin Cmmax].
  apply Z.leb_le in Cdmax, Cdmin, Cmmin, Cmmax. apply Z.eqb_eq in Cback.
  assert (Hera : (k + era * 400) / 400 = era)
    by (rewrite Z.div_add, Z.div_small; lia).
  split.
  - unfold valid_date. rewrite !andb_true_iff, !Z.leb_le.
    repeat split; try assumption.
    unfold days_in_month in *. destruct (Z.eqb_spec m 2) as [E|E].
    + replace (m <=? 2) with true by (symmetry; apply Z.leb_le; lia).
      replace (k + era * 400 + 1) with (k + 1 + 400 * era) by lia.
      rewrite is_leap_shift. destruct (Z.eqb_spec doy 365) as [D|D].
      * now rewrite (Hleap D).
      * destruct (is_leap (k + 1)); lia.
    + assumption.
  - unfold days_from_civil.
    replace (if m <=? 2
             then (if m <=? 2 then k + era * 400 + 1 else k + era * 400) - 1
             else (if m <=? 2 then k + era * 400 + 1 else k + era * 400))
      with (k + era * 400) by (destruct (m <=? 2); lia).
    cbv zeta. rewrite Hera.
    replace (k + era * 400 - era * 400) with k by lia.
    unfold doy, doe, n in *. lia.
Qed.

(** The date that [utc_date] writes is the date of the instant's day in
    ECMA-262's terms. *)
Lemma utc_date_spec t :
  exists y m d,
    valid_date y m d = true
    /\ DayFromYear y + days_before_month y m + (d - 1) = t / msPerDay
    /\ utc_date t = year_string y ++ lit "-" ++ pad 2 m ++ lit "-" ++ pad 2 d.
Proof.
  unfold utc_date. pose proof (civil_from_days_spec (t / msPerDay)) as H.
  destruct (civil_from_days (t / msPerDay)) as [[y m] d].
  destruct H as [V E]. exists y, m, d. split; [exact V|].
  split; [|reflexivity]. rewrite <- E. symmetry.
  apply days_from_civil_spec. unfold valid_date in V.
  rewrite !andb_true_iff, !Z.leb_le in V. lia.
Qed.

End CalendarFacts.

(** ** getDateRange *)

Section DateFacts.

Lemma num_min_comm a b : num_min a b = num_min b a.
Proof. destruct a, b; cbn; try reflexivity. f_equal. lia. Qed.

Lemma num_min_assoc a b c : num_min a (num_min b c) = num_min (num_min a b) c.
Proof. destruct a, b, c; cbn; try reflexivity. f_equal. lia. Qed.

Lemma num_max_comm a b : num_max a b = num_max b a.
Proof. destruct a, b; cbn; try reflexivity. f_equal. lia. Qed.

Lemma num_max_assoc a b c : num_max a (num_max b c) = num_max (num_max a b) c.
Proof. destruct a, b, c; cbn; try reflexivity. f_equal. lia. Qed.

(** The order of the arguments does not matter to [Math.min], [Math.max]. *)
Lemma least_perm xs ys : Permutation xs ys -> least xs = least ys.
Proof.
  unfold least. induction 1; cbn; try congruence.
  rewrite !num_min_assoc. f_equal. apply num_min_comm.
Qed.

Lemma greatest_perm xs ys : Permutation xs ys -> greatest xs = greatest ys.
Proof.
  unfold greatest. induction 1; cbn; try congruence.
  rewrite !num_max_assoc. f_equal. apply num_max_comm.
Qed.

(** One NaN among the arguments makes the result NaN. *)
Lemma least_NaN xs : In NaN xs -> least xs = NaN.
Proof.
  unfold least. induction xs as [|x xs IH]; cbn; [tauto|].
  intros [->|H]; [reflexivity|]. rewrite IH by exact H. now destruct x.
Qed.

Lemma greatest_NaN xs : In NaN xs -> greatest xs = NaN.
Proof.
  unfold greatest. induction xs as [|x xs IH]; cbn; [tauto|].
  intros [->|H]; [reflexivity|]. rewrite IH by exact H. now destruct x.
Qed.

Lemma least_finite ts :
  ts <> [] -> exists m, least (map Finite ts) = Finite m /\ is_min m ts.
Proof.
  unfold least, is_min. induction ts as [|t ts IH]; [congruence|].
  intros _. destruct ts as [|t' ts].
  - exists t. cbn. split; [reflexivity|]. split; [auto|].
    intros x [->|[]]. lia.
  - destruct IH as (m & E & Hin & Hle); [easy|].
    cbn [map fold_right] in *. rewrite E. cbn [num_min].
    exists (Z.min t m). split; [reflexivity|]. split.
    + destruct (Z.min_spec t m) as [[_ ->]|[_ ->]]; [now left|now right].
    + intros x [->|Hx]; [lia|]. specialize (Hle x Hx). lia.
Qed.

Lemma greatest_finite ts :
  ts <> [] -> exists m, greatest (map Finite ts) = Finite m /\ is_max m ts.
Proof.
  unfold greatest, is_max. induction ts as [|t ts IH]; [congruence|].
  intros _. destruct ts as [|t' ts].
  - exists t. cbn. split; [reflexivity|]. split; [auto|].
    intros x [->|[]]. lia.
  - destruct IH as (m & E & Hin & Hle); [easy|].
    cbn [map fold_right] in *. rewrite E. cbn [num_max].
    exists (Z.max t m). split; [reflexivity|]. split.
    + destruct (Z.max_spec t m) as [[_ ->]|[_ ->]]; [now right|now left].
    + intros x [->|Hx]; [lia|]. specialize (Hle x Hx). lia.
Qed.

Lemma TimeClip_Some n t : TimeClip n = Some t -> TimeClip (Finite t) = Some t.
Proof.
  destruct n; cbn; try discriminate.
  destruct (Z.abs z <=? max_time)%Z eqn:E; [|discriminate].
  intros [= <-]. now rewrite E.
Qed.

(** *** The date before the [T] *)

Lemma includes_unit s c :
  forallb (fun x => negb (cu_eqb x c)) s = true -> includes s [c] = false.
Proof.
  unfold includes. induction s as [|x s IH]; cbn; [reflexivity|].
  intros H. apply andb_prop in H. destruct H as [Hx H].
  rewrite cu_eqb_sym_false by exact Hx. cbn.
  specialize (IH H). now destruct (string_index_of s [c]).
Qed.

Lemma pad_no_T width n :
  forallb (fun x => negb (cu_eqb x 84)) (pad width n) = true.
Proof.
  revert n. induction width as [|w IH]; intros n; cbn [pad]; [reflexivity|].
  rewrite forallb_app, IH. cbn [forallb andb]. rewrite andb_true_r.
  apply negb_true_iff, N.eqb_neq. unfold digit_char.
  pose proof (Z.mod_pos_bound n 10 ltac:(lia)) as B. lia.
Qed.

Lemma year_string_no_T y :
  forallb (fun x => negb (cu_eqb x 84)) (year_string y) = true.
Proof.
  unfold year_string.
  destruct ((0 <=? y) && (y <=? 9999))%Z; [apply pad_no_T|].
  cbn [forallb]. rewrite pad_no_T. now destruct (y <? 0)%Z.
Qed.

Lemma utc_date_no_T t :
  forallb (fun x => negb (cu_eqb x 84)) (utc_date t) = true.
Proof.
  unfold utc_date. destruct (civil_from_days (t / msPerDay)) as [[y m] d].
  rewrite !forallb_app, year_string_no_T, !pad_no_T. reflexivity.
Qed.

(** Cutting the ISO string at the first [T] leaves the calendar date. *)
Lemma before_T_iso t : before_T (iso_string t) = utc_date t.
Proof.
  unfold before_T, iso_string.
  rewrite split_first; [reflexivity|discriminate|].
  cbn [lit list_ascii_of_string map removelast]. rewrite app_nil_r.
  apply includes_unit, utc_date_no_T.
Qed.

Section GetDateRange.

Variable host : jsstring -> number.
Variable now : Z.
Variable spare : nat.

Lemma getDateRange_empty :
  getDateRange host now spare []
  = Ok (mkDateRange (utc_date now) (utc_date now)).
Proof.
  unfold getDateRange, Date_now. cbn [length Nat.eqb toISOString bind].
  now rewrite before_T_iso.
Qed.

Lemma getDateRange_cons c commits :
  getDateRange host now spare (c :: commits) =
  let times := map (fun c => getTime (Date_of_string host (date c)))
                 (c :: commits) in
  if length (c :: commits) <=? max_arguments spare then
    s <- toISOString (Date_of_number (least times)) ;;
    e <- toISOString (Date_of_number (greatest times)) ;;
    Ok (mkDateRange (before_T s) (before_T e))
  else Throw RangeError.
Proof.
  unfold getDateRange, Math_min, Math_max. cbn [length Nat.eqb].
  rewrite map_map, !length_map. cbn [length].
  now destruct (S (length commits) <=? max_arguments spare).
Qed.

(** The result depends on the records through their instants only. *)
Lemma getDateRange_instants commits commits' :
  map (fun c => Date_of_string host (date c)) commits
  = map (fun c => Date_of_string host (date c)) commits' ->
  getDateRange host now spare commits = getDateRange host now spare commits'.
Proof.
  intros H. unfold getDateRange. rewrite H.
  apply (f_equal (@length _)) in H. rewrite !length_map in H. now rewrite H.
Qed.

Lemma getDateRange_perm commits commits' :
  Permutation commits commits' ->
  getDateRange host now spare commits = getDateRange host now spare commits'.
Proof.
  intros H. unfold getDateRange, Math_min, Math_max.
  rewrite !length_map, (Permutation_length H).
  set (f := fun c => Date_of_string host (date c)).
  assert (P : Permutation (map getTime (map f commits))
                          (map getTime (map f commits')))
    by now do 2 apply Permutation_map.
  now rewrite (least_perm _ _ P), (greatest_perm _ _ P).
Qed.

(** More records than the engine takes arguments: the first spread
    throws, whatever the dates. *)
Lemma getDateRange_long commits :
  max_arguments spare < length commits ->
  getDateRange host now spare commits = Throw RangeError.
Proof.
  intros H. destruct commits as [|c commits]; [cbn in H; lia|].
  rewrite getDateRange_cons. cbv zeta. apply Nat.leb_gt in H. now rewrite H.
Qed.

Lemma getDateRange_accepted commits r :
  getDateRange host now spare commits = Ok r ->
  length commits <= max_arguments spare.
Proof.
  intros H. destruct (Nat.le_gt_cases (length commits) (max_arguments spare))
    as [L|L]; [exact L|].
  rewrite (getDateRange_long _ L) in H. discriminate.
Qed.

Lemma getDateRange_valid commits times :
  commits <> [] -> length commits <= max_arguments spare ->
  map (fun c => Date_of_string host (date c)) commits = map Some times ->
  exists tmin tmax,
    is_min tmin times /\ is_max tmax times
    /\ getDateRange host now spare commits
       = Ok (mkDateRange (utc_date tmin) (utc_date tmax)).
Proof.
  intros Hne Hlen H. destruct commits as [|c commits]; [congruence|].
  assert (Ht : times <> []) by (destruct times; [discriminate|easy]).
  assert (Hclip : forall t, In t times -> TimeClip (Finite t) = Some t).
  { intros t Hin. apply (in_map Some) in Hin. rewrite <- H in Hin.
    apply in_map_iff in Hin. destruct Hin as (c' & E & _).
    exact (TimeClip_Some _ _ E). }
  rewrite getDateRange_cons. cbv zeta.
  apply Nat.leb_le in Hlen. rewrite Hlen.
  rewrite <- (map_map (fun c => Date_of_string host (date c)) getTime), H.
  rewrite map_map. cbn [getTime]. change (fun x => Finite x) with Finite.
  destruct (least_finite times Ht) as (tmin & -> & Hmin).
  destruct (greatest_finite times Ht) as (tmax & -> & Hmax).
  exists tmin, tmax. split; [exact Hmin|]. split; [exact Hmax|].
  unfold Date_of_number.
  rewrite (Hclip tmin (proj1 Hmin)), (Hclip tmax (proj1 Hmax)).
  cbn [toISOString bind]. now rewrite !before_T_iso.
Qed.

(** One date that does not parse: a RangeError, from the spread when the
    list is too long for it and from toISOString otherwise. *)
Lemma getDateRange_throws commits c :
  In c commits -> Date_of_string host (date c) = None ->
  getDateRange host now spare commits = Throw RangeError.
Proof.
  intros Hin Hc. destruct commits as [|c0 commits]; [destruct Hin|].
  rewrite getDateRange_cons. cbv zeta.
  destruct (length (c0 :: commits) <=? max_arguments spare); [|reflexivity].
  rewrite least_NaN; [reflexivity|].
  apply in_map_iff. exists c. now rewrite Hc.
Qed.

(** Dates that all parse, as the list of their instants. *)
Lemma all_dates_parse commits :
  (forall c, In c commits -> Date_of_string host (date c) <> None) ->
  exists times,
    map (fun c => Date_of_string host (date c)) commits = map Some times.
Proof.
  induction commits as [|c commits IH]; intros H.
  - now exists [].
  - destruct IH as [times E]; [intros c' Hc'; apply H; now right|].
    destruct (Date_of_string host (date c)) as [t|] eqn:Ec.
    + exists (t :: times). cbn [map]. now rewrite Ec, E.
    + exfalso. apply (H c); [now left|exact Ec].
Qed.

(** What a returned range is: every date has parsed, the list was not
    too long, and the bounds are the UTC dates of the least and the
    greatest instant. *)
Lemma getDateRange_returned commits r :
  commits <> [] -> getDateRange host now spare commits = Ok r ->
  exists times tmin tmax,
    map (fun c => Date_of_string host (date c)) commits = map Some times
    /\ length commits <= max_arguments spare
    /\ is_min tmin times /\ is_max tmax times
    /\ r = mkDateRange (utc_date tmin) (utc_date tmax).
Proof.
  intros Hne H. pose proof (getDateRange_accepted _ _ H) as L.
  destruct (all_dates_parse commits) as [times E].
  { intros c Hin Hc. rewrite (getDateRange_throws _ c Hin Hc) in H.
    discriminate. }
  destruct (getDateRange_valid commits times Hne L E)
    as (tmin & tmax & Hmin & Hmax & R).
  rewrite R in H. injection H as <-. now exists times, tmin, tmax.
Qed.

End GetDateRange.

End DateFacts.

(** *** Dates written and read *)

Section DateStrings.

Local Open Scope Z_scope.

Lemma digit_digit_char d : 0 <= d <= 9 -> digit (digit_char d) = Some d.
Proof.
  intros H. unfold digit, digit_char.
  assert (E : ((48 <=? 48 + Z.to_N d) && (48 + Z.to_N d <=? 57))%N = true).
  { apply andb_true_intro. split; apply N.leb_le; lia. }
  rewrite E. f_equal. lia.
Qed.

(** Reading one digit more is reading the digits and then one. *)
Lemma digits_S n : forall acc s,
  digits (S n) acc s = ('(a, r) <-? digits n acc s ;; digits 1 a r).
Proof.
  induction n as [|n IH]; intros acc s.
  - reflexivity.
  - change (digits (S (S n)) acc s)
      with (match s with
            | [] => None
            | c :: r => d <-? digit c ;; digits (S n) (acc * 10 + d) r
            end).
    destruct s as [|c r]; [reflexivity|].
    cbn [digits]. destruct (digit c) as [d|]; [|reflexivity].
    cbn [obind]. apply IH.
Qed.

(** The digits that [pad] writes are read back as the number. *)
Lemma digits_pad n : forall v acc rest,
  0 <= v < 10 ^ Z.of_nat n ->
  digits n acc (pad n v ++ rest) = Some (acc * 10 ^ Z.of_nat n + v, rest).
Proof.
  induction n as [|n IH]; intros v acc rest Hv.
  - cbn [digits pad app]. f_equal. f_equal. change (10 ^ Z.of_nat 0) with 1 in *.
    lia.
  - rewrite digits_S. cbn [pad]. rewrite <- app_assoc.
    assert (P : 10 ^ Z.of_nat (S n) = 10 * 10 ^ Z.of_nat n).
    { rewrite Nat2Z.inj_succ, Z.pow_succ_r by lia. reflexivity. }
    rewrite P in *.
    assert (Pn : 0 < 10 ^ Z.of_nat n) by (apply Z.pow_pos_nonneg; lia).
    rewrite IH by (split; [apply Z.div_pos; lia
                          |apply Z.div_lt_upper_bound; lia]).
    cbn [obind app digits].
    rewrite digit_digit_char
      by (pose proof (Z.mod_pos_bound v 10 ltac:(lia)); lia).
    cbn [obind]. f_equal. f_equal.
    pose proof (Z.div_mod v 10 ltac:(lia)). lia.
Qed.

Lemma length_pad n v : length (pad n v) = n.
Proof.
  revert v. induction n as [|n IH]; intros v; [reflexivity|].
  cbn [pad]. rewrite length_app, IH. cbn [length]. lia.
Qed.

Lemma digits_pad2 v rest :
  0 <= v <= 99 -> digits 2 0 (pad 2 v ++ rest) = Some (v, rest).
Proof.
  intros H. rewrite (digits_pad 2 v 0 rest) by (cbn; lia). reflexivity.
Qed.

Lemma digits_pad4 v rest :
  0 <= v <= 9999 -> digits 4 0 (pad 4 v ++ rest) = Some (v, rest).
Proof.
  intros H. rewrite (digits_pad 4 v 0 rest) by (cbn; lia). reflexivity.
Qed.

Lemma valid_date_bounds y m d :
  valid_date y m d = true -> 1 <= m <= 12 /\ 1 <= d <= 31.
Proof.
  unfold valid_date, days_in_month. intros H.
  repeat (apply andb_prop in H; destruct H as [H ?]).
  destruct (m =? 2); [destruct (is_leap y)|
    destruct ((m =? 4) || (m =? 6) || (m =? 9) || (m =? 11))%bool]; lia.
Qed.

(** The days of the years 0 to 9999. *)
Lemma days_from_civil_bounds y m d :
  0 <= y <= 9999 -> 1 <= m <= 12 -> 1 <= d <= 31 ->
  -719528 <= days_from_civil y m d <= 2932896.
Proof.
  intros Hy Hm Hd. unfold days_from_civil. cbv zeta.
  destruct (m <=? 2) eqn:E1; destruct (2 <? m) eqn:E2;
    Z.to_euclidean_division_equations; lia.
Qed.

(** The calendar date that toISOString writes is read back as the
    midnight with which the day began. *)
Lemma parse_iso_utc_date t :
  length (utc_date t) = 10%nat ->
  parse_iso (utc_date t) = Some (t / msPerDay * msPerDay)
  /\ Z.abs (t / msPerDay * msPerDay) <= 253402300800000.
Proof.
  unfold utc_date. pose proof (civil_from_days_spec (t / msPerDay)) as H.
  destruct (civil_from_days (t / msPerDay)) as [[y m] d].
  destruct H as [V E]. intros L.
  destruct (valid_date_bounds _ _ _ V) as [Hm Hd].
  assert (Hy : 0 <= y <= 9999).
  { rewrite !length_app, !length_pad in L. unfold year_string in L.
    destruct ((0 <=? y) && (y <=? 9999))%bool eqn:B.
    - apply andb_prop in B. lia.
    - cbn [length lit list_ascii_of_string map] in L.
      rewrite length_pad in L. cbn in L. lia. }
  assert (Y : year_string y = pad 4 y).
  { unfold year_string.
    assert (B : ((0 <=? y) && (y <=? 9999))%bool = true)
      by (apply andb_true_intro; lia).
    now rewrite B. }
  rewrite Y. unfold parse_iso.
  rewrite digits_pad4 by lia. cbn [obind].
  change (expect 45 (lit "-" ++ ?r)) with (Some r). cbn [obind].
  rewrite digits_pad2 by lia. cbn [obind].
  change (expect 45 (lit "-" ++ ?r)) with (Some r). cbn [obind].
  rewrite <- (app_nil_r (pad 2 d)).
  rewrite digits_pad2 by lia. cbn [obind].
  rewrite V, E. split; [reflexivity|].
  pose proof (days_from_civil_bounds y m d Hy Hm Hd) as B. rewrite E in B.
  unfold msPerDay in *. lia.
Qed.

Lemma parse_iso_git_date y mo d h mi s west oh om :
  git_date_ok y mo d h mi s oh om = true ->
  parse_iso (git_date y mo d h mi s west oh om)
  = Some (git_instant y mo d h mi s west oh om)
  /\ Z.abs (git_instant y mo d h mi s west oh om) <= max_time.
Proof.
  unfold git_date_ok. intros H.
  repeat (apply andb_prop in H; destruct H as [H ?]).
  destruct (valid_date_bounds y mo d ltac:(assumption)) as [Hm Hd].
  assert (Hy : 0 <= y <= 9999) by lia.
  split.
  - unfold git_date, parse_iso.
    rewrite digits_pad4 by lia. cbn [obind].
    change (expect 45 (lit "-" ++ ?r)) with (Some r). cbn [obind].
    rewrite digits_pad2 by lia. cbn [obind].
    change (expect 45 (lit "-" ++ ?r)) with (Some r). cbn [obind].
    rewrite digits_pad2 by lia. cbn [obind].
    match goal with V : valid_date y mo d = true |- _ => rewrite V end.
    change (lit "T" ++ ?r) with (84%N :: r).
    change (expect 84 (84%N :: ?r)) with (Some r). cbn [obind].
    rewrite digits_pad2 by lia. cbn [obind].
    change (expect 58 (lit ":" ++ ?r)) with (Some r). cbn [obind].
    rewrite digits_pad2 by lia. cbn [obind].
    change (expect 58 (lit ":" ++ ?r)) with (Some r). cbn [obind].
    rewrite digits_pad2 by lia. cbn [obind].
    assert (O : parse_offset ((if west then lit "-" else lit "+")
                              ++ pad 2 oh ++ lit ":" ++ pad 2 om)
                = Some ((if west then -1 else 1) * (oh * 60 + om))).
    { assert (B : ((oh <=? 23) && (om <=? 59))%bool = true)
        by (apply andb_true_intro; lia).
      destruct west.
      - change (lit "-" ++ pad 2 oh ++ lit ":" ++ pad 2 om)
          with (45%N :: pad 2 oh ++ 58%N :: pad 2 om).
        unfold parse_offset.
        change (cu_eqb 45 90) with false. change (cu_eqb 45 43) with false.
        change (cu_eqb 45 45) with true. cbn [obind].
        rewrite (digits_pad2 oh (58%N :: pad 2 om)) by lia.
        cbn [obind expect]. change (cu_eqb 58 58) with true. cbn [obind].
        rewrite <- (app_nil_r (pad 2 om)), digits_pad2 by lia.
        cbn [obind]. now rewrite B.
      - change (lit "+" ++ pad 2 oh ++ lit ":" ++ pad 2 om)
          with (43%N :: pad 2 oh ++ 58%N :: pad 2 om).
        unfold parse_offset.
        change (cu_eqb 43 90) with false. change (cu_eqb 43 43) with true.
        cbn [obind].
        rewrite (digits_pad2 oh (58%N :: pad 2 om)) by lia.
        cbn [obind expect]. change (cu_eqb 58 58) with true. cbn [obind].
        rewrite <- (app_nil_r (pad 2 om)), digits_pad2 by lia.
        cbn [obind]. now rewrite B. }
    rewrite O. cbn [obind].
    assert (B : ((h <=? 23) && (mi <=? 59) && (s <=? 59))%bool = true).
    { apply andb_true_intro. split; [apply andb_true_intro|]; lia. }
    rewrite B. reflexivity.
  - pose proof (days_from_civil_bounds y mo d Hy Hm Hd).
    unfold git_instant, msPerDay, max_time. destruct west; lia.
Qed.

Lemma utc_date_midnight t : utc_date (t / msPerDay * msPerDay) = utc_date t.
Proof. unfold utc_date. now rewrite Z.div_mul by (unfold msPerDay; lia). Qed.

Lemma Date_of_string_utc_date host t :
  length (utc_date t) = 10%nat ->
  Date_of_string host (utc_date t) = Some (t / msPerDay * msPerDay).
Proof.
  intros L. destruct (parse_iso_utc_date t L) as [E B].
  unfold Date_of_string, Date_parse. rewrite E. cbn [TimeClip].
  assert (C : (Z.abs (t / msPerDay * msPerDay) <=? max_time) = true)
    by (apply Z.leb_le; unfold max_time; lia).
  now rewrite C.
Qed.

Lemma Date_of_string_git_date host y mo d h mi s west oh om :
  git_date_ok y mo d h mi s oh om = true ->
  Date_of_string host (git_date y mo d h mi s west oh om)
  = Some (git_instant y mo d h mi s west oh om).
Proof.
  intros H. destruct (parse_iso_git_date y mo d h mi s west oh om H) as [E B].
  unfold Date_of_string, Date_parse. rewrite E. cbn [TimeClip].
  apply Z.leb_le in B. now rewrite B.
Qed.

End DateStrings.

(** *** The claims about getDateRange *)

(** C5.  What the claim says holds up to the engine's bound on the
    arguments of a call, and fails beyond it.  On no commits both ends are
    the UTC calendar date of the clock's reading.  On commits whose dates
    all parse, and no more of them than the engine takes arguments, the
    start is the calendar date of the least instant and the end that of the
    greatest; the result is the same for every order of the records, and the
    records dated 2024-01-05 and 2024-01-20 give these two dates in either
    order.  On more commits than that the spread in [Math.min(...)] throws
    a RangeError although every date parses: with the bound of Node 22,
    150,000 records dated 2024-01-05 give no range. *)
Theorem getDateRange_spec host now spare :
  getDateRange host now spare []
  = Ok (mkDateRange (utc_date now) (utc_date now))
  /\ (forall commits times,
        commits <> [] -> length commits <= max_arguments spare ->
        map (fun c => Date_of_string host (date c)) commits = map Some times ->
        exists tmin tmax,
          is_min tmin times /\ is_max tmax times
          /\ getDateRange host now spare commits
             = Ok (mkDateRange (utc_date tmin) (utc_date tmax)))
  /\ (forall commits commits',
        Permutation commits commits' ->
        getDateRange host now spare commits
        = getDateRange host now spare commits')
  /\ getDateRange host now spare
       [commit_dated "2024-01-05"; commit_dated "2024-01-20"]
     = Ok (mkDateRange (lit "2024-01-05") (lit "2024-01-20"))
  /\ getDateRange host now spare
       [commit_dated "2024-01-20"; commit_dated "2024-01-05"]
     = Ok (mkDateRange (lit "2024-01-05") (lit "2024-01-20"))
  /\ (forall commits,
        max_arguments spare < length commits ->
        getDateRange host now spare commits = Throw RangeError)
  /\ map (fun c => Date_of_string host (date c))
       (repeat (commit_dated "2024-01-05") (N.to_nat 150000))
     = map Some (repeat 1704412800000%Z (N.to_nat 150000))
  /\ getDateRange host now node_spare
       (repeat (commit_dated "2024-01-05") (N.to_nat 150000))
     = Throw RangeError.
Proof.
  split; [apply getDateRange_empty|].
  split; [apply getDateRange_valid|].
  split; [apply getDateRange_perm|].
  split; [vm_compute; reflexivity|].
  split; [vm_compute; reflexivity|].
  split; [apply getDateRange_long|].
  split.
  - generalize (N.to_nat 150000). intros n.
    induction n as [|n IH]; [reflexivity|].
    cbn [repeat map]. rewrite IH. reflexivity.
  - apply getDateRange_long. rewrite repeat_length.
    unfold max_arguments, node_spare. lia.
Qed.

(** C7.  When the date of one of the records does not parse, getDateRange
    throws (a RangeError, out of toISOString on the invalid date, or out
    of the spread before that when the list is too long for it) and returns
    no range. *)
Theorem getDateRange_invalid_date host now spare commits c :
  In c commits -> Date_of_string host (date c) = None ->
  getDateRange host now spare commits = Throw RangeError.
Proof. apply getDateRange_throws. Qed.

Lemma getDateRange_invalid_date_witness :
  getDateRange strict_host 0 node_spare
    [commit_dated "2024-01-05"; commit_dated "last Tuesday"]
  = Throw RangeError.
Proof.
  apply (getDateRange_invalid_date strict_host 0 node_spare _
           (commit_dated "last Tuesday")).
  - cbn. auto.
  - vm_compute. reflexivity.
Defined.

(** C10.  The calendar dates are those of the instants in UTC.  Two
    lists of records that denote the same instants give the same range
    however the dates are written.  A range that is returned for records
    has for its start the UTC date of the least of their instants and for
    its end the UTC date of the greatest, and such a range is returned
    whenever all dates parse and the engine takes the arguments; a single
    record gives the UTC date of its instant at both ends.  The instant of
    a date written with an offset is the time written less the offset, so
    the UTC date is not the date written when the offset carries the time
    over midnight: a newest commit dated 2024-01-05T23:30:00-05:00, which is
    04:30 UTC on the next day, makes the range end on 2024-01-06 although
    its date field starts 2024-01-05. *)
Theorem getDateRange_utc host now spare :
  (forall commits commits',
     map (fun c => Date_of_string host (date c)) commits
     = map (fun c => Date_of_string host (date c)) commits' ->
     getDateRange host now spare commits
     = getDateRange host now spare commits')
  /\ (forall commits r,
        commits <> [] -> getDateRange host now spare commits = Ok r ->
        exists times tmin tmax,
          map (fun c => Date_of_string host (date c)) commits = map Some times
          /\ is_min tmin times /\ is_max tmax times
          /\ r = mkDateRange (utc_date tmin) (utc_date tmax))
  /\ (forall commits times,
        commits <> [] -> length commits <= max_arguments spare ->
        map (fun c => Date_of_string host (date c)) commits = map Some times ->
        exists tmin tmax,
          is_min tmin times /\ is_max tmax times
          /\ getDateRange host now spare commits
             = Ok (mkDateRange (utc_date tmin) (utc_date tmax)))
  /\ (forall c t,
        Date_of_string host (date c) = Some t ->
        getDateRange host now spare [c]
        = Ok (mkDateRange (utc_date t) (utc_date t)))
  /\ (forall y mo d h mi s west oh om,
        git_date_ok y mo d h mi s oh om = true ->
        Date_of_string host (git_date y mo d h mi s west oh om)
        = Some (git_instant y mo d h mi s west oh om))
  /\ Date_of_string host (lit "2024-01-05T23:30:00-05:00")
     = Date_of_string host (lit "2024-01-06T04:30:00Z")
  /\ getDateRange host now spare
       [commit_dated "2024-01-05T23:30:00-05:00";
        commit_dated "2024-01-02T10:00:00Z"]
     = Ok (mkDateRange (lit "2024-01-02") (lit "2024-01-06"))
  /\ getDateRange host now spare
       [commit_dated "2024-01-02T10:00:00Z";
        commit_dated "2024-01-05T23:30:00-05:00"]
     = Ok (mkDateRange (lit "2024-01-02") (lit "2024-01-06"))
  /\ firstn 10 (date (commit_dated "2024-01-05T23:30:00-05:00"))
     = lit "2024-01-05".
Proof.
  split; [apply getDateRange_instants|].
  split.
  { intros commits r Hne H.
    destruct (getDateRange_returned host now spare commits r Hne H)
      as (times & tmin & tmax & E & _ & Hmin & Hmax & R).
    now exists times, tmin, tmax. }
  split; [apply getDateRange_valid|].
  split.
  { intros c t H.
    destruct (getDateRange_valid host now spare [c] [t])
      as (tmin & tmax & Hmin & Hmax & E).
    - discriminate.
    - unfold max_arguments. cbn [length]. lia.
    - cbn [map]. now rewrite H.
    - destruct Hmin as [[<-|[]] _], Hmax as [[<-|[]] _]. exact E. }
  split; [intros; now apply Date_of_string_git_date|].
  repeat split; vm_compute; reflexivity.
Qed.

(** ** The reply parser *)

Example JSON_parse_nested :
  JSON_parse (dq " {'a': [1, -2.50e+3, true, null, 'x'], 'b': {}, 'a': false} ")
  = Ok (VObject [ (lit "a", VBool false); (lit "b", VObject []) ]).
Proof. vm_compute. reflexivity. Qed.

Example JSON_parse_rejects :
  map JSON_parse [dq "[1,]"; dq "{'a':1,}"; dq "01"; dq "[1 2]"; dq "'abc";
                  dq "tru"; dq "1."; dq "{a:1}"; dq ""]
  = repeat (Throw SyntaxError) 9.
Proof. vm_compute. reflexivity. Qed.

Example ToBoolean_small_numbers :
  map ToBoolean [VNumber false 0 0; VNumber true 0 0; VNumber false 0 9;
                 VNumber false 5 (-324); VNumber false 2 (-324)]
  = [false; false; false; true; false].
Proof. vm_compute. reflexivity. Qed.

Example regexp_match_greedy :
  regexp_match (lit "a } {b{ c} d} e {") = Some (lit "{b{ c} d}").
Proof. reflexivity. Qed.

Section ReplyFacts.

(** *** The regular expression *)

Ltac in_app := repeat (rewrite in_app_iff || cbn [In app]); auto 10.

Lemma up_to_last_brace_Some s m :
  up_to_last_brace s = Some m ->
  exists b c, m = b ++ [125%N] /\ s = m ++ c /\ ~ In 125%N c.
Proof.
  revert m. induction s as [|x s IH]; intros m H; cbn in H; [discriminate|].
  destruct (up_to_last_brace s) as [m'|] eqn:E.
  - injection H as <-. destruct (IH m' eq_refl) as (b & c & -> & Hs & Hc).
    exists (x :: b), c. cbn. now rewrite Hs at 1.
  - destruct (cu_eqb x 125) eqn:X; [|discriminate]. injection H as <-.
    apply cu_eqb_eq in X. subst x. exists [], s. cbn.
    split; [reflexivity|]. split; [reflexivity|].
    clear IH. induction s as [|y s IHs]; [tauto|]. cbn in E.
    destruct (up_to_last_brace s); [discriminate|].
    destruct (cu_eqb y 125) eqn:Y; [discriminate|].
    intros [->|Hin]; [|now apply IHs].
    unfold cu_eqb in Y. now rewrite N.eqb_refl in Y.
Qed.

Lemma up_to_last_brace_None s :
  up_to_last_brace s = None -> ~ In 125%N s.
Proof.
  induction s as [|y s IH]; cbn; [tauto|].
  destruct (up_to_last_brace s); [discriminate|].
  destruct (cu_eqb y 125) eqn:Y; [discriminate|].
  intros _ [->|Hin]; [|now apply IH].
  unfold cu_eqb in Y. now rewrite N.eqb_refl in Y.
Qed.

Lemma up_to_last_brace_app b c :
  exists m, up_to_last_brace (b ++ [125%N] ++ c) = Some m.
Proof.
  induction b as [|x b [m IH]]; cbn.
  - destruct (up_to_last_brace c); eauto.
  - cbn in IH. rewrite IH. eauto.
Qed.

Lemma regexp_match_None s : regexp_match s = None -> ~ has_brace_span s.
Proof.
  induction s as [|x s IH]; intros H (a & b & c & E).
  - destruct a; discriminate.
  - cbn in H. destruct (cu_eqb x 123) eqn:X.
    + destruct (up_to_last_brace s) as [m|] eqn:U; [discriminate|].
      apply up_to_last_brace_None in U. apply U.
      destruct a as [|y a]; injection E as _ ->; in_app.
    + destruct a as [|y a]; injection E as -> E.
      * unfold cu_eqb in X. now rewrite N.eqb_refl in X.
      * apply (IH H). now exists a, b, c.
Qed.

Lemma regexp_match_Some s m :
  regexp_match s = Some m -> first_to_last_brace s m.
Proof.
  revert m. induction s as [|x s IH]; intros m H; [discriminate|].
  cbn in H. destruct (cu_eqb x 123) eqn:X.
  - apply cu_eqb_eq in X. subst x.
    destruct (up_to_last_brace s) as [m'|] eqn:U.
    + injection H as <-.
      destruct (up_to_last_brace_Some _ _ U) as (b & c & -> & Hs & Hc).
      exists [], b, c. cbn. rewrite Hs at 1. now rewrite <- app_assoc.
    + cbn in H. apply up_to_last_brace_None in U.
      destruct (IH m H) as (a & b & c & -> & -> & _). exfalso. apply U.
      in_app.
  - destruct (IH m H) as (a & b & c & -> & -> & Ha & Hc).
    exists (x :: a), b, c. repeat split; try assumption.
    intros [E|Hin]; [|tauto]. subst x.
    unfold cu_eqb in X. now rewrite N.eqb_refl in X.
Qed.

(** *** JSON.parse of a text that starts with a brace *)

Lemma bottom_any stack d : bottom stack false = true -> bottom stack d = true.
Proof. destruct stack as [|[|] outer]; cbn; [discriminate|auto|auto]. Qed.

Lemma complete_rooted v stack :
  rooted (complete v stack) = bottom stack (is_object v).
Proof. destruct stack as [|[|] outer]; reflexivity. Qed.

Lemma start_value_rooted t stack st :
  start_value t stack = Some st -> bottom stack false = true ->
  rooted st = true.
Proof.
  intros H B. destruct t; cbn in H; try discriminate; injection H as <-;
    rewrite ?complete_rooted; cbn; auto using bottom_any.
Qed.

Lemma pstep_rooted st t st' :
  pstep st t = Some st' -> rooted st = true -> rooted st' = true.
Proof.
  intros H R.
  destruct st; cbn in H, R; try discriminate;
    try (now apply (start_value_rooted t stack));
    destruct t; try discriminate;
    try (now apply (start_value_rooted _ _ _ H));
    injection H as <-; rewrite ?complete_rooted; cbn; auto using bottom_any.
Qed.

Lemma parse_tokens_rooted ts st v :
  rooted st = true -> parse_tokens st ts = Some v -> is_object v = true.
Proof.
  revert st. induction ts as [|t ts IH]; intros st R H; cbn in H.
  - destruct st; try discriminate. now injection H as <-.
  - destruct (pstep st t) as [st'|] eqn:E; [|discriminate].
    cbn in H. exact (IH st' (pstep_rooted _ _ _ E R) H).
Qed.

(** A text that starts with an opening brace parses to an object or not
    at all. *)
Lemma JSON_parse_brace r v :
  JSON_parse (123%N :: r) = Ok v -> exists members, v = VObject members.
Proof.
  unfold JSON_parse. cbn [lex]. change (lex_step LIdle 123%N) with
    (Some (LIdle, [TLBrace])). cbn [obind].
  destruct (lex LIdle r) as [ts|]; cbn [obind app]; [|discriminate].
  change (parse_tokens (PValue []) (TLBrace :: ts))
    with (parse_tokens (PFirstKey []) ts).
  destruct (parse_tokens (PFirstKey []) ts) as [w|] eqn:E; [|discriminate].
  intros [= <-]. apply parse_tokens_rooted in E; [|reflexivity].
  destruct w; try discriminate. eauto.
Qed.

End ReplyFacts.

(** *** The claims about parseClaudeResponse *)

Lemma Get_category members c :
  Get (VObject members) (category_key c)
  = Ok (match own_property (category_key c) members with
        | Some v => v
        | None => VUndefined
        end).
Proof.
  cbn [Get]. destruct (own_property (category_key c) members);
    [reflexivity|]. now destruct c.
Qed.

Lemma items_of_eq members c :
  logical_or (match own_property (category_key c) members with
              | Some v => v
              | None => VUndefined
              end) (VArray [])
  = items_of members c.
Proof.
  unfold items_of. now destruct (own_property (category_key c) members).
Qed.

Lemma parseClaudeResponse_object text span members :
  regexp_match text = Some span -> JSON_parse span = Ok (VObject members) ->
  parseClaudeResponse text
  = Ok (map (fun c => mkDigestSection c (items_of members c))
          [features; fixes; improvements; other]).
Proof.
  intros Hm Hp. unfold parseClaudeResponse. rewrite Hm, Hp. cbn [bind].
  change (lit "features") with (category_key features).
  change (lit "fixes") with (category_key fixes).
  change (lit "improvements") with (category_key improvements).
  change (lit "other") with (category_key other).
  rewrite !Get_category. cbn [bind]. now rewrite !items_of_eq.
Qed.

Lemma parsed_span_object text span v :
  regexp_match text = Some span -> JSON_parse span = Ok v ->
  exists members, v = VObject members.
Proof.
  intros Hm Hp. destruct (regexp_match_Some _ _ Hm) as (a & b & c & _ & E & _).
  subst span. exact (JSON_parse_brace _ _ Hp).
Qed.

(** C2, as amended.  Whenever parseClaudeResponse returns, it returns
    four sections, features, fixes, improvements, other, in this order,
    read off the object that the span between the braces parses to: a
    category whose key is absent, or present with a falsy value, has the
    empty sequence; a category whose key holds an array has that array, in
    its order; any other truthy value is passed on as it is; no other key
    of the payload matters. *)
Theorem parseClaudeResponse_sections text sections :
  parseClaudeResponse text = Ok sections ->
  exists span members,
    regexp_match text = Some span
    /\ JSON_parse span = Ok (VObject members)
    /\ sections
       = map (fun c => mkDigestSection c (items_of members c))
           [features; fixes; improvements; other]
    /\ forall c,
         (own_property (category_key c) members = None ->
          items_of members c = VArray [])
         /\ (forall v, own_property (category_key c) members = Some v ->
                       ToBoolean v = false -> items_of members c = VArray [])
         /\ (forall l, own_property (category_key c) members = Some (VArray l) ->
                       items_of members c = VArray l)
         /\ (forall v, own_property (category_key c) members = Some v ->
                       ToBoolean v = true -> items_of members c = v).
Proof.
  intros H. destruct (regexp_match text) as [span|] eqn:Hm.
  2:{ unfold parseClaudeResponse in H. now rewrite Hm in H. }
  destruct (JSON_parse span) as [data|e] eqn:Hp.
  2:{ unfold parseClaudeResponse in H. now rewrite Hm, Hp in H. }
  destruct (parsed_span_object _ _ _ Hm Hp) as [members ->].
  rewrite (parseClaudeResponse_object _ _ _ Hm Hp) in H. injection H as <-.
  exists span, members.
  split; [reflexivity|]. split; [exact Hp|]. split; [reflexivity|].
  intros c. unfold items_of, logical_or.
  split; [now intros ->|]. split; [now intros v -> ->|].
  split; [now intros l ->|now intros v -> ->].
Qed.

Lemma parseClaudeResponse_sections_witness :
  exists span members,
    regexp_match reply_example = Some span
    /\ JSON_parse span = Ok (VObject members)
    /\ [ mkDigestSection features (VArray [VString (lit "A")]);
         mkDigestSection fixes (VArray []);
         mkDigestSection improvements (VArray []);
         mkDigestSection other (VArray []) ]
       = map (fun c => mkDigestSection c (items_of members c))
           [features; fixes; improvements; other]
    /\ forall c,
         (own_property (category_key c) members = None ->
          items_of members c = VArray [])
         /\ (forall v, own_property (category_key c) members = Some v ->
                       ToBoolean v = false -> items_of members c = VArray [])
         /\ (forall l, own_property (category_key c) members = Some (VArray l) ->
                       items_of members c = VArray l)
         /\ (forall v, own_property (category_key c) members = Some v ->
                       ToBoolean v = true -> items_of members c = v).
Proof.
  apply (parseClaudeResponse_sections reply_example).
  vm_compute. reflexivity.
Defined.

(** C2 as the specification words it fails on a reply whose [features]
    is a string: parseClaudeResponse returns, and the items of the first
    section are that string, not a sequence of strings. *)
Lemma parseClaudeResponse_not_a_list :
  parseClaudeResponse reply_not_a_list
  = Ok [ mkDigestSection features (VString (lit "none this week"));
         mkDigestSection fixes (VArray [VString (lit "Login works again.")]);
         mkDigestSection improvements (VArray []);
         mkDigestSection other (VArray []) ]
  /\ is_string_array (VString (lit "none this week")) = false.
Proof. split; vm_compute; reflexivity. Qed.

(** C3, as amended.  A reply without an opening brace followed by a
    closing brace makes parseClaudeResponse throw its own error.  Otherwise
    the span runs from the first opening brace to the last closing brace;
    when JSON.parse rejects the span, parseClaudeResponse throws the
    SyntaxError of JSON.parse, and only when the span parses does it
    return. *)
Theorem parseClaudeResponse_failure text :
  match regexp_match text with
  | None =>
      ~ has_brace_span text /\ parseClaudeResponse text = Throw unparseable
  | Some span =>
      first_to_last_brace text span
      /\ match JSON_parse span with
         | Throw e =>
             e = SyntaxError /\ parseClaudeResponse text = Throw SyntaxError
         | Ok _ => exists sections, parseClaudeResponse text = Ok sections
         end
  end.
Proof.
  destruct (regexp_match text) as [span|] eqn:Hm.
  - split; [now apply regexp_match_Some|].
    destruct (JSON_parse span) as [data|e] eqn:Hp.
    + destruct (parsed_span_object _ _ _ Hm Hp) as [members ->].
      eexists. exact (parseClaudeResponse_object _ _ _ Hm Hp).
    + assert (e = SyntaxError) as ->.
      { unfold JSON_parse in Hp.
        destruct (ts <-? lex LIdle span;; parse_tokens (PValue []) ts);
          congruence. }
      split; [reflexivity|]. unfold parseClaudeResponse. now rewrite Hm, Hp.
  - split; [now apply regexp_match_None|].
    unfold parseClaudeResponse. now rewrite Hm.
Qed.

(** C3 as the specification words it fails on a reply whose span is not
    valid JSON (a comma before the closing brace): the error thrown is the
    SyntaxError of JSON.parse, not the error parseClaudeResponse makes. *)
Lemma parseClaudeResponse_trailing_comma :
  regexp_match reply_trailing_comma = Some (dq "{'features':['A'],}")
  /\ parseClaudeResponse reply_trailing_comma = Throw SyntaxError
  /\ SyntaxError <> unparseable.
Proof. repeat split; try (vm_compute; reflexivity). discriminate. Qed.

(** *** The claim about the audience *)

(** C8 holds for the selectors that name nothing on Object.prototype and
    fails for those that do: a selector outside the closed set that names
    no inherited property, and an absent one, get the general framing; the
    selector [constructor] gets the built-in function of that name, which
    is not the general framing. *)
Theorem audienceGuidance_inherited :
  audienceGuidance (Some (lit "constructor"))
  = Ok (VBuiltin (lit "constructor"))
  /\ existsb (jsstring_eqb (lit "constructor")) audiences = false
  /\ audienceGuidance (Some (lit "general")) = Ok general_guidance
  /\ audienceGuidance None = Ok general_guidance
  /\ (forall a,
        existsb (jsstring_eqb a) audiences = false ->
        existsb (jsstring_eqb a) Object_prototype_names = false ->
        audienceGuidance (Some a) = Ok general_guidance)
  /\ (forall a,
        existsb (jsstring_eqb a) Object_prototype_names = true ->
        audienceGuidance (Some a) = Ok (VBuiltin a)).
Proof.
  assert (Hown : forall a, existsb (jsstring_eqb a) audiences = false ->
            own_property a
              match AUDIENCE_PROMPTS with VObject m => m | _ => [] end = None).
  { intros a H. cbn [AUDIENCE_PROMPTS own_property].
    cbn [audiences map existsb] in H.
    repeat (apply orb_false_elim in H; destruct H as [? H]).
    rewrite !(jsstring_eqb_sym _ a).
    repeat match goal with E : jsstring_eqb a _ = false |- _ =>
      rewrite E; clear E end.
    reflexivity. }
  repeat split; try (vm_compute; reflexivity).
  - intros a Ha Hp. unfold audienceGuidance, Get, AUDIENCE_PROMPTS.
    change (own_property a _) with
      (own_property a match AUDIENCE_PROMPTS with VObject m => m | _ => [] end).
    rewrite (Hown a Ha). unfold Object_prototype. rewrite Hp. reflexivity.
  - intros a Hp.
    assert (Ha : existsb (jsstring_eqb a) audiences = false).
    { cbn [Object_prototype_names map existsb] in Hp.
      repeat (apply orb_prop in Hp; destruct Hp as [Hp|Hp]);
        try discriminate;
        apply jsstring_eqb_eq in Hp; subst a; reflexivity. }
    unfold audienceGuidance, Get, AUDIENCE_PROMPTS.
    change (own_property a _) with
      (own_property a match AUDIENCE_PROMPTS with VObject m => m | _ => [] end).
    rewrite (Hown a Ha). unfold Object_prototype. rewrite Hp. reflexivity.
Qed.

(** * Further properties *)

(** ** parseGitLog on every input *)

Section ParseGitLogMore.

Lemma forallb_firstn {A} (f : A -> bool) n l :
  forallb f l = true -> forallb f (firstn n l) = true.
Proof.
  revert n. induction l as [|x l IH]; intros [|n] H; cbn in *; try reflexivity.
  apply andb_prop in H. destruct H as [-> H]. cbn. now apply IH.
Qed.

Lemma forallb_skipn {A} (f : A -> bool) n l :
  forallb f l = true -> forallb f (skipn n l) = true.
Proof.
  revert n. induction l as [|x l IH]; intros [|n] H; cbn in *; try easy.
  apply andb_prop in H. destruct H as [_ H]. now apply IH.
Qed.

(** The parts of a whitespace-only string are whitespace only. *)
Lemma split_blank S R : blank S = true -> forallb blank (split S R) = true.
Proof.
  intros H. destruct R as [|r R].
  - unfold split. induction S as [|c S IH]; [reflexivity|].
    cbn in *. apply andb_prop in H. destruct H as [-> H]. cbn. now apply IH.
  - destruct S as [|c S]; [reflexivity|]. unfold split.
    remember (length (c :: S)) as fuel eqn:E. clear E.
    remember (c :: S) as T eqn:E. clear E c S. revert T H.
    induction fuel as [|fuel IH]; intros T H; cbn [split_loop forallb].
    + now rewrite H.
    + destruct (string_index_of T (r :: R)) as [j|]; cbn [forallb].
      * rewrite (forallb_firstn is_ws j T H : blank (firstn j T) = true).
        apply IH. now apply forallb_skipn.
      * now rewrite H.
Qed.

Lemma filter_blank (chunks : list jsstring) :
  forallb blank chunks = true ->
  filter (fun c => truthy_string (trim c)) chunks = [].
Proof.
  induction chunks as [|c chunks IH]; intros H; [reflexivity|].
  cbn in H. apply andb_prop in H. destruct H as [Hc H].
  cbn [filter]. rewrite truthy_trim, Hc. cbn. now apply IH.
Qed.

(** A whitespace-only log holds no record. *)
Lemma parseGitLog_blank raw cs fs :
  blank raw = true -> parseGitLog raw cs fs = Ok [].
Proof.
  intros H. unfold parseGitLog.
  now rewrite (filter_blank _ (split_blank raw cs H)).
Qed.

(** One round of the loop appends nothing or one record that is in
    order. *)
Lemma parse_chunk_record fs commits c :
  parse_chunk fs commits c = Ok commits
  \/ exists r, parse_chunk fs commits c = Ok (commits ++ [r]) /\ record_ok r.
Proof.
  unfold parse_chunk.
  destruct (split c fs) as [|h [|d [|a [|m bodyParts]]]]; cbn;
    try (now left).
  right. eexists. split; [reflexivity|]. unfold record_ok. cbn.
  repeat split; try apply trim_is_trimmed. apply or_undefined_trim_ok.
Qed.

Lemma for_of_parse_chunk_ok fs chunks commits :
  Forall record_ok commits ->
  exists commits',
    for_of (parse_chunk fs) chunks commits = Ok commits'
    /\ Forall record_ok commits'.
Proof.
  revert commits. induction chunks as [|c chunks IH]; intros commits H.
  - exists commits. now split.
  - cbn [for_of].
    destruct (parse_chunk_record fs commits c) as [->|(r & -> & Hr)];
      cbn [bind].
    + now apply IH.
    + apply IH. apply Forall_app. split; [exact H|]. now constructor.
Qed.

Lemma record_okb_ok c : record_okb c = true -> record_ok c.
Proof.
  unfold record_okb, record_ok, body_ok. intros H.
  apply andb_prop in H. destruct H as [H Hb].
  apply andb_prop in H. destruct H as [H Hm].
  apply andb_prop in H. destruct H as [H Ha].
  apply andb_prop in H. destruct H as [Hh Hd].
  repeat (split; [assumption|]).
  destruct (body c) as [b|]; [|exact I].
  apply andb_prop in Hb. destruct Hb as [Hne Ht].
  split; [now destruct b|exact Ht].
Qed.

Lemma commit_of_entry_of_commit fs c :
  record_ok c -> commit_of_entry fs (entry_of_commit c) = c.
Proof.
  intros (Hh & Hd & Ha & Hm & Hb). destruct c as [h d a m b].
  unfold commit_of_entry, entry_of_commit.
  cbn [hash date author message body e_hash e_date e_author e_subject
       e_rest] in *.
  rewrite !trim_trimmed by assumption. f_equal.
  destruct b as [b|]; [|reflexivity].
  destruct Hb as [Hne Ht]. cbn [join]. rewrite trim_trimmed by exact Ht.
  now destruct b.
Qed.

Lemma parseGitLog_records_ok_aux raw :
  exists commits, parseGitLog raw SEPARATOR FIELD_SEPARATOR = Ok commits.
Proof.
  unfold parseGitLog.
  destruct (for_of_parse_chunk_ok FIELD_SEPARATOR
              (filter (fun c => truthy_string (trim c)) (split raw SEPARATOR))
              []) as (commits & E & _); [constructor|].
  now exists commits.
Qed.

End ParseGitLogMore.

(** X1.  Whatever the blob and the separators, every record that
    parseGitLog returns has a hash, a date, an author and a message
    without whitespace at either end, and a body that is absent or
    non-empty and trimmed: an empty body is never kept as the empty
    string. *)
Theorem parseGitLog_records_ok raw cs fs :
  exists commits,
    parseGitLog raw cs fs = Ok commits /\ Forall record_ok commits.
Proof.
  unfold parseGitLog.
  destruct (for_of_parse_chunk_ok fs
              (filter (fun c => truthy_string (trim c)) (split raw cs)) [])
    as (commits & E & H); [constructor|].
  exists commits. now split.
Qed.

(** X2.  Writing records back and parsing again gives the records:
    for records that are in order (trimmed fields, a body that is absent or
    non-empty and trimmed) and whose entries are well formed for the
    separators, parseGitLog of the entries joined by the separators, with
    or without a separator at the end, returns exactly these records. *)
Theorem parseGitLog_render_roundtrip cs fs commits trailing :
  cs <> [] -> fs <> [] ->
  forallb record_okb commits = true ->
  forallb (entry_ok cs fs) (map entry_of_commit commits) = true ->
  parseGitLog (render_log cs fs (map entry_of_commit commits) trailing) cs fs
  = Ok commits.
Proof.
  intros Hcs Hfs Hok Hwf.
  rewrite (parseGitLog_render cs fs Hcs Hfs _ trailing Hwf).
  f_equal. rewrite map_map.
  induction commits as [|c commits IH]; [reflexivity|].
  cbn [forallb map] in *.
  apply andb_prop in Hok. destruct Hok as [Hc Hok].
  apply andb_prop in Hwf. destruct Hwf as [_ Hwf].
  rewrite (commit_of_entry_of_commit fs c (record_okb_ok c Hc)).
  f_equal. now apply IH.
Qed.

Lemma parseGitLog_render_roundtrip_witness :
  parseGitLog
    (render_log SEPARATOR FIELD_SEPARATOR
       (map entry_of_commit sample_commits) false)
    SEPARATOR FIELD_SEPARATOR
  = Ok sample_commits.
Proof.
  apply (parseGitLog_render_roundtrip SEPARATOR FIELD_SEPARATOR
           sample_commits false).
  - discriminate.
  - discriminate.
  - vm_compute. reflexivity.
  - vm_compute. reflexivity.
Defined.

(** ** getCommits *)

Section GetCommits.

Variable simpleGit : jsstring -> result SimpleGit.
Variables repoPath since : jsstring.

(** On a repository getCommits is parseGitLog of the log, blank or not. *)
Lemma getCommits_repository git log :
  simpleGit repoPath = Ok git -> checkIsRepo git = Ok true ->
  raw git (log_args since) = Ok log ->
  getCommits simpleGit repoPath since
  = parseGitLog log SEPARATOR FIELD_SEPARATOR.
Proof.
  intros Hg Hc Hr. unfold getCommits. rewrite Hg. cbn [bind].
  rewrite Hc. cbn [bind negb]. rewrite Hr. cbn [bind].
  rewrite truthy_trim, negb_involutive.
  destruct (blank log) eqn:B; [|reflexivity].
  symmetry. now apply parseGitLog_blank.
Qed.

Lemma includes_cons_other c X r R :
  cu_eqb r c = false -> includes (c :: X) (r :: R) = includes X (r :: R).
Proof.
  intros H. unfold includes. rewrite (string_index_of_eq (c :: X)).
  cbn [starts_with]. rewrite H. cbn [andb].
  now destruct (string_index_of X (r :: R)).
Qed.

Lemma render_after_newline e :
  render_entry FIELD_SEPARATOR (after_newline e)
  = 10%N :: render_entry FIELD_SEPARATOR e.
Proof.
  unfold render_entry, entry_fields, after_newline.
  cbn [e_hash e_date e_author e_subject e_rest].
  now rewrite !(join_cons _ (_ :: _)) by easy.
Qed.

Lemma entry_ok_after_newline e :
  entry_ok SEPARATOR FIELD_SEPARATOR (after_newline e)
  = entry_ok SEPARATOR FIELD_SEPARATOR e.
Proof.
  unfold entry_ok. rewrite render_after_newline.
  assert (Hf : forall X, sep_free FIELD_SEPARATOR (10%N :: X)
                         = sep_free FIELD_SEPARATOR X).
  { intros X. unfold sep_free. cbn [app]. f_equal.
    now apply includes_cons_other. }
  assert (Hs : forall X, sep_free SEPARATOR (10%N :: X) = sep_free SEPARATOR X).
  { intros X. unfold sep_free. cbn [app]. f_equal.
    now apply includes_cons_other. }
  cbn [after_newline e_hash e_date e_author e_subject].
  now rewrite Hf, Hs.
Qed.

Lemma commit_of_entry_after_newline e :
  commit_of_entry FIELD_SEPARATOR (after_newline e)
  = commit_of_entry FIELD_SEPARATOR e.
Proof. reflexivity. Qed.

Lemma entries_ok_after_newline es :
  forallb (entry_ok SEPARATOR FIELD_SEPARATOR) (map after_newline es)
  = forallb (entry_ok SEPARATOR FIELD_SEPARATOR) es.
Proof.
  induction es as [|e es IH]; [reflexivity|].
  cbn [map forallb]. now rewrite entry_ok_after_newline, IH.
Qed.

(** The log of git, read as entries joined by the commit separator with
    one more at the end: the line feeds go in front of the hashes. *)
Lemma git_log_render e es :
  git_log (e :: es)
  = render_log SEPARATOR FIELD_SEPARATOR (e :: map after_newline es) true.
Proof.
  assert (H : forall es e,
    10%N :: git_log (e :: es)
    = render_log SEPARATOR FIELD_SEPARATOR (map after_newline (e :: es)) true).
  { clear e es. induction es as [|e' es IH]; intros e.
    - unfold git_log, render_log, git_chunk. cbn [map join].
      now rewrite render_after_newline.
    - unfold git_log, render_log in *. cbn [map] in *.
      rewrite !(join_cons _ (_ :: _)) by easy.
      rewrite render_after_newline. unfold git_chunk at 1.
      cbn [app]. f_equal. rewrite <- !app_assoc. f_equal. f_equal.
      apply IH. }
  destruct es as [|e' es].
  - reflexivity.
  - unfold git_log, render_log. cbn [map].
    rewrite !(join_cons _ (_ :: _)) by easy. unfold git_chunk at 1.
    rewrite <- !app_assoc. f_equal. f_equal. apply (H es e').
Qed.

End GetCommits.

(** X3.  getCommits throws what the git client throws (at its
    construction, at the repository check or at the log command) and, when
    the check says no, its own not-a-repository error; on a repository it
    returns, for every log text, what parseGitLog makes of it with the two
    separators (the test for an empty log changes nothing), and it never
    throws on account of the text. *)
Theorem getCommits_outcome simpleGit repoPath since :
  match simpleGit repoPath with
  | Throw e => getCommits simpleGit repoPath since = Throw e
  | Ok git =>
      match checkIsRepo git with
      | Throw e => getCommits simpleGit repoPath since = Throw e
      | Ok false =>
          getCommits simpleGit repoPath since
          = Throw (not_a_repository repoPath)
      | Ok true =>
          match raw git (log_args since) with
          | Throw e => getCommits simpleGit repoPath since = Throw e
          | Ok log =>
              getCommits simpleGit repoPath since
              = parseGitLog log SEPARATOR FIELD_SEPARATOR
              /\ exists commits,
                  getCommits simpleGit repoPath since = Ok commits
          end
      end
  end.
Proof.
  destruct (simpleGit repoPath) as [git|e] eqn:Hg.
  2:{ unfold getCommits. now rewrite Hg. }
  destruct (checkIsRepo git) as [[|]|e] eqn:Hc.
  - destruct (raw git (log_args since)) as [log|e] eqn:Hr.
    + rewrite (getCommits_repository _ _ _ git log Hg Hc Hr).
      split; [reflexivity|].
      destruct (parseGitLog_records_ok_aux log) as [commits E].
      now exists commits.
    + unfold getCommits. rewrite Hg. cbn [bind]. rewrite Hc.
      cbn [bind negb]. now rewrite Hr.
  - unfold getCommits. rewrite Hg. cbn [bind]. now rewrite Hc.
  - unfold getCommits. rewrite Hg. cbn [bind]. now rewrite Hc.
Qed.

(** X4.  On a repository whose log is what git prints for the format
    asked (each commit followed by the commit separator, a line feed
    between two commits), with well-formed entries, getCommits returns one
    record per commit, in order, each field trimmed: the line feeds between
    the commits end up in no hash. *)
Theorem getCommits_git_log simpleGit repoPath since git es :
  simpleGit repoPath = Ok git -> checkIsRepo git = Ok true ->
  raw git (log_args since) = Ok (git_log es) ->
  forallb (entry_ok SEPARATOR FIELD_SEPARATOR) es = true ->
  getCommits simpleGit repoPath since
  = Ok (map (commit_of_entry FIELD_SEPARATOR) es).
Proof.
  intros Hg Hc Hr Hwf.
  rewrite (getCommits_repository _ _ _ git _ Hg Hc Hr).
  destruct es as [|e es]; [reflexivity|].
  rewrite git_log_render.
  rewrite parseGitLog_render; try discriminate.
  - cbn [map]. f_equal. f_equal. rewrite map_map.
    apply map_ext. intros e'. apply commit_of_entry_after_newline.
  - cbn [forallb] in *. apply andb_prop in Hwf. destruct Hwf as [-> Hwf].
    cbn [andb]. now rewrite entries_ok_after_newline.
Qed.

Lemma getCommits_git_log_witness :
  getCommits (repo_with_log (git_log git_entries)) (lit ".") (lit "7 days ago")
  = Ok (map (commit_of_entry FIELD_SEPARATOR) git_entries).
Proof.
  apply (getCommits_git_log (repo_with_log (git_log git_entries)) (lit ".")
           (lit "7 days ago")
           (mkSimpleGit (Ok true) (fun _ => Ok (git_log git_entries)))
           git_entries).
  - reflexivity.
  - reflexivity.
  - reflexivity.
  - vm_compute. reflexivity.
Defined.

(** ** The span between the braces *)

Section SpanFacts.

Lemma up_to_last_brace_none c : ~ In 125%N c -> up_to_last_brace c = None.
Proof.
  induction c as [|x c IH]; intros H; [reflexivity|].
  cbn. rewrite IH by (intros Hin; apply H; now right).
  destruct (cu_eqb x 125) eqn:X; [|reflexivity].
  apply cu_eqb_eq in X. subst x. exfalso. apply H. now left.
Qed.

Lemma up_to_last_brace_last b c :
  ~ In 125%N c -> up_to_last_brace (b ++ [125%N] ++ c) = Some (b ++ [125%N]).
Proof.
  intros H. induction b as [|x b IH]; cbn.
  - now rewrite (up_to_last_brace_none c H).
  - cbn in IH. now rewrite IH.
Qed.

(** The span that runs from the first opening brace to the last closing
    brace is the match. *)
Lemma regexp_match_first_to_last text span :
  first_to_last_brace text span -> regexp_match text = Some span.
Proof.
  intros (a & b & c & -> & -> & Ha & Hc).
  induction a as [|x a IH].
  - cbn [app regexp_match match_here]. cbn [cu_eqb N.eqb Pos.eqb].
    rewrite <- app_assoc.
    now rewrite (up_to_last_brace_last b c Hc).
  - assert (X : cu_eqb x 123 = false).
    { destruct (cu_eqb x 123) eqn:X; [|reflexivity].
      apply cu_eqb_eq in X. subst x. exfalso. apply Ha. now left. }
    cbn [app]. cbn [regexp_match match_here]. rewrite X.
    apply IH. intros Hin. apply Ha. now right.
Qed.

End SpanFacts.

(** X5.  Commentary around the payload is skipped: when the reply is
    some text without an opening brace, then a span from an opening brace
    to a closing brace, then some text without a closing brace, the span is
    what gets parsed, and the result (sections or error) is that of the span
    alone. *)
Theorem parseClaudeResponse_commentary text span :
  first_to_last_brace text span ->
  regexp_match text = Some span
  /\ parseClaudeResponse text = parseClaudeResponse span.
Proof.
  intros H. pose proof (regexp_match_first_to_last text span H) as Hm.
  split; [exact Hm|].
  assert (Hs : regexp_match span = Some span).
  { destruct H as (a & b & c & _ & E & _).
    apply regexp_match_first_to_last. exists [], b, [].
    rewrite app_nil_r. repeat split; auto. }
  unfold parseClaudeResponse. now rewrite Hm, Hs.
Qed.

Lemma parseClaudeResponse_commentary_witness :
  regexp_match reply_example = Some (dq "{'features':['A'],'fixes':[]}")
  /\ parseClaudeResponse reply_example
     = parseClaudeResponse (dq "{'features':['A'],'fixes':[]}").
Proof.
  apply (parseClaudeResponse_commentary reply_example
           (dq "{'features':['A'],'fixes':[]}")).
  exists (lit "Here you go:" ++ [10%N]), (dq "'features':['A'],'fixes':[]"), [].
  split; [reflexivity|]. split; [reflexivity|].
  split; [|intros []].
  vm_compute. intros H.
  repeat (destruct H as [H|H]; [discriminate H|]). exact H.
Defined.

(** ** More about getDateRange *)

Section DateRangeMore.

Variable host : jsstring -> number.
Variable now : Z.

Lemma is_min_unique m m' ts : is_min m ts -> is_min m' ts -> m = m'.
Proof.
  intros [H1 L1] [H2 L2]. apply Z.le_antisymm; auto.
Qed.

Lemma is_max_unique m m' ts : is_max m ts -> is_max m' ts -> m = m'.
Proof.
  intros [H1 L1] [H2 L2]. apply Z.le_antisymm; auto.
Qed.

End DateRangeMore.

(** X6.  When getDateRange returns on commits, every date has parsed;
    the start is the UTC date of the instant of one of the commits, the
    end that of another (or the same), the instant of every commit lies
    between the two, and the day of the start is not after the day of the
    end. *)
Theorem getDateRange_returns host now spare commits r :
  commits <> [] -> getDateRange host now spare commits = Ok r ->
  exists cmin cmax tmin tmax,
    In cmin commits /\ In cmax commits
    /\ Date_of_string host (date cmin) = Some tmin
    /\ Date_of_string host (date cmax) = Some tmax
    /\ r = mkDateRange (utc_date tmin) (utc_date tmax)
    /\ (tmin / msPerDay <= tmax / msPerDay)%Z
    /\ forall c, In c commits ->
         exists t, Date_of_string host (date c) = Some t
                   /\ (tmin <= t <= tmax)%Z.
Proof.
  intros Hne Hr.
  destruct (getDateRange_returned host now spare commits r Hne Hr)
    as (times & tmin & tmax & E & _ & [Imin Lmin] & [Imax Lmax] & ->).
  assert (Hback : forall t, In t times ->
            exists c, In c commits /\ Date_of_string host (date c) = Some t).
  { intros t Hin. apply (in_map Some) in Hin. rewrite <- E in Hin.
    apply in_map_iff in Hin. destruct Hin as (c & Hc & Hin). eauto. }
  destruct (Hback tmin Imin) as (cmin & Hcmin & Ecmin).
  destruct (Hback tmax Imax) as (cmax & Hcmax & Ecmax).
  exists cmin, cmax, tmin, tmax. repeat split; try assumption.
  - apply Z.div_le_mono; [reflexivity|]. now apply Lmin.
  - intros c Hin.
    assert (Hs : In (Date_of_string host (date c)) (map Some times)).
    { rewrite <- E. apply in_map_iff. eauto. }
    apply in_map_iff in Hs. destruct Hs as (t & Et & Ht).
    exists t. split; [now rewrite Et|]. split; [now apply Lmin|now apply Lmax].
Qed.

Lemma getDateRange_returns_witness :
  exists cmin cmax tmin tmax,
    In cmin sample_commits /\ In cmax sample_commits
    /\ Date_of_string strict_host (date cmin) = Some tmin
    /\ Date_of_string strict_host (date cmax) = Some tmax
    /\ mkDateRange (lit "2024-01-06") (lit "2024-01-20")
       = mkDateRange (utc_date tmin) (utc_date tmax)
    /\ (tmin / msPerDay <= tmax / msPerDay)%Z
    /\ forall c, In c sample_commits ->
         exists t, Date_of_string strict_host (date c) = Some t
                   /\ (tmin <= t <= tmax)%Z.
Proof.
  apply (getDateRange_returns strict_host 0 node_spare sample_commits).
  - discriminate.
  - vm_compute. reflexivity.
Defined.

(** X7.  A commit whose instant lies between the least and the
    greatest instant of the others does not move the range, unless it is
    the one argument too many: the others are exactly as many as the engine
    takes arguments in a call, and then the range is lost to a
    RangeError. *)
Theorem getDateRange_between host now spare c commits times t tmin tmax :
  map (fun c => Date_of_string host (date c)) commits = map Some times ->
  is_min tmin times -> is_max tmax times ->
  Date_of_string host (date c) = Some t -> (tmin <= t <= tmax)%Z ->
  (length commits <> max_arguments spare ->
   getDateRange host now spare (c :: commits)
   = getDateRange host now spare commits)
  /\ (length commits = max_arguments spare ->
      getDateRange host now spare commits
      = Ok (mkDateRange (utc_date tmin) (utc_date tmax))
      /\ getDateRange host now spare (c :: commits) = Throw RangeError).
Proof.
  intros E Hmin Hmax Hc Ht.
  assert (Hne : commits <> []).
  { destruct commits; [|discriminate]. destruct times; [|discriminate].
    destruct Hmin as [[] _]. }
  assert (R : length commits <= max_arguments spare ->
              getDateRange host now spare commits
              = Ok (mkDateRange (utc_date tmin) (utc_date tmax))).
  { intros L.
    destruct (getDateRange_valid host now spare commits times Hne L E)
      as (m1 & M1 & Hm1 & HM1 & ->).
    now rewrite (is_min_unique _ _ _ Hmin Hm1), (is_max_unique _ _ _ Hmax HM1). }
  split.
  - intros Hlen.
    destruct (Nat.le_gt_cases (length commits) (max_arguments spare)) as [L|L].
    + rewrite (R L).
      destruct (getDateRange_valid host now spare (c :: commits) (t :: times))
        as (m2 & M2 & Hm2 & HM2 & ->);
        [discriminate|cbn [length]; lia|cbn [map]; now rewrite Hc, E|].
      assert (Hmin' : is_min tmin (t :: times)).
      { destruct Hmin as [I L']. split; [now right|].
        intros x [<-|Hx]; [lia|now apply L']. }
      assert (Hmax' : is_max tmax (t :: times)).
      { destruct Hmax as [I L']. split; [now right|].
        intros x [<-|Hx]; [lia|now apply L']. }
      now rewrite <- (is_min_unique _ _ _ Hmin' Hm2),
                  <- (is_max_unique _ _ _ Hmax' HM2).
    + rewrite !getDateRange_long; [reflexivity|exact L|cbn [length]; lia].
  - intros Hlen. split; [apply R; lia|].
    apply getDateRange_long. cbn [length]. lia.
Qed.

Lemma getDateRange_between_witness :
  (length [commit_dated "2024-01-05"; commit_dated "2024-01-20"]
   <> max_arguments node_spare ->
   getDateRange strict_host 0 node_spare
     (commit_dated "2024-01-10T12:00:00Z"
      :: [commit_dated "2024-01-05"; commit_dated "2024-01-20"])
   = getDateRange strict_host 0 node_spare
       [commit_dated "2024-01-05"; commit_dated "2024-01-20"])
  /\ (length [commit_dated "2024-01-05"; commit_dated "2024-01-20"]
      = max_arguments node_spare ->
      getDateRange strict_host 0 node_spare
        [commit_dated "2024-01-05"; commit_dated "2024-01-20"]
      = Ok (mkDateRange (utc_date 1704412800000) (utc_date 1705708800000))
      /\ getDateRange strict_host 0 node_spare
           (commit_dated "2024-01-10T12:00:00Z"
            :: [commit_dated "2024-01-05"; commit_dated "2024-01-20"])
         = Throw RangeError).
Proof.
  apply (getDateRange_between strict_host 0 node_spare _ _
           [1704412800000; 1705708800000]%Z 1704888000000%Z
           1704412800000%Z 1705708800000%Z).
  - vm_compute. reflexivity.
  - split; [now left|]. intros x [<-|[<-|[]]]; lia.
  - split; [now right; left|]. intros x [<-|[<-|[]]]; lia.
  - vm_compute. reflexivity.
  - lia.
Defined.

(** ** JSON.stringify and JSON.parse *)

Example stringify_two_commits :
  JSON_stringify_commits
    [ mkCommitInfo (lit "a1") (lit "d") (lit "A") (dq "say 'hi'") None;
      mkCommitInfo (lit "b2") (lit "d") (lit "B") (lit "m") (Some [9; 233]%N) ]
  = join
      [ lit "[";
        lit "  {";
        dq "    'hash': 'a1',";
        dq "    'date': 'd',";
        dq "    'author': 'A',";
        lit "    " ++ [34] ++ lit "message" ++ [34] ++ lit ": " ++ [34]
          ++ lit "say \" ++ [34] ++ lit "hi\" ++ [34; 34];
        lit "  },";
        lit "  {";
        dq "    'hash': 'b2',";
        dq "    'date': 'd',";
        dq "    'author': 'B',";
        dq "    'message': 'm',";
        dq "    'body': '\t" ++ [233; 34];
        lit "  }";
        lit "]" ]%N [10%N].
Proof. vm_compute. reflexivity. Qed.

Section Tokens.

Lemma lex_silent mode c mode' r :
  lex_step mode c = Some (mode', []) -> lex mode (c :: r) = lex mode' r.
Proof.
  intros H. cbn [lex]. rewrite H. cbn [obind].
  now destruct (lex mode' r).
Qed.

Lemma lex_emit mode c mode' t r :
  lex_step mode c = Some (mode', [t]) ->
  lex mode (c :: r) = (ts <-? lex mode' r ;; Some (t :: ts)).
Proof. intros H. cbn [lex]. now rewrite H. Qed.

Lemma lexes_nil : lexes [] [].
Proof. intros rest. cbn [app]. now destruct (lex LIdle rest). Qed.

Lemma lexes_app a ta b tb : lexes a ta -> lexes b tb -> lexes (a ++ b) (ta ++ tb).
Proof.
  intros Ha Hb rest. rewrite <- app_assoc, Ha, Hb.
  destruct (lex LIdle rest); cbn [obind]; [|reflexivity].
  now rewrite app_assoc.
Qed.

Lemma lexes_cons c a t ta :
  lex_step LIdle c = Some (LIdle, t) -> lexes a ta -> lexes (c :: a) (t ++ ta).
Proof.
  intros Hc Ha rest. cbn [app lex]. rewrite Hc. cbn [obind].
  rewrite Ha. destruct (lex LIdle rest); cbn [obind]; [|reflexivity].
  now rewrite app_assoc.
Qed.

Lemma lexes_spaces n : lexes (repeat 32%N n) [].
Proof.
  induction n as [|n IH]; [apply lexes_nil|].
  cbn [repeat]. now apply (lexes_cons 32%N _ []).
Qed.

Lemma lexes_newline_indent n : lexes (newline_indent n) [].
Proof. apply (lexes_cons 10%N _ []); [reflexivity|apply lexes_spaces]. Qed.

(** *** Strings *)

Lemma hex_digit_hex_char d : (d < 16)%N -> hex_digit (hex_char d) = Some d.
Proof.
  intros H.
  assert (E : In d [0;1;2;3;4;5;6;7;8;9;10;11;12;13;14;15]%N).
  { cbn [In]. lia. }
  cbn [In] in E.
  repeat (destruct E as [<-|E]; [reflexivity|]). destruct E.
Qed.

Lemma hex_digits_value c :
  (c < 65536)%N ->
  ((((0 * 16 + c / 4096 mod 16) * 16 + c / 256 mod 16) * 16
    + c / 16 mod 16) * 16 + c mod 16 = c)%N.
Proof.
  intros H. zify. Z.to_euclidean_division_equations. lia.
Qed.

Lemma lex_unicode_escape acc c r :
  (c < 65536)%N ->
  lex (LString acc) (unicode_escape c ++ r) = lex (LString (acc ++ [c])) r.
Proof.
  intros H. unfold unicode_escape. cbn [app].
  rewrite (lex_silent _ 92%N (LEscape acc)) by reflexivity.
  rewrite (lex_silent _ 117%N (LHex acc 4 0%N)) by reflexivity.
  assert (B : forall x, (x mod 16 < 16)%N) by (intros x; apply N.mod_lt; lia).
  rewrite (lex_silent _ _ (LHex acc 3 (0 * 16 + c / 4096 mod 16)%N))
    by (cbn [lex_step]; now rewrite hex_digit_hex_char by apply B).
  rewrite (lex_silent _ _
             (LHex acc 2 ((0 * 16 + c / 4096 mod 16) * 16 + c / 256 mod 16)%N))
    by (cbn [lex_step]; now rewrite hex_digit_hex_char by apply B).
  rewrite (lex_silent _ _
             (LHex acc 1 (((0 * 16 + c / 4096 mod 16) * 16 + c / 256 mod 16)
                          * 16 + c / 16 mod 16)%N))
    by (cbn [lex_step]; now rewrite hex_digit_hex_char by apply B).
  rewrite (lex_silent _ _ (LString (acc ++ [c]))); [reflexivity|].
  cbn [lex_step]. rewrite hex_digit_hex_char by apply B. cbn [obind].
  now rewrite hex_digits_value.
Qed.

Lemma lex_plain acc c r :
  cu_eqb c 34 = false -> cu_eqb c 92 = false -> (c <? 32)%N = false ->
  lex (LString acc) (c :: r) = lex (LString (acc ++ [c])) r.
Proof.
  intros H1 H2 H3. apply lex_silent. cbn [lex_step]. now rewrite H1, H2, H3.
Qed.

Lemma lex_quote_unit acc c r :
  is_lead c = false -> is_trail c = false ->
  lex (LString acc) (quote_unit c ++ r) = lex (LString (acc ++ [c])) r.
Proof.
  intros _ _. unfold quote_unit.
  repeat match goal with
  | |- context [if cu_eqb c ?k then _ else _] =>
      let E := fresh "E" in
      destruct (cu_eqb c k) eqn:E;
      [apply cu_eqb_eq in E; subst c; cbn [app];
       rewrite (lex_silent _ 92%N (LEscape acc)) by reflexivity;
       now rewrite (lex_silent _ _ (LString (acc ++ [_]))) by reflexivity|]
  end.
  destruct (c <? 32)%N eqn:L.
  - apply lex_unicode_escape. apply N.ltb_lt in L. lia.
  - cbn [app]. now apply lex_plain.
Qed.

Lemma surrogate_plain c :
  (is_lead c || is_trail c) = true ->
  cu_eqb c 34 = false /\ cu_eqb c 92 = false /\ (c <? 32)%N = false
  /\ (c < 65536)%N.
Proof.
  unfold is_lead, is_trail, cu_eqb. intros H.
  rewrite !N.eqb_neq, N.ltb_ge.
  apply orb_prop in H. destruct H as [H|H];
    apply andb_prop in H; destruct H as [H1 H2];
    apply N.leb_le in H1, H2; lia.
Qed.

(** Inside a string, the quoted code units of [s] and the closing quote
    give the string read so far followed by [s]. *)
Lemma lex_quote_units s : forall acc rest,
  lex (LString acc) (quote_units s ++ 34%N :: rest)
  = (ts <-? lex LIdle rest ;; Some (TString (acc ++ s) :: ts)).
Proof.
  assert (G : forall n s, length s <= n -> forall acc rest,
    lex (LString acc) (quote_units s ++ 34%N :: rest)
    = (ts <-? lex LIdle rest ;; Some (TString (acc ++ s) :: ts))).
  { induction n as [|n IH]; intros s0 Hn acc rest.
    - destruct s0; [|cbn in Hn; lia]. cbn [quote_units app].
      rewrite app_nil_r. now apply lex_emit.
    - destruct s0 as [|c r].
      + cbn [quote_units app]. rewrite app_nil_r. now apply lex_emit.
      + cbn [length] in Hn. cbn [quote_units].
        destruct (is_lead c) eqn:Lc.
        * destruct (surrogate_plain c) as (P1 & P2 & P3 & P4);
            [now rewrite Lc|].
          destruct r as [|d r'].
          -- rewrite lex_unicode_escape by exact P4. now apply lex_emit.
          -- destruct (is_trail d) eqn:Td.
             ++ destruct (surrogate_plain d) as (Q1 & Q2 & Q3 & _);
                  [rewrite Td; apply orb_true_r|].
                cbn [app]. rewrite lex_plain, lex_plain by assumption.
                rewrite IH by (cbn [length] in Hn; lia).
                now rewrite <- !app_assoc.
             ++ rewrite <- app_assoc, lex_unicode_escape by exact P4.
                rewrite IH by lia. now rewrite <- app_assoc.
        * destruct (is_trail c) eqn:Tc.
          -- destruct (surrogate_plain c) as (_ & _ & _ & P4);
               [rewrite Tc; apply orb_true_r|].
             rewrite <- app_assoc, lex_unicode_escape by exact P4.
             rewrite IH by lia. now rewrite <- app_assoc.
          -- rewrite <- app_assoc, lex_quote_unit by assumption.
             rewrite IH by lia. now rewrite <- app_assoc. }
  intros acc rest. now apply (G (length s)).
Qed.

(** A quoted string is read back as the string. *)
Lemma lexes_quote s : lexes (QuoteJSONString s) [TString s].
Proof.
  intros rest. unfold QuoteJSONString. cbn [app].
  rewrite (lex_silent _ 34%N (LString [])) by reflexivity.
  rewrite <- app_assoc. cbn [app]. now rewrite lex_quote_units.
Qed.

(** *** Texts *)

Lemma lexes_one c t : lex_step LIdle c = Some (LIdle, t) -> lexes [c] t.
Proof.
  intros H. rewrite <- (app_nil_r t). apply lexes_cons; [exact H|].
  apply lexes_nil.
Qed.

Lemma lexes_join segs groups sep :
  Forall2 lexes segs groups -> lexes sep [TComma] ->
  lexes (join segs sep) (comma_separated groups).
Proof.
  intros H Hsep. induction H as [|seg g segs groups Hg H IH].
  - apply lexes_nil.
  - destruct H as [|seg' g' segs groups Hg' H].
    + exact Hg.
    + rewrite join_cons by easy.
      change (comma_separated (g :: g' :: groups))
        with (g ++ [TComma] ++ comma_separated (g' :: groups)).
      apply lexes_app; [exact Hg|]. apply lexes_app; [exact Hsep|exact IH].
Qed.

Lemma lexes_comma_indent n : lexes (lit "," ++ newline_indent n) [TComma].
Proof.
  exact (lexes_app [44%N] [TComma] (newline_indent n) []
           (lexes_one 44%N [TComma] eq_refl) (lexes_newline_indent n)).
Qed.

Lemma lexes_colon : lexes (lit ": ") [TColon].
Proof.
  exact (lexes_cons 58%N [32%N] [TColon] [] eq_refl
           (lexes_one 32%N [] eq_refl)).
Qed.

Lemma lexes_member kv : lexes (stringify_member kv) (member_tokens kv).
Proof.
  unfold stringify_member, member_tokens.
  exact (lexes_app _ [TString (fst kv)] _ [TColon; TString (snd kv)]
           (lexes_quote (fst kv))
           (lexes_app _ [TColon] _ [TString (snd kv)] lexes_colon
              (lexes_quote (snd kv)))).
Qed.

Lemma lexes_skip a b tb : lexes a [] -> lexes b tb -> lexes (a ++ b) tb.
Proof. intros Ha Hb. exact (lexes_app a [] b tb Ha Hb). Qed.

Lemma lexes_then a t b tb :
  lexes a [t] -> lexes b tb -> lexes (a ++ b) (t :: tb).
Proof. intros Ha Hb. exact (lexes_app a [t] b tb Ha Hb). Qed.

Lemma lexes_all {A} (f : A -> jsstring) (g : A -> list token) l :
  (forall x, lexes (f x) (g x)) -> Forall2 lexes (map f l) (map g l).
Proof. intros H. induction l; constructor; auto. Qed.

Lemma lexes_commit c : lexes (stringify_commit c) (commit_tokens c).
Proof.
  unfold stringify_commit, commit_tokens.
  apply lexes_then; [now apply lexes_one|].
  apply lexes_skip; [apply lexes_newline_indent|].
  apply lexes_app.
  - apply lexes_join; [|apply lexes_comma_indent].
    apply lexes_all, lexes_member.
  - apply lexes_skip; [apply lexes_newline_indent|].
    now apply lexes_one.
Qed.

Lemma lexes_commits c commits :
  lexes (JSON_stringify_commits (c :: commits)) (commits_tokens (c :: commits)).
Proof.
  unfold JSON_stringify_commits, commits_tokens.
  apply lexes_then; [now apply lexes_one|].
  apply lexes_skip; [apply lexes_newline_indent|].
  apply lexes_app.
  - apply lexes_join; [|apply lexes_comma_indent].
    apply lexes_all, lexes_commit.
  - apply lexes_skip; [apply lexes_newline_indent|].
    now apply lexes_one.
Qed.

Lemma lexes_string_array strings :
  lexes (string_array_text strings) (string_array_tokens strings).
Proof.
  unfold string_array_text, string_array_tokens.
  apply lexes_then; [now apply lexes_one|].
  apply lexes_app; [|now apply lexes_one].
  apply lexes_join.
  - apply (lexes_all QuoteJSONString (fun s => [TString s])), lexes_quote.
  - apply (lexes_cons 44%N [32%N] [TComma] []); [reflexivity|].
    now apply (lexes_one 32%N []).
Qed.

Lemma lexes_reply_line c strings :
  lexes (reply_line c strings) (reply_line_tokens c strings).
Proof.
  unfold reply_line, reply_line_tokens.
  apply lexes_skip; [apply lexes_newline_indent|].
  apply lexes_then; [apply lexes_quote|].
  apply lexes_then; [apply lexes_colon|].
  apply lexes_string_array.
Qed.

Lemma lexes_reply f x i o : lexes (reply_text f x i o) (reply_tokens f x i o).
Proof.
  unfold reply_text, reply_tokens.
  apply lexes_then; [now apply lexes_one|].
  apply lexes_app; [|now apply lexes_one].
  apply lexes_app; [apply lexes_reply_line|].
  apply lexes_then; [now apply lexes_one|].
  apply lexes_app; [apply lexes_reply_line|].
  apply lexes_then; [now apply lexes_one|].
  apply lexes_app; [apply lexes_reply_line|].
  apply lexes_then; [now apply lexes_one|].
  rewrite <- (app_nil_r (reply_line_tokens other o)).
  apply lexes_app; [apply lexes_reply_line|apply lexes_newline_indent].
Qed.

(** A text that gives tokens is parsed as its tokens are. *)
Lemma JSON_parse_lexes text toks :
  lexes text toks ->
  JSON_parse text
  = match parse_tokens (PValue []) toks with
    | Some v => Ok v
    | None => Throw SyntaxError
    end.
Proof.
  intros H. unfold JSON_parse. rewrite <- (app_nil_r text), H.
  cbn [lex lex_end obind]. now rewrite app_nil_r.
Qed.

(** *** Tokens *)

Lemma parse_commit_tokens c stack rest :
  parse_tokens (PValue stack) (commit_tokens c ++ rest)
  = parse_tokens (complete (commit_value c) stack) rest.
Proof. destruct c as [h d a m [b|]]; reflexivity. Qed.

Lemma parse_commits_items cs : forall c items stack rest,
  parse_tokens (PValue (FArray items :: stack))
    (comma_separated (map commit_tokens (c :: cs)) ++ TRBracket :: rest)
  = parse_tokens (complete (VArray (items ++ map commit_value (c :: cs))) stack)
      rest.
Proof.
  induction cs as [|c' cs IH]; intros c items stack rest.
  - cbn [map comma_separated]. now rewrite parse_commit_tokens.
  - change (comma_separated (map commit_tokens (c :: c' :: cs)))
      with (commit_tokens c
            ++ TComma :: comma_separated (map commit_tokens (c' :: cs))).
    rewrite <- app_assoc, parse_commit_tokens.
    cbn [complete app parse_tokens pstep obind].
    rewrite IH. cbn [map]. now rewrite <- app_assoc.
Qed.

Lemma parse_string_items strings : forall s items stack rest,
  parse_tokens (PValue (FArray items :: stack))
    (comma_separated (map (fun s => [TString s]) (s :: strings))
     ++ TRBracket :: rest)
  = parse_tokens
      (complete (VArray (items ++ map VString (s :: strings))) stack) rest.
Proof.
  induction strings as [|s' strings IH]; intros s items stack rest.
  - reflexivity.
  - change (comma_separated (map (fun s => [TString s]) (s :: s' :: strings)))
      with ([TString s] ++ TComma
            :: comma_separated (map (fun s => [TString s]) (s' :: strings))).
    cbn [app parse_tokens pstep start_value complete obind].
    rewrite IH. cbn [map]. now rewrite <- app_assoc.
Qed.

Lemma parse_string_array strings stack rest :
  parse_tokens (PValue stack) (string_array_tokens strings ++ rest)
  = parse_tokens (complete (VArray (map VString strings)) stack) rest.
Proof.
  unfold string_array_tokens. destruct strings as [|s strings].
  - reflexivity.
  - cbn [app parse_tokens pstep start_value obind].
    rewrite <- app_assoc. cbn [app].
    change (map VString (s :: strings))
      with ([] ++ map VString (s :: strings)).
    rewrite <- (parse_string_items strings s [] stack rest).
    now destruct strings.
Qed.

End Tokens.

(** X8.  What [JSON.stringify(commits, null, 2)] puts into the prompt
    is a JSON text, and it denotes the records: JSON.parse gives the array
    of the commits back, each with its hash, date, author and message, and
    its body when it has one, whatever code units the fields contain
    (quotes, backslashes, control characters, surrogates alone or in
    pairs). *)
Theorem JSON_stringify_commits_roundtrip commits :
  JSON_parse (JSON_stringify_commits commits)
  = Ok (VArray (map commit_value commits)).
Proof.
  destruct commits as [|c commits]; [reflexivity|].
  rewrite (JSON_parse_lexes _ _ (lexes_commits c commits)).
  unfold commits_tokens.
  cbn [parse_tokens pstep start_value obind].
  assert (E : parse_tokens (PFirstItem [])
                (comma_separated (map commit_tokens (c :: commits))
                 ++ [TRBracket])
              = parse_tokens (PValue [FArray []])
                  (comma_separated (map commit_tokens (c :: commits))
                   ++ [TRBracket])).
  { destruct commits; destruct c as [h d a m [b|]]; reflexivity. }
  rewrite E, parse_commits_items. reflexivity.
Qed.

(** ** A reply in the format the prompt asks for *)

Lemma parse_reply_tokens f x i o :
  parse_tokens (PValue []) (reply_tokens f x i o)
  = Some (VObject
            [ (lit "features", VArray (map VString f));
              (lit "fixes", VArray (map VString x));
              (lit "improvements", VArray (map VString i));
              (lit "other", VArray (map VString o)) ]).
Proof.
  unfold reply_tokens, reply_line_tokens.
  rewrite <- !app_assoc. cbn [app category_key].
  cbn [parse_tokens pstep start_value obind].
  do 3 (rewrite <- ?app_assoc; cbn [app]; rewrite parse_string_array;
        cbn [complete parse_tokens pstep start_value obind]).
  rewrite parse_string_array.
  reflexivity.
Qed.

Lemma reply_text_span f x i o :
  exists b, reply_text f x i o = [123%N] ++ b ++ [125%N].
Proof. unfold reply_text. eexists. reflexivity. Qed.

Lemma parseClaudeResponse_reply before after f x i o :
  ~ In 123%N before -> ~ In 125%N after ->
  parseClaudeResponse (before ++ reply_text f x i o ++ after)
  = Ok (reply_sections f x i o).
Proof.
  intros Hb Ha. destruct (reply_text_span f x i o) as [b E].
  assert (Hm : regexp_match (before ++ reply_text f x i o ++ after)
               = Some (reply_text f x i o)).
  { apply regexp_match_first_to_last. exists before, b, after. auto. }
  assert (Hp : JSON_parse (reply_text f x i o)
               = Ok (VObject
                       [ (lit "features", VArray (map VString f));
                         (lit "fixes", VArray (map VString x));
                         (lit "improvements", VArray (map VString i));
                         (lit "other", VArray (map VString o)) ])).
  { rewrite (JSON_parse_lexes _ _ (lexes_reply f x i o)).
    now rewrite parse_reply_tokens. }
  rewrite (parseClaudeResponse_object _ _ _ Hm Hp). reflexivity.
Qed.

(** X9.  A reply written the way the prompt asks (an object with the
    four keys in order, each with a list of quoted strings, two spaces of
    indentation) is decoded to exactly its four lists, whatever code units
    the items contain, and whatever commentary surrounds it, as long as
    the text before has no opening brace and the text after no closing
    brace. *)
Theorem parseClaudeResponse_reply_text before after f x i o :
  ~ In 123%N before -> ~ In 125%N after ->
  parseClaudeResponse (before ++ reply_text f x i o ++ after)
  = Ok [ mkDigestSection features (VArray (map VString f));
         mkDigestSection fixes (VArray (map VString x));
         mkDigestSection improvements (VArray (map VString i));
         mkDigestSection other (VArray (map VString o)) ].
Proof. exact (parseClaudeResponse_reply before after f x i o). Qed.

Lemma parseClaudeResponse_reply_text_witness :
  parseClaudeResponse
    ((lit "Here is the summary:" ++ [10%N])
     ++ reply_text [dq "Export to 'CSV'"; lit "Dark mode"] [] [lit "Faster"] []
     ++ [10%N] ++ lit "Let me know!")
  = Ok [ mkDigestSection features
           (VArray [VString (dq "Export to 'CSV'"); VString (lit "Dark mode")]);
         mkDigestSection fixes (VArray []);
         mkDigestSection improvements (VArray [VString (lit "Faster")]);
         mkDigestSection other (VArray []) ].
Proof.
  apply (parseClaudeResponse_reply_text
           (lit "Here is the summary:" ++ [10%N])
           ([10%N] ++ lit "Let me know!")
           [dq "Export to 'CSV'"; lit "Dark mode"] [] [lit "Faster"] []).
  - vm_compute. intros H.
    repeat (destruct H as [H|H]; [discriminate H|]). exact H.
  - vm_compute. intros H.
    repeat (destruct H as [H|H]; [discriminate H|]). exact H.
Defined.

(** ** summarizeCommits *)

Section ServiceFacts.

Variable apiKey : option jsstring.
Variable create : jsstring -> MessageCreateParams -> settled (list ContentBlock).
Variable host_text : value -> jsstring.

Lemma audienceGuidance_returns audience :
  exists guidance, audienceGuidance audience = Ok guidance.
Proof.
  unfold audienceGuidance, AUDIENCE_PROMPTS. cbn [Get bind].
  match goal with |- context [if ?b then _ else _] => destruct b end; eauto.
Qed.

Lemma summarizeCommits_key commits audience key :
  apiKey = Some key -> truthy_string key = true ->
  exists guidance,
    audienceGuidance audience = Ok guidance
    /\ summarizeCommits apiKey create host_text commits audience
       = translate
           match create key (request host_text commits guidance) with
           | Rejected t => Rejected t
           | Fulfilled blocks => read_reply blocks
           end.
Proof.
  intros -> Hk. destruct (audienceGuidance_returns audience) as [g Hg].
  exists g. split; [exact Hg|].
  unfold summarizeCommits. now rewrite Hk, Hg.
Qed.

Lemma summarizeCommits_no_key commits audience :
  key_missing apiKey = true ->
  summarizeCommits apiKey create host_text commits audience
  = Rejected (Plain missing_key).
Proof.
  unfold key_missing, summarizeCommits. destruct apiKey as [key|];
    [|reflexivity].
  now intros ->.
Qed.

Lemma key_present :
  key_missing apiKey = false ->
  exists key, apiKey = Some key /\ truthy_string key = true.
Proof.
  unfold key_missing. destruct apiKey as [key|]; [|discriminate].
  intros H. exists key. split; [reflexivity|].
  now destruct (truthy_string key).
Qed.

Lemma summarizeCommits_reply commits audience key guidance before after
    f x i o more :
  apiKey = Some key -> truthy_string key = true ->
  audienceGuidance audience = Ok guidance ->
  create key (request host_text commits guidance)
  = Fulfilled (TextBlock (before ++ reply_text f x i o ++ after) :: more) ->
  ~ In 123%N before -> ~ In 125%N after ->
  summarizeCommits apiKey create host_text commits audience
  = Fulfilled (reply_sections f x i o).
Proof.
  intros Hk Ht Hg Hc Hb Ha.
  destruct (summarizeCommits_key commits audience key Hk Ht) as (g & Hg' & ->).
  assert (g = guidance) as -> by congruence.
  rewrite Hc. unfold read_reply.
  change (jsstring_eqb (block_type (TextBlock _)) (lit "text")) with true.
  cbn [negb]. now rewrite (parseClaudeResponse_reply _ _ _ _ _ _ Hb Ha).
Qed.

End ServiceFacts.

(** X10.  What summarizeCommits fails with, and when.  Without a key
    (unset or empty) it is rejected with the missing-key Error, whatever
    the service would say.  With a key the outcome is fixed by the
    service's answer to the request: a rate-limit or an authentication
    error is replaced by an Error with a message of the program's own, and
    neither class is ever let through; any other rejection is passed on
    unchanged; an answer without content block is a TypeError; a first
    block of another type is the unexpected-type Error (a TypeError when
    it calls itself text and has none); a text without a span between
    braces is the could-not-parse Error; a span that is no JSON is a
    SyntaxError; and only a span that is JSON is fulfilled. *)
Theorem summarizeCommits_rejected apiKey create host_text commits audience :
  let outcome := summarizeCommits apiKey create host_text commits audience in
  (forall t message,
     outcome = Rejected t ->
     t <> RateLimitError message /\ t <> AuthenticationError message)
  /\ match apiKey with
     | None => outcome = Rejected (Plain missing_key)
     | Some key =>
         if truthy_string key then
           exists guidance,
             audienceGuidance audience = Ok guidance
             /\ match create key (request host_text commits guidance) with
                | Rejected (RateLimitError _) =>
                    outcome = Rejected (Plain rate_limited)
                | Rejected (AuthenticationError _) =>
                    outcome = Rejected (Plain invalid_key)
                | Rejected t => outcome = Rejected t
                | Fulfilled [] => outcome = Rejected (Plain TypeError)
                | Fulfilled (OtherBlock type :: _) =>
                    outcome
                    = Rejected (Plain (if jsstring_eqb type (lit "text")
                                       then TypeError else unexpected_type))
                | Fulfilled (TextBlock text :: _) =>
                    match regexp_match text with
                    | None =>
                        ~ has_brace_span text
                        /\ outcome = Rejected (Plain unparseable)
                    | Some span =>
                        match JSON_parse span with
                        | Throw _ => outcome = Rejected (Plain SyntaxError)
                        | Ok _ => exists sections, outcome = Fulfilled sections
                        end
                    end
                end
         else outcome = Rejected (Plain missing_key)
     end.
Proof.
  cbv zeta.
  assert (C : match apiKey with
     | None => summarizeCommits apiKey create host_text commits audience
               = Rejected (Plain missing_key)
     | Some key =>
         if truthy_string key then
           exists guidance,
             audienceGuidance audience = Ok guidance
             /\ match create key (request host_text commits guidance) with
                | Rejected (RateLimitError _) =>
                    summarizeCommits apiKey create host_text commits audience
                    = Rejected (Plain rate_limited)
                | Rejected (AuthenticationError _) =>
                    summarizeCommits apiKey create host_text commits audience
                    = Rejected (Plain invalid_key)
                | Rejected t =>
                    summarizeCommits apiKey create host_text commits audience
                    = Rejected t
                | Fulfilled [] =>
                    summarizeCommits apiKey create host_text commits audience
                    = Rejected (Plain TypeError)
                | Fulfilled (OtherBlock type :: _) =>
                    summarizeCommits apiKey create host_text commits audience
                    = Rejected (Plain (if jsstring_eqb type (lit "text")
                                       then TypeError else unexpected_type))
                | Fulfilled (TextBlock text :: _) =>
                    match regexp_match text with
                    | None =>
                        ~ has_brace_span text
                        /\ summarizeCommits apiKey create host_text commits
                             audience
                           = Rejected (Plain unparseable)
                    | Some span =>
                        match JSON_parse span with
                        | Throw _ =>
                            summarizeCommits apiKey create host_text commits
                              audience
                            = Rejected (Plain SyntaxError)
                        | Ok _ =>
                            exists sections,
                              summarizeCommits apiKey create host_text commits
                                audience
                              = Fulfilled sections
                        end
                    end
                end
         else summarizeCommits apiKey create host_text commits audience
              = Rejected (Plain missing_key)
     end).
  { destruct apiKey as [key|] eqn:Hkey; [|reflexivity].
    destruct (truthy_string key) eqn:Ht.
    2: { apply summarizeCommits_no_key. unfold key_missing. now rewrite Ht. }
    destruct (summarizeCommits_key (Some key) create host_text commits audience
                key eq_refl Ht) as (g & Hg & ->).
    exists g. split; [exact Hg|].
    destruct (create key (request host_text commits g))
      as [[|[text|type] more]|t].
    - reflexivity.
    - unfold read_reply.
      change (jsstring_eqb (block_type (TextBlock text)) (lit "text"))
        with true.
      cbn [negb].
      destruct (regexp_match text) as [span|] eqn:Hm.
      + destruct (JSON_parse span) as [data|e] eqn:Hp.
        * destruct (parsed_span_object _ _ _ Hm Hp) as [members ->].
          rewrite (parseClaudeResponse_object _ _ _ Hm Hp). eexists.
          reflexivity.
        * assert (e = SyntaxError) as ->.
          { unfold JSON_parse in Hp.
            destruct (ts <-? lex LIdle span;; parse_tokens (PValue []) ts);
              congruence. }
          unfold parseClaudeResponse. now rewrite Hm, Hp.
      + split; [now apply regexp_match_None|].
        unfold parseClaudeResponse. now rewrite Hm.
    - unfold read_reply. cbn [block_type].
      now destruct (jsstring_eqb type (lit "text")).
    - now destruct t. }
  split; [|exact C].
  intros t message H. rewrite H in C.
  destruct apiKey as [key|]; [|injection C as ->; split; discriminate].
  destruct (truthy_string key); [|injection C as ->; split; discriminate].
  destruct C as (g & _ & C).
  destruct (create key (request host_text commits g))
    as [[|[text|type] more]|t'].
  - injection C as ->. split; discriminate.
  - destruct (regexp_match text) as [span|].
    + destruct (JSON_parse span).
      * destruct C as [sections C]. discriminate C.
      * injection C as ->. split; discriminate.
    + destruct C as [_ C]. injection C as ->. split; discriminate.
  - injection C as ->. split; discriminate.
  - destruct t'; injection C as ->; split; discriminate.
Qed.

(** ** The program *)

(** isGitRepository and getCommits ask the same question of the same
    client. *)
Lemma getCommits_checked simpleGit repoPath since commits :
  getCommits simpleGit repoPath since = Ok commits ->
  exists git, simpleGit repoPath = Ok git /\ checkIsRepo git = Ok true.
Proof.
  unfold getCommits. destruct (simpleGit repoPath) as [git|e]; [|discriminate].
  cbn [bind]. destruct (checkIsRepo git) as [[|]|e] eqn:Hc; try discriminate.
  intros _. now exists git.
Qed.

(** X11.  getCommits returns commits only for a directory that
    isGitRepository calls a repository; where isGitRepository says no,
    getCommits throws, whatever the period asked for; and where the client
    cannot be made, both fail with the client's error. *)
Theorem getCommits_isGitRepository simpleGit repoPath since :
  match getCommits simpleGit repoPath since with
  | Ok _ => isGitRepository simpleGit repoPath = Ok true
  | Throw _ => True
  end
  /\ match isGitRepository simpleGit repoPath with
     | Ok false => exists e, getCommits simpleGit repoPath since = Throw e
     | Ok true => True
     | Throw e => getCommits simpleGit repoPath since = Throw e
     end.
Proof.
  split.
  - destruct (getCommits simpleGit repoPath since) as [commits|e] eqn:E;
      [|exact I].
    destruct (getCommits_checked _ _ _ _ E) as (git & Hg & Hc).
    unfold isGitRepository. rewrite Hg. cbn [bind]. now rewrite Hc.
  - unfold isGitRepository, getCommits.
    destruct (simpleGit repoPath) as [git|e]; [|reflexivity].
    cbn [bind]. destruct (checkIsRepo git) as [[|]|e]; cbn [bind negb]; eauto.
Qed.

Section ProgramFacts.

Variable path_resolve : jsstring -> jsstring.
Variable chalk : style -> jsstring -> jsstring.
Variable apiKey : option jsstring.
Variable simpleGit : jsstring -> result SimpleGit.
Variable host_parse : jsstring -> number.
Variable now : Z.
Variable spare_arguments : nat.
Variable host_text : value -> jsstring.
Variable host_message : js_error -> jsstring.
Variable formatMarkdown formatHTML :
  list DigestSection -> DateRange -> settled jsstring.
Variable write_refused : jsstring -> jsstring -> option thrown.

Local Abbreviation run' create :=
  (run path_resolve chalk apiKey simpleGit host_parse now spare_arguments create host_text
     formatMarkdown formatHTML write_refused).

Local Abbreviation action' create :=
  (action path_resolve chalk apiKey simpleGit host_parse now spare_arguments create host_text
     host_message formatMarkdown formatHTML write_refused).

(** Up to the call of summarizeCommits the service plays no part. *)
Lemma run_before_summary create options :
  (key_missing apiKey = true
   /\ forall create', run' create' options = run' create options)
  \/ (exists e,
        getCommits simpleGit (path_resolve (repo options)) (since options)
        = Throw e
        /\ forall create', run' create' options = run' create options)
  \/ (getCommits simpleGit (path_resolve (repo options)) (since options) = Ok []
      /\ forall create', run' create' options = run' create options)
  \/ (exists commits e,
        getCommits simpleGit (path_resolve (repo options)) (since options)
        = Ok commits
        /\ getDateRange host_parse now spare_arguments commits = Throw e
        /\ forall create', run' create' options = run' create options)
  \/ (key_missing apiKey = false
      /\ exists commits dateRange,
           getCommits simpleGit (path_resolve (repo options)) (since options)
           = Ok commits
           /\ commits <> []
           /\ getDateRange host_parse now spare_arguments commits = Ok dateRange).
Proof.
  unfold run.
  destruct (key_missing apiKey) eqn:Hkey; [now left|]. right.
  destruct (getCommits simpleGit (path_resolve (repo options)) (since options))
    as [commits|e] eqn:Hfetch; [|left; now exists e]. right.
  destruct commits as [|c commits]; [now left|]. right.
  cbn [length Nat.eqb].
  destruct (getDateRange host_parse now spare_arguments (c :: commits)) as [dateRange|e]
    eqn:Hdates.
  - right. split; [reflexivity|]. exists (c :: commits), dateRange.
    repeat split; easy.
  - left. now exists (c :: commits), e.
Qed.

Lemma run_summary create options commits dateRange :
  key_missing apiKey = false ->
  getCommits simpleGit (path_resolve (repo options)) (since options)
  = Ok commits ->
  commits <> [] ->
  getDateRange host_parse now spare_arguments commits = Ok dateRange ->
  run' create options
  = let fetched :=
      fetching (ora_succeed (lit "Found " ++ Number_toString (length commits)
                             ++ lit " commits")) in
    match summarizeCommits apiKey create host_text commits
            (Some (audience options)) with
    | Rejected t =>
        (fetched ++ period chalk dateRange
         :: summarizing (ora_fail (lit "Failed to generate summary")),
         Throws t)
    | Fulfilled sections =>
        let summarized :=
          fetched ++ period chalk dateRange
          :: summarizing (ora_succeed (lit "Summary generated")) in
        match (if jsstring_eqb (format options) (lit "html")
               then formatHTML sections dateRange
               else formatMarkdown sections dateRange) with
        | Rejected t => (summarized, Throws t)
        | Fulfilled text =>
            match output options with
            | Some ((_ :: _) as file) =>
                match write_refused (path_resolve file) text with
                | Some t => (summarized, Throws t)
                | None =>
                    (summarized
                     ++ [ writeFileSync (path_resolve file) text;
                          console_log
                            [chalk green [10003%N];
                             lit "Saved to " ++ path_resolve file] ],
                     Returns)
                end
            | _ =>
                (summarized ++ [console_log [[]]; console_log [text]],
                 Returns)
            end
        end
    end.
Proof.
  intros Hkey Hfetch Hne Hdates. unfold run.
  rewrite Hkey, Hfetch.
  destruct commits as [|c commits]; [congruence|].
  cbn [length Nat.eqb]. now rewrite Hdates.
Qed.

End ProgramFacts.

(** X12.  From the repository to the output.  With a key, commits
    fetched, their dates read, and a service whose first block is a text
    holding a reply in the format of the prompt (commentary without braces
    around it allowed), the program reports both steps as succeeded and
    hands the formatter chosen by the format option the four lists of the
    reply and the period of the commits.  What the formatter returns is
    delivered, into the file named by the output option when there is one
    and to the terminal otherwise, and the program ends with status 0.
    When the formatter throws, or the file system refuses the write, the
    error is reported on the terminal and the program exits with status 1,
    no file written. *)
Theorem action_delivers path_resolve chalk apiKey simpleGit host_parse now
    spare_arguments create host_text host_message formatMarkdown formatHTML
    write_refused options key commits dateRange guidance before after
    f x i o more :
  apiKey = Some key -> truthy_string key = true ->
  getCommits simpleGit (path_resolve (repo options)) (since options)
  = Ok commits ->
  commits <> [] ->
  getDateRange host_parse now spare_arguments commits = Ok dateRange ->
  audienceGuidance (Some (audience options)) = Ok guidance ->
  create key (request host_text commits guidance)
  = Fulfilled (TextBlock (before ++ reply_text f x i o ++ after) :: more) ->
  ~ In 123%N before -> ~ In 125%N after ->
  action path_resolve chalk apiKey simpleGit host_parse now spare_arguments
    create host_text host_message formatMarkdown formatHTML write_refused
    options
  = let shown :=
      fetching (ora_succeed (lit "Found " ++ Number_toString (length commits)
                             ++ lit " commits"))
      ++ period chalk dateRange
      :: summarizing (ora_succeed (lit "Summary generated")) in
    let failed t :=
      (shown
       ++ [ if instanceof_Error t then
              console_error [chalk red (lit "Error:");
                             error_message host_message t]
            else console_error
                   [chalk red (lit "An unexpected error occurred")] ],
       Exited 1) in
    match (if jsstring_eqb (format options) (lit "html") then formatHTML
           else formatMarkdown) (reply_sections f x i o) dateRange with
    | Rejected t => failed t
    | Fulfilled text =>
        match output options with
        | Some ((_ :: _) as file) =>
            match write_refused (path_resolve file) text with
            | Some t => failed t
            | None =>
                (shown
                 ++ [ writeFileSync (path_resolve file) text;
                      console_log [chalk green [10003%N];
                                   lit "Saved to " ++ path_resolve file] ],
                 Finished)
            end
        | _ => (shown ++ [console_log [[]]; console_log [text]], Finished)
        end
    end.
Proof.
  intros Hk Ht Hfetch Hne Hdates Hg Hc Hb Ha.
  assert (Hkey : key_missing apiKey = false).
  { unfold key_missing. now rewrite Hk, Ht. }
  unfold action.
  rewrite (run_summary path_resolve chalk apiKey simpleGit host_parse now
             spare_arguments host_text formatMarkdown formatHTML write_refused
             create options commits dateRange Hkey Hfetch Hne Hdates).
  cbv zeta.
  rewrite (summarizeCommits_reply apiKey create host_text commits
             (Some (audience options)) key guidance before after f x i o more
             Hk Ht Hg Hc Hb Ha).
  assert (E : (if jsstring_eqb (format options) (lit "html")
               then formatHTML (reply_sections f x i o) dateRange
               else formatMarkdown (reply_sections f x i o) dateRange)
              = (if jsstring_eqb (format options) (lit "html") then formatHTML
                 else formatMarkdown) (reply_sections f x i o) dateRange).
  { now destruct (jsstring_eqb (format options) (lit "html")). }
  rewrite E.
  destruct ((if jsstring_eqb (format options) (lit "html") then formatHTML
             else formatMarkdown) (reply_sections f x i o) dateRange)
    as [text|t].
  - destruct (output options) as [[|c file]|].
    + now rewrite <- !app_assoc.
    + destruct (write_refused (path_resolve (c :: file)) text) as [t|].
      * now rewrite <- !app_assoc.
      * now rewrite <- !app_assoc.
    + now rewrite <- !app_assoc.
  - now rewrite <- !app_assoc.
Qed.

Lemma action_delivers_witness :
  sample_action (answering [TextBlock sample_reply]) sample_options
  = (fetching (ora_succeed (lit "Found 2 commits"))
     ++ period plain (mkDateRange (lit "2024-01-06") (lit "2024-01-20"))
     :: summarizing (ora_succeed (lit "Summary generated"))
     ++ [console_log [[]];
         console_log [lit "# Changes 2024-01-06 to 2024-01-20"]],
     Finished).
Proof.
  apply (action_delivers (fun p => p) plain sample_key
           (repo_with_log (git_log git_entries)) strict_host 0 node_spare
           (answering [TextBlock sample_reply]) (fun _ => []) (fun _ => [])
           (titled "# Changes ") (titled "<h1>Changes</h1> ")
           every_write_accepted sample_options (lit "sk-ant-test")
           (map (commit_of_entry FIELD_SEPARATOR) git_entries)
           (mkDateRange (lit "2024-01-06") (lit "2024-01-20"))
           general_guidance
           (lit "Here is the summary:" ++ [10%N])
           ([10%N] ++ lit "Let me know if you need changes.")
           [lit "You can now export to CSV."] [lit "Login works again."]
           [] [] []).
  - reflexivity.
  - reflexivity.
  - vm_compute. reflexivity.
  - discriminate.
  - vm_compute. reflexivity.
  - vm_compute. reflexivity.
  - reflexivity.
  - vm_compute. intros H.
    repeat (destruct H as [H|H]; [discriminate H|]). exact H.
  - vm_compute. intros H.
    repeat (destruct H as [H|H]; [discriminate H|]). exact H.
Defined.

(** X13.  How the program ends, on every machine and for all
    options.  It exits with status 1 or ends on its own, with no other
    status.  When it exits with status 1 the last thing it did was to write
    an error to the terminal, and it has written no file.  When it ends on
    its own the last thing it did was to write to the standard output, and
    a file it has written is the one named by the output option. *)
Theorem action_ending path_resolve chalk apiKey simpleGit host_parse now spare_arguments
    create host_text host_message formatMarkdown formatHTML write_refused
    options :
  match action path_resolve chalk apiKey simpleGit host_parse now spare_arguments create
          host_text host_message formatMarkdown formatHTML write_refused
          options with
  | (events, Finished) =>
      (exists earlier args, events = earlier ++ [console_log args])
      /\ forall file data,
           In (writeFileSync file data) events ->
           exists name,
             output options = Some name /\ name <> []
             /\ file = path_resolve name
  | (events, Exited code) =>
      code = 1%Z
      /\ (exists earlier args, events = earlier ++ [console_error args])
      /\ forall file data, ~ In (writeFileSync file data) events
  end.
Proof.
  assert (Hfetching : forall e file data,
            (forall f d, e <> writeFileSync f d) ->
            ~ In (writeFileSync file data) (fetching e)).
  { intros e file data He [H|[H|[]]]; [discriminate H|].
    now apply (He file data). }
  assert (Hthrown : forall t events,
            (forall file data, ~ In (writeFileSync file data) events) ->
            let events' :=
              events
              ++ [if instanceof_Error t
                  then console_error [chalk red (lit "Error:");
                                      error_message host_message t]
                  else console_error
                         [chalk red (lit "An unexpected error occurred")]] in
            1%Z = 1%Z
            /\ (exists earlier args, events' = earlier ++ [console_error args])
            /\ forall file data, ~ In (writeFileSync file data) events').
  { intros t events H events'. split; [reflexivity|]. split.
    - exists events. unfold events'. destruct (instanceof_Error t); eauto.
    - intros file data Hin. unfold events' in Hin.
      apply in_app_or in Hin. destruct Hin as [Hin|[Hin|[]]].
      + exact (H _ _ Hin).
      + destruct (instanceof_Error t); discriminate Hin. }
  assert (Hshown : forall (commits : list CommitInfo) dateRange e file data,
            (forall f d, e <> writeFileSync f d) ->
            ~ In (writeFileSync file data)
                (fetching (ora_succeed (lit "Found "
                                        ++ Number_toString (length commits)
                                        ++ lit " commits"))
                 ++ period chalk dateRange :: summarizing e)).
  { intros commits dateRange e file data He Hin.
    apply in_app_or in Hin. destruct Hin as [Hin|[Hin|[Hin|[Hin|[]]]]].
    - revert Hin. now apply Hfetching.
    - discriminate Hin.
    - discriminate Hin.
    - now apply (He file data). }
  assert (Hlast : forall (l : list event) a args,
            exists earlier args',
              l ++ [a; console_log args] = earlier ++ [console_log args']).
  { intros l a args. exists (l ++ [a]), args. now rewrite <- app_assoc. }
  unfold action, run.
  destruct (key_missing apiKey) eqn:Hkey.
  { split; [reflexivity|]. split.
    - eexists [_; _], _. reflexivity.
    - intros file data [H|[H|[H|[]]]]; discriminate H. }
  destruct (getCommits simpleGit (path_resolve (repo options)) (since options))
    as [commits|e] eqn:Hfetch.
  2: { apply Hthrown. intros file data. now apply Hfetching. }
  destruct (length commits =? 0) eqn:Hlen.
  { split.
    - apply Hlast.
    - intros file data Hin. exfalso.
      apply in_app_or in Hin. destruct Hin as [Hin|[Hin|[Hin|[]]]];
        try discriminate Hin.
      revert Hin. now apply Hfetching. }
  destruct (getDateRange host_parse now spare_arguments commits) as [dateRange|e] eqn:Hdates.
  2: { apply Hthrown. intros file data. now apply Hfetching. }
  destruct (summarizeCommits apiKey create host_text commits
              (Some (audience options))) as [sections|t] eqn:Hsum.
  2: { apply Hthrown. intros file data. now apply Hshown. }
  destruct (if jsstring_eqb (format options) (lit "html")
            then formatHTML sections dateRange
            else formatMarkdown sections dateRange) as [text|t] eqn:Hfmt.
  2: { apply Hthrown. intros file data. now apply Hshown. }
  destruct (output options) as [[|c file]|] eqn:Hout.
  - split.
    + apply Hlast.
    + intros file data Hin. exfalso.
      apply in_app_or in Hin. destruct Hin as [Hin|[Hin|[Hin|[]]]];
        try discriminate Hin.
      revert Hin. now apply Hshown.
  - cbv beta iota zeta.
    destruct (write_refused (path_resolve (c :: file)) text) as [t|] eqn:Hw.
    + apply Hthrown. intros file' data. now apply Hshown.
    + split.
      * apply Hlast.
      * intros file' data Hin.
        apply in_app_or in Hin. destruct Hin as [Hin|[Hin|[Hin|[]]]].
        -- exfalso. revert Hin. now apply Hshown.
        -- injection Hin as <- _. exists (c :: file). now repeat split.
        -- discriminate Hin.
  - split.
    + apply Hlast.
    + intros file data Hin. exfalso.
      apply in_app_or in Hin. destruct Hin as [Hin|[Hin|[Hin|[]]]];
        try discriminate Hin.
      revert Hin. now apply Hshown.
Qed.

(** X14.  The service is asked last.  Whenever what the program does
    depends on the service at all (two services lead to different runs),
    the key is present, commits were fetched and there is at least one, and
    the dates of all of them were read; and the two runs differ because
    summarizeCommits gave different results.  So without a key, outside a
    repository, for a period without commits or with a date that cannot be
    read, the program does the same whatever the service would answer. *)
Theorem action_asks_service path_resolve chalk apiKey simpleGit host_parse now spare_arguments
    create create' host_text host_message formatMarkdown formatHTML
    write_refused options :
  action path_resolve chalk apiKey simpleGit host_parse now spare_arguments create host_text
    host_message formatMarkdown formatHTML write_refused options
  <> action path_resolve chalk apiKey simpleGit host_parse now spare_arguments create'
       host_text host_message formatMarkdown formatHTML write_refused options ->
  key_missing apiKey = false
  /\ exists commits dateRange,
       getCommits simpleGit (path_resolve (repo options)) (since options)
       = Ok commits
       /\ commits <> []
       /\ getDateRange host_parse now spare_arguments commits = Ok dateRange
       /\ summarizeCommits apiKey create host_text commits
            (Some (audience options))
          <> summarizeCommits apiKey create' host_text commits
               (Some (audience options)).
Proof.
  intros Hne.
  destruct (run_before_summary path_resolve chalk apiKey simpleGit host_parse
              now spare_arguments host_text formatMarkdown formatHTML write_refused create
              options)
    as [[_ E]|[(e & _ & E)|[[_ E]|[(commits & e & _ & _ & E)
       |(Hkey & commits & dateRange & Hfetch & Hc & Hdates)]]]];
    try (exfalso; apply Hne; unfold action; now rewrite (E create')).
  split; [exact Hkey|]. exists commits, dateRange.
  repeat split; try assumption.
  intros E. apply Hne. unfold action.
  rewrite !(run_summary path_resolve chalk apiKey simpleGit host_parse now spare_arguments
              host_text formatMarkdown formatHTML write_refused _ options
              commits dateRange Hkey Hfetch Hc Hdates).
  cbv zeta. now rewrite E.
Qed.

Lemma action_asks_service_witness :
  key_missing sample_key = false
  /\ exists commits dateRange,
       getCommits (repo_with_log (git_log git_entries)) (repo sample_options)
         (since sample_options)
       = Ok commits
       /\ commits <> []
       /\ getDateRange strict_host 0 node_spare commits = Ok dateRange
       /\ summarizeCommits sample_key (answering [TextBlock sample_reply])
            (fun _ => []) commits (Some (audience sample_options))
          <> summarizeCommits sample_key (rejecting (APIError (lit "overloaded")))
               (fun _ => []) commits (Some (audience sample_options)).
Proof.
  apply (action_asks_service (fun p => p) plain sample_key
           (repo_with_log (git_log git_entries)) strict_host 0 node_spare
           (answering [TextBlock sample_reply])
           (rejecting (APIError (lit "overloaded")))
           (fun _ => []) (fun _ => [])
           (titled "# Changes ") (titled "<h1>Changes</h1> ")
           every_write_accepted sample_options).
  vm_compute. discriminate.
Defined.


Section DatesAgain.

Local Open Scope Z_scope.

(** The range of two commits dated with two calendar days. *)
Lemma getDateRange_days host now spare c1 c2 t1 t2 :
  t1 / msPerDay <= t2 / msPerDay ->
  length (utc_date t1) = 10%nat -> length (utc_date t2) = 10%nat ->
  date c1 = utc_date t1 -> date c2 = utc_date t2 ->
  getDateRange host now spare [c1; c2]
  = Ok (mkDateRange (utc_date t1) (utc_date t2)).
Proof.
  intros Hle L1 L2 E1 E2.
  destruct (getDateRange_valid host now spare [c1; c2]
              [t1 / msPerDay * msPerDay; t2 / msPerDay * msPerDay])
    as (tmin & tmax & Hmin & Hmax & ->);
    [discriminate|unfold max_arguments; cbn [length]; lia| |].
  - cbn [map]. rewrite E1, E2.
    now rewrite !Date_of_string_utc_date by assumption.
  - assert (A : t1 / msPerDay * msPerDay <= t2 / msPerDay * msPerDay)
      by (unfold msPerDay in *; lia).
    assert (tmin = t1 / msPerDay * msPerDay) as ->.
    { apply (is_min_unique _ _ _ Hmin). split; [now left|].
      intros t [<-|[<-|[]]]; lia. }
    assert (tmax = t2 / msPerDay * msPerDay) as ->.
    { apply (is_max_unique _ _ _ Hmax). split; [right; now left|].
      intros t [<-|[<-|[]]]; lia. }
    now rewrite !utc_date_midnight.
Qed.

(** What getDateRange returns: the calendar days of two instants, the
    first not after the second. *)
Lemma getDateRange_days_of host now spare commits r :
  getDateRange host now spare commits = Ok r ->
  exists t1 t2,
    t1 / msPerDay <= t2 / msPerDay
    /\ r = mkDateRange (utc_date t1) (utc_date t2).
Proof.
  intros H. destruct commits as [|c commits].
  - rewrite getDateRange_empty in H. injection H as <-.
    exists now, now. split; [lia|reflexivity].
  - destruct (getDateRange_returned host now spare (c :: commits) r)
      as (times & tmin & tmax & _ & _ & Hmin & Hmax & ->);
      [discriminate|exact H|].
    exists tmin, tmax. split; [|reflexivity].
    apply Z.div_le_mono; [unfold msPerDay; lia|].
    destruct Hmin as [_ Hmin], Hmax as [Hin _]. now apply Hmin.
Qed.

(** The instants of commits that git dated, whatever the engine. *)
Lemma git_dates_parse commits :
  (forall c, In c commits -> git_dated c) ->
  exists times, forall host,
    map (fun c => Date_of_string host (date c)) commits = map Some times.
Proof.
  induction commits as [|c commits IH]; intros H.
  - now exists [].
  - destruct IH as [times E]; [intros c' Hc'; apply H; now right|].
    destruct (H c (or_introl eq_refl))
      as (y & mo & d & h & mi & s & west & oh & om & Hok & Hd).
    exists (git_instant y mo d h mi s west oh om :: times). intros host.
    cbn [map]. now rewrite E, Hd, Date_of_string_git_date.
Qed.

End DatesAgain.

(** X15.  The range can be fed back.  When getDateRange has returned a
    range whose two bounds have the ten characters of YYYY-MM-DD (the years
    0 to 9999), two commits dated with these bounds have that same range:
    each bound is read back, on every engine, as the midnight UTC with
    which its day began, and the start is not after the end. *)
Theorem getDateRange_again host now spare commits r c1 c2 :
  getDateRange host now spare commits = Ok r ->
  length (range_start r) = 10 -> length (range_end r) = 10 ->
  date c1 = range_start r -> date c2 = range_end r ->
  (forall host' now' spare',
     getDateRange host' now' spare' [c1; c2] = Ok r)
  /\ exists t1 t2,
       Date_of_string host (range_start r) = Some t1
       /\ Date_of_string host (range_end r) = Some t2
       /\ (t1 <= t2)%Z /\ (t1 mod msPerDay = 0)%Z /\ (t2 mod msPerDay = 0)%Z
       /\ utc_date t1 = range_start r /\ utc_date t2 = range_end r.
Proof.
  intros H L1 L2 E1 E2.
  destruct (getDateRange_days_of host now spare commits r H)
    as (t1 & t2 & Hle & ->).
  cbn [range_start range_end] in *. split.
  - intros host' now' spare'. now apply getDateRange_days.
  - exists (t1 / msPerDay * msPerDay)%Z, (t2 / msPerDay * msPerDay)%Z.
    rewrite !Date_of_string_utc_date by assumption.
    rewrite !utc_date_midnight.
    rewrite !Z.mod_mul by (unfold msPerDay; lia).
    repeat split; try reflexivity. unfold msPerDay in *. lia.
Qed.

Lemma getDateRange_again_witness :
  (forall host' now' spare',
     getDateRange host' now' spare'
       [commit_dated "2024-01-06"; commit_dated "2024-01-20"]
     = Ok (mkDateRange (lit "2024-01-06") (lit "2024-01-20")))
  /\ exists t1 t2,
       Date_of_string strict_host (lit "2024-01-06") = Some t1
       /\ Date_of_string strict_host (lit "2024-01-20") = Some t2
       /\ (t1 <= t2)%Z /\ (t1 mod msPerDay = 0)%Z /\ (t2 mod msPerDay = 0)%Z
       /\ utc_date t1 = lit "2024-01-06" /\ utc_date t2 = lit "2024-01-20".
Proof.
  apply (getDateRange_again strict_host 0 node_spare sample_commits
           (mkDateRange (lit "2024-01-06") (lit "2024-01-20"))
           (commit_dated "2024-01-06") (commit_dated "2024-01-20")).
  - vm_compute. reflexivity.
  - reflexivity.
  - reflexivity.
  - reflexivity.
  - reflexivity.
Defined.

(** X16.  Dates as git writes them need nothing from the engine but
    room for the arguments.  When every commit carries a date in git's
    strict ISO format (a calendar date of the years 0 to 9999, a time of day
    and an offset from UTC), there is one range that getDateRange returns
    on every engine that takes as many arguments in a call as there are
    commits, whatever else the engine understands of dates and whatever the
    clock says; on an engine that takes fewer it throws a RangeError.  No
    date is left to the engine's own parser, and none is out of the range
    of time values. *)
Theorem getDateRange_git_dates commits :
  commits <> [] -> (forall c, In c commits -> git_dated c) ->
  exists r, forall host now spare,
    getDateRange host now spare commits
    = if length commits <=? max_arguments spare then Ok r
      else Throw RangeError.
Proof.
  intros Hne H. destruct (git_dates_parse commits H) as [times E].
  destruct (getDateRange_valid strict_host 0 (length commits) commits times
              Hne ltac:(unfold max_arguments; lia) (E strict_host))
    as (tmin & tmax & Hmin & Hmax & _).
  exists (mkDateRange (utc_date tmin) (utc_date tmax)).
  intros host now spare.
  destruct (length commits <=? max_arguments spare) eqn:L.
  - apply Nat.leb_le in L.
    destruct (getDateRange_valid host now spare commits times Hne L (E host))
      as (tmin' & tmax' & Hmin' & Hmax' & ->).
    now rewrite (is_min_unique _ _ _ Hmin' Hmin),
                (is_max_unique _ _ _ Hmax' Hmax).
  - apply getDateRange_long. now apply Nat.leb_gt.
Qed.

Lemma getDateRange_git_dates_witness :
  exists r, forall host now spare,
    getDateRange host now spare sample_commits
    = if length sample_commits <=? max_arguments spare then Ok r
      else Throw RangeError.
Proof.
  apply (getDateRange_git_dates sample_commits).
  - discriminate.
  - intros c [<-|[<-|[]]].
    + exists 2024%Z, 1%Z, 20%Z, 9%Z, 15%Z, 0%Z, false, 1%Z, 0%Z.
      split; reflexivity.
    + exists 2024%Z, 1%Z, 5%Z, 23%Z, 30%Z, 0%Z, true, 5%Z, 0%Z.
      split; reflexivity.
Defined.

(** X17.  Where a result of summarizeCommits comes from.  When it is
    fulfilled, the key was present, the service answered the request made
    of the commits and the audience's framing, the first block of the answer
    was a text, and the sections are what parseClaudeResponse makes of that
    text: four of them, in the order features, fixes, improvements, other.
    Blocks after the first play no part. *)
Theorem summarizeCommits_fulfilled apiKey create host_text commits audience
    sections :
  summarizeCommits apiKey create host_text commits audience
  = Fulfilled sections ->
  exists key guidance text more,
    apiKey = Some key /\ truthy_string key = true
    /\ audienceGuidance audience = Ok guidance
    /\ create key (request host_text commits guidance)
       = Fulfilled (TextBlock text :: more)
    /\ parseClaudeResponse text = Ok sections
    /\ map section_category sections = [features; fixes; improvements; other]
    /\ forall more',
         read_reply (TextBlock text :: more') = Fulfilled sections.
Proof.
  intros H. destruct (key_missing apiKey) eqn:Hk.
  { rewrite (summarizeCommits_no_key _ _ _ _ _ Hk) in H. discriminate. }
  destruct (key_present _ Hk) as (key & Hkey & Ht).
  destruct (summarizeCommits_key apiKey create host_text commits audience
              key Hkey Ht) as (g & Hg & E).
  rewrite E in H. clear E.
  destruct (create key (request host_text commits g)) as [blocks|t] eqn:Hc.
  2: { destruct t; discriminate H. }
  destruct blocks as [|[text|type] more].
  - discriminate H.
  - assert (P : parseClaudeResponse text = Ok sections).
    { unfold read_reply in H.
      change (jsstring_eqb (block_type (TextBlock text)) (lit "text"))
        with true in H.
      cbn [negb] in H. destruct (parseClaudeResponse text) as [s|e];
        cbn [settle translate] in H; congruence. }
    exists key, g, text, more. repeat split; try assumption.
    + unfold parseClaudeResponse in P.
      destruct (regexp_match text) as [span|]; [|discriminate].
      destruct (JSON_parse span) as [data|]; [|discriminate].
      cbn [bind] in P.
      destruct (Get data (lit "features")); [|discriminate].
      destruct (Get data (lit "fixes")); [|discriminate].
      destruct (Get data (lit "improvements")); [|discriminate].
      destruct (Get data (lit "other")); [|discriminate].
      cbn [bind] in P. now injection P as <-.
    + intros more'. unfold read_reply.
      change (jsstring_eqb (block_type (TextBlock text)) (lit "text"))
        with true.
      cbn [negb]. now rewrite P.
  - exfalso. unfold read_reply in H. cbn [block_type] in H.
    destruct (jsstring_eqb type (lit "text")); cbn [negb translate] in H;
      discriminate H.
Qed.

Lemma summarizeCommits_fulfilled_witness :
  exists key guidance text more,
    sample_key = Some key /\ truthy_string key = true
    /\ audienceGuidance (Some (lit "sales")) = Ok guidance
    /\ answering [TextBlock sample_reply; OtherBlock (lit "tool_use")] key
         (request (fun _ => []) sample_commits guidance)
       = Fulfilled (TextBlock text :: more)
    /\ parseClaudeResponse text
       = Ok (reply_sections [lit "You can now export to CSV."]
               [lit "Login works again."] [] [])
    /\ map section_category
         (reply_sections [lit "You can now export to CSV."]
            [lit "Login works again."] [] [])
       = [features; fixes; improvements; other]
    /\ forall more',
         read_reply (TextBlock text :: more')
         = Fulfilled (reply_sections [lit "You can now export to CSV."]
                        [lit "Login works again."] [] []).
Proof.
  apply (summarizeCommits_fulfilled sample_key
           (answering [TextBlock sample_reply; OtherBlock (lit "tool_use")])
           (fun _ => []) sample_commits (Some (lit "sales"))
           (reply_sections [lit "You can now export to CSV."]
              [lit "Login works again."] [] [])).
  vm_compute. reflexivity.
Defined.
